(** * gocue: a CUE sheet parser (Go) -- shallow embedding and verified properties

    The development follows the two source files of the package:
    the document model with its timecode arithmetic and duration inference,
    and the parser with its tokenizer and timecode reader.

    Go values are modelled as follows.
    - [int], [int64] and [time.Duration] are 64-bit two's complement integers,
      carried as [Z] with the wrap-around written out ([wrap64]).
    - a Go [string] is a sequence of bytes: Rocq's [string], one [ascii] per
      byte.  Runes are code points in [Z]; [for i, r := range s] is the list
      [range_string s] of byte offsets and decoded runes.
    - pointers ([*Cuesheet], [*File], [*Track]) are addresses into a heap
      ([Heap]); [nil] is [None].  Objects are mutated in place through their
      address, as the parser does.
    - an [error] is a small tree mirroring how the message is assembled. *)

From Stdlib Require Import ZArith Lia String Ascii List Bool.
From stdpp Require Import base option list.
Import ListNotations.

Local Open Scope string_scope.
Local Open Scope list_scope.
Local Open Scope Z_scope.

(** ** Machine integers *)

Definition intSize : Z := 64.
Definition MaxInt64 : Z := 2 ^ 63 - 1.
Definition MinInt64 : Z := - 2 ^ 63.
Definition MaxUint64 : Z := 2 ^ 64 - 1.

(** Two's complement reduction of a mathematical integer to [int64]. *)
Definition wrap64 (z : Z) : Z := (z + 2 ^ 63) mod 2 ^ 64 - 2 ^ 63.

Definition add64 (a b : Z) : Z := wrap64 (a + b).
Definition sub64 (a b : Z) : Z := wrap64 (a - b).
Definition mul64 (a b : Z) : Z := wrap64 (a * b).
(** Go's [/] and [%] truncate toward zero. *)
Definition div64 (a b : Z) : Z := wrap64 (Z.quot a b).
Definition rem64 (a b : Z) : Z := Z.rem a b.

Definition in_int64 (z : Z) : Prop := MinInt64 <= z <= MaxInt64.

(** ** Bytes, runes and UTF-8 *)

Definition byte (c : ascii) : Z := Z.of_N (N_of_ascii c).
Definition chr (b : Z) : ascii := ascii_of_N (Z.to_N b).

Definition quoteRune : Z := 34.
Definition spaceRune : Z := 32.
Definition tabRune : Z := 9.
Definition colonByte : Z := 58.

Definition RuneError : Z := 0xFFFD.
Definition RuneSelf : Z := 0x80.
Definition MaxRune : Z := 0x10FFFF.

Definition len (s : string) : Z := Z.of_nat (String.length s).

Fixpoint drop_bytes (n : nat) (s : string) : string :=
  match n, s with
  | O, _ => s
  | S k, String _ r => drop_bytes k r
  | S _, EmptyString => EmptyString
  end.

Fixpoint take_bytes (n : nat) (s : string) : string :=
  match n, s with
  | O, _ => EmptyString
  | S k, String c r => String c (take_bytes k r)
  | S _, EmptyString => EmptyString
  end.

Definition isCont (b : Z) : bool := (0x80 <=? b) && (b <=? 0xBF).

Definition in_range (lo hi b : Z) : bool := (lo <=? b) && (b <=? hi).

(** [utf8.DecodeRuneInString]: the first rune of [s] and its width in bytes.
    Ill-formed input decodes to [(RuneError, 1)], the empty string to
    [(RuneError, 0)]. *)
Definition DecodeRuneInString (s : string) : Z * nat :=
  match s with
  | EmptyString => (RuneError, 0%nat)
  | String c0 s1 =>
    let b0 := byte c0 in
    if b0 <? RuneSelf then (b0, 1%nat)
    else if b0 <? 0xC2 then (RuneError, 1%nat)
    else if b0 <? 0xE0 then
      match s1 with
      | String c1 _ =>
        if isCont (byte c1)
        then (Z.lor (Z.shiftl (Z.land b0 0x1F) 6) (Z.land (byte c1) 0x3F), 2%nat)
        else (RuneError, 1%nat)
      | _ => (RuneError, 1%nat)
      end
    else if b0 <? 0xF0 then
      match s1 with
      | String c1 (String c2 _) =>
        let lo := if b0 =? 0xE0 then 0xA0 else 0x80 in
        let hi := if b0 =? 0xED then 0x9F else 0xBF in
        if in_range lo hi (byte c1) && isCont (byte c2)
        then (Z.lor (Z.lor (Z.shiftl (Z.land b0 0x0F) 12)
                           (Z.shiftl (Z.land (byte c1) 0x3F) 6))
                    (Z.land (byte c2) 0x3F), 3%nat)
        else (RuneError, 1%nat)
      | _ => (RuneError, 1%nat)
      end
    else if b0 <? 0xF5 then
      match s1 with
      | String c1 (String c2 (String c3 _)) =>
        let lo := if b0 =? 0xF0 then 0x90 else 0x80 in
        let hi := if b0 =? 0xF4 then 0x8F else 0xBF in
        if in_range lo hi (byte c1) && isCont (byte c2) && isCont (byte c3)
        then (Z.lor (Z.lor (Z.lor (Z.shiftl (Z.land b0 0x07) 18)
                                  (Z.shiftl (Z.land (byte c1) 0x3F) 12))
                           (Z.shiftl (Z.land (byte c2) 0x3F) 6))
                    (Z.land (byte c3) 0x3F), 4%nat)
        else (RuneError, 1%nat)
      | _ => (RuneError, 1%nat)
      end
    else (RuneError, 1%nat)
  end.

Definition bytes_string (bs : list Z) : string :=
  fold_right (fun b s => String (chr b) s) EmptyString bs.

(** [utf8.AppendRune]: the UTF-8 encoding of a rune; surrogates and values
    out of range are written as the encoding of [RuneError]. *)
Definition EncodeRune (r : Z) : string :=
  if (0 <=? r) && (r <=? 0x7F) then bytes_string [r]
  else if (0 <=? r) && (r <=? 0x7FF) then
    bytes_string [Z.lor 0xC0 (Z.shiftr r 6); Z.lor 0x80 (Z.land r 0x3F)]
  else if ((0 <=? r) && (r <? 0xD800)) || ((0xDFFF <? r) && (r <=? 0xFFFF)) then
    bytes_string [Z.lor 0xE0 (Z.shiftr r 12);
                  Z.lor 0x80 (Z.land (Z.shiftr r 6) 0x3F);
                  Z.lor 0x80 (Z.land r 0x3F)]
  else if (0xFFFF <? r) && (r <=? MaxRune) then
    bytes_string [Z.lor 0xF0 (Z.shiftr r 18);
                  Z.lor 0x80 (Z.land (Z.shiftr r 12) 0x3F);
                  Z.lor 0x80 (Z.land (Z.shiftr r 6) 0x3F);
                  Z.lor 0x80 (Z.land r 0x3F)]
  else bytes_string [0xEF; 0xBF; 0xBD].

(** [for i, r := range s]: byte offset and rune of every decoding step.
    Each step consumes at least one byte, so [String.length s] steps of fuel
    always reach the end of [s] (lemma [range_from_fuel]). *)
Fixpoint range_from (fuel : nat) (i : Z) (s : string) : list (Z * Z) :=
  match fuel with
  | O => []
  | S k =>
    match s with
    | EmptyString => []
    | _ =>
      let '(r, w) := DecodeRuneInString s in
      (i, r) :: range_from k (i + Z.of_nat w) (drop_bytes w s)
    end
  end.

Definition range_string (s : string) : list (Z * Z) :=
  range_from (String.length s) 0 s.

(** ** Errors *)

Inductive NumErr := ErrSyntax | ErrRange.

(** [errors_New msg] is [errors.New(msg)], or [fmt.Errorf] with a format that
    has no [%w] verb, [msg] being the formatted text; [Errorf_w prefix cause]
    is [fmt.Errorf(prefix + "%w", cause)]; [NumError] is [*strconv.NumError]. *)
Inductive error :=
| errors_New (msg : string)
| Errorf_w (prefix : string) (cause : error)
| NumError (Func Num : string) (Err : NumErr).

Notation "'try' x ':=' e 'in' k" :=
  (match e with inl err => inl err | inr x => k end)
  (at level 10, x pattern, e at level 100, k at level 200, only parsing).

(** ** strconv and fmt *)

Definition isDigit (b : Z) : bool := (48 <=? b) && (b <=? 57).

(** The digit loop of [strconv.ParseUint] in base 10 at 64 bits: a byte that
    is not a digit is a syntax error, a value beyond [MaxUint64] a range
    error, whichever comes first from the left. *)
Fixpoint scanDigits (n : Z) (s : string) : NumErr + Z :=
  match s with
  | EmptyString => inr n
  | String c r =>
    let b := byte c in
    if negb (isDigit b) then inl ErrSyntax
    else if MaxUint64 / 10 + 1 <=? n then inl ErrRange
    else
      let n1 := n * 10 + (b - 48) in
      if MaxUint64 <? n1 then inl ErrRange else scanDigits n1 r
  end.

(** [strconv.Atoi]: an optional sign, then one or more decimal digits, the
    value within [int]. *)
Definition Atoi (s : string) : error + Z :=
  let fail e := inl (NumError "Atoi" s e) in
  match s with
  | EmptyString => fail ErrSyntax
  | String c r =>
    let neg := byte c =? 45 in
    let digits := if neg || (byte c =? 43) then r else s in
    match digits with
    | EmptyString => fail ErrSyntax
    | _ =>
      match scanDigits 0 digits with
      | inl e => fail e
      | inr un =>
        if negb neg && (2 ^ 63 <=? un) then fail ErrRange
        else if neg && (2 ^ 63 <? un) then fail ErrRange
        else inr (if neg then - un else un)
      end
    end
  end.

(** Decimal digits of a non-negative integer, most significant first, written
    in front of [acc]; 20 digits cover every 64-bit magnitude. *)
Fixpoint digits_acc (fuel : nat) (n : Z) (acc : string) : string :=
  match fuel with
  | O => acc
  | S k =>
    let acc' := String (chr (48 + n mod 10)) acc in
    if n <? 10 then acc' else digits_acc k (n / 10) acc'
  end.

Definition digits (n : Z) : string := digits_acc 20 n EmptyString.

(** [%d] *)
Definition fmt_d (n : Z) : string :=
  if n <? 0 then String (chr 45) (digits (- n)) else digits n.

(** [%02d]: zero padding to width 2, the sign counting toward the width. *)
Definition fmt_02d (n : Z) : string :=
  if n <? 0 then String (chr 45) (digits (- n))
  else if n <? 10 then String (chr 48) (digits n)
  else digits n.

(** ** strings *)

(** [strings.Split(s, ":")] *)
Fixpoint Split_colon (s : string) : list string :=
  match s with
  | EmptyString => [EmptyString]
  | String c r =>
    if byte c =? colonByte then EmptyString :: Split_colon r
    else match Split_colon r with
         | p :: ps => String c p :: ps
         | [] => [String c EmptyString]
         end
  end.

(** [strings.Join(elems, sep)] *)
Fixpoint Join (elems : list string) (sep : string) : string :=
  match elems with
  | [] => EmptyString
  | [e] => e
  | e :: rest => (e ++ sep ++ Join rest sep)%string
  end.

Fixpoint isASCII (s : string) : bool :=
  match s with
  | EmptyString => true
  | String c r => (byte c <? RuneSelf) && isASCII r
  end.

Definition asciiUpper (b : Z) : Z :=
  if (97 <=? b) && (b <=? 122) then b - 32 else b.

Fixpoint map_bytes (f : Z -> Z) (s : string) : string :=
  match s with
  | EmptyString => EmptyString
  | String c r => String (chr (f (byte c))) (map_bytes f r)
  end.

Fixpoint concat_strings (l : list string) : string :=
  match l with
  | [] => EmptyString
  | s :: r => (s ++ concat_strings r)%string
  end.

(** [unicode.IsSpace] *)
Definition IsSpace (r : Z) : bool :=
  in_range 9 13 r || (r =? 32) || (r =? 0x85) || (r =? 0xA0) || (r =? 0x1680)
  || in_range 0x2000 0x200A r || (r =? 0x2028) || (r =? 0x2029)
  || (r =? 0x202F) || (r =? 0x205F) || (r =? 0x3000).

(** [strings.TrimLeftFunc(s, unicode.IsSpace)] *)
Fixpoint TrimLeft_from (fuel : nat) (s : string) : string :=
  match fuel with
  | O => s
  | S k =>
    match s with
    | EmptyString => s
    | _ =>
      let '(r, w) := DecodeRuneInString s in
      if IsSpace r then TrimLeft_from k (drop_bytes w s) else s
    end
  end.

Definition TrimLeftSpace (s : string) : string :=
  TrimLeft_from (String.length s) s.

Definition RuneStart (b : Z) : bool := negb (Z.land b 0xC0 =? 0x80).

Definition byte_at (s : string) (i : nat) : Z :=
  match String.get i s with Some c => byte c | None => 0 end.

(** The backward search of [utf8.DecodeLastRuneInString] for the start of the
    last rune: from [start] down to [lim], the first byte that can start a
    rune ([start] ends below [lim] when there is none). *)
Fixpoint lastRuneStart (steps : nat) (s : string) (start lim : Z) : Z :=
  match steps with
  | O => start
  | S k =>
    if start <? lim then start
    else if RuneStart (byte_at s (Z.to_nat start)) then start
    else lastRuneStart k s (start - 1) lim
  end.

(** [utf8.DecodeLastRuneInString] *)
Definition DecodeLastRuneInString (s : string) : Z * nat :=
  let e := len s in
  if e =? 0 then (RuneError, 0%nat)
  else
    let r := byte_at s (Z.to_nat (e - 1)) in
    if r <? RuneSelf then (r, 1%nat)
    else
      let lim := Z.max 0 (e - 4) in
      let start := Z.max 0 (lastRuneStart 4 s (e - 2) lim) in
      let '(r, size) := DecodeRuneInString
                          (take_bytes (Z.to_nat (e - start))
                                      (drop_bytes (Z.to_nat start) s)) in
      if start + Z.of_nat size =? e then (r, size) else (RuneError, 1%nat).

(** [strings.TrimRightFunc(s, unicode.IsSpace)] *)
Fixpoint TrimRight_from (fuel : nat) (s : string) : string :=
  match fuel with
  | O => s
  | S k =>
    match s with
    | EmptyString => s
    | _ =>
      let '(r, w) := DecodeLastRuneInString s in
      if IsSpace r
      then TrimRight_from k (take_bytes (String.length s - w)%nat s)
      else s
    end
  end.

Definition TrimRightSpace (s : string) : string :=
  TrimRight_from (String.length s) s.

(** [strings.TrimSpace] *)
Definition TrimSpace (s : string) : string :=
  TrimRightSpace (TrimLeftSpace s).

(** ** The document model *)

Definition FramesPerSecond : Z := 75.

Record Timecode := { Minutes : Z; Seconds : Z; Frames : Z }.

Definition zeroTimecode : Timecode := {| Minutes := 0; Seconds := 0; Frames := 0 |}.

(** [Timecode.String]: [fmt.Sprintf("%02d:%02d:%02d", ...)] *)
Definition Timecode_String (t : Timecode) : string :=
  (fmt_02d (Minutes t) ++ ":" ++ fmt_02d (Seconds t) ++ ":" ++ fmt_02d (Frames t))%string.

Definition TotalFrames (t : Timecode) : Z :=
  add64 (add64 (mul64 (mul64 (Minutes t) 60) FramesPerSecond)
               (mul64 (Seconds t) FramesPerSecond))
        (Frames t).

Definition AsDuration (t : Timecode) : Z :=
  let nanoseconds := div64 (mul64 (TotalFrames t) 1000000000) FramesPerSecond in
  nanoseconds.

Definition NewTimecodeFromFrames (totalFrames : Z) : Timecode :=
  let totalFrames := if totalFrames <? 0 then 0 else totalFrames in
  let minutes := div64 totalFrames (60 * FramesPerSecond) in
  let totalFrames := rem64 totalFrames (60 * FramesPerSecond) in
  let seconds := div64 totalFrames FramesPerSecond in
  let frames := rem64 totalFrames FramesPerSecond in
  {| Minutes := minutes; Seconds := seconds; Frames := frames |}.

Record Index := { Index_Number : Z; Index_Time : Timecode }.

(** Addresses of heap objects. *)
Abbreviation ptr := nat.

Record Track := {
  Track_Number : Z;
  Track_Type : string;
  Track_Title : string;
  Track_Performer : string;
  Track_Songwriter : string;
  Track_ISRC : string;
  Track_Flags : list string;
  Track_Indices : list Index;
  Track_Pregap : Timecode;
  Track_Postgap : Timecode;
  parentFile : option ptr
}.

Record File := {
  File_Name : string;
  File_Type : string;
  File_Tracks : list ptr;
  parentSheet : option ptr
}.

Record Cuesheet := {
  Cuesheet_Title : string;
  Cuesheet_Performer : string;
  Cuesheet_Songwriter : string;
  Cuesheet_Catalog : string;
  Cuesheet_Files : list ptr;
  Cuesheet_Rem : list string;
  Cuesheet_CDTextFile : string
}.

(** The objects reachable through pointers: an address is a position in the
    list of its type.  Go never leaves a non-nil pointer dangling; in the
    model a lookup outside the heap yields [None]. *)
Record Heap := {
  sheets : list Cuesheet;
  files : list File;
  tracks : list Track
}.

Fixpoint StartTime_loop (indices : list Index) : Timecode :=
  match indices with
  | [] => zeroTimecode
  | idx :: rest =>
    if Index_Number idx =? 1 then Index_Time idx else StartTime_loop rest
  end.

Definition StartTime (t : Track) : Timecode := StartTime_loop (Track_Indices t).

(** The first loop of [getTrackDuration]: the tracks of all files, appended
    file after file. *)
Fixpoint collectTracks (h : Heap) (fs : list ptr) : option (list ptr) :=
  match fs with
  | [] => Some []
  | fp :: rest =>
    file ← files h !! fp;
    more ← collectTracks h rest;
    Some (File_Tracks file ++ more)
  end.

(** The second loop of [getTrackDuration]: stops at the first track with the
    number sought, and takes as next track the element right after it when
    that one carries the following number. *)
Fixpoint scanTracks (h : Heap) (trackNumber : Z) (allTracks : list ptr)
  : option (option ptr * option ptr) :=
  match allTracks with
  | [] => Some (None, None)
  | tr :: rest =>
    t ← tracks h !! tr;
    if Track_Number t =? trackNumber then
      match rest with
      | nx :: _ =>
        t' ← tracks h !! nx;
        if Track_Number t' =? add64 trackNumber 1
        then Some (Some tr, Some nx)
        else Some (Some tr, None)
      | [] => Some (Some tr, None)
      end
    else scanTracks h trackNumber rest
  end.

Definition ptr_eqb (a b : option ptr) : bool :=
  match a, b with
  | None, None => true
  | Some x, Some y => Nat.eqb x y
  | _, _ => false
  end.

Definition getTrackDuration (h : Heap) (f : ptr) (trackNumber : Z) : option Z :=
  file ← files h !! f;
  allTracks ← match parentSheet file with
               | Some sp => sheet ← sheets h !! sp; collectTracks h (Cuesheet_Files sheet)
               | None => Some (File_Tracks file)
               end;
  found ← scanTracks h trackNumber allTracks;
  match found with
  | (Some c, Some n) =>
    currentTrack ← tracks h !! c;
    nextTrack ← tracks h !! n;
    let startTime := AsDuration (StartTime currentTrack) in
    let nextStartTime := AsDuration (StartTime nextTrack) in
    if negb (ptr_eqb (parentFile currentTrack) (parentFile nextTrack)) then Some 0
    else if nextStartTime <? startTime then Some 0
    else Some (sub64 nextStartTime startTime)
  | _ => Some 0
  end.

(** [Track.Duration] *)
Definition Duration (h : Heap) (t : ptr) : option Z :=
  track ← tracks h !! t;
  match parentFile track with
  | None => Some 0
  | Some f => getTrackDuration h f (Track_Number track)
  end.

(** ** Field assignments *)

Definition set_Track_Title (v : string) (t : Track) : Track :=
  {| Track_Number := Track_Number t; Track_Type := Track_Type t; Track_Title := v;
     Track_Performer := Track_Performer t; Track_Songwriter := Track_Songwriter t;
     Track_ISRC := Track_ISRC t; Track_Flags := Track_Flags t;
     Track_Indices := Track_Indices t; Track_Pregap := Track_Pregap t;
     Track_Postgap := Track_Postgap t; parentFile := parentFile t |}.

Definition set_Track_Performer (v : string) (t : Track) : Track :=
  {| Track_Number := Track_Number t; Track_Type := Track_Type t; Track_Title := Track_Title t;
     Track_Performer := v; Track_Songwriter := Track_Songwriter t;
     Track_ISRC := Track_ISRC t; Track_Flags := Track_Flags t;
     Track_Indices := Track_Indices t; Track_Pregap := Track_Pregap t;
     Track_Postgap := Track_Postgap t; parentFile := parentFile t |}.

Definition set_Track_Songwriter (v : string) (t : Track) : Track :=
  {| Track_Number := Track_Number t; Track_Type := Track_Type t; Track_Title := Track_Title t;
     Track_Performer := Track_Performer t; Track_Songwriter := v;
     Track_ISRC := Track_ISRC t; Track_Flags := Track_Flags t;
     Track_Indices := Track_Indices t; Track_Pregap := Track_Pregap t;
     Track_Postgap := Track_Postgap t; parentFile := parentFile t |}.

Definition set_Track_ISRC (v : string) (t : Track) : Track :=
  {| Track_Number := Track_Number t; Track_Type := Track_Type t; Track_Title := Track_Title t;
     Track_Performer := Track_Performer t; Track_Songwriter := Track_Songwriter t;
     Track_ISRC := v; Track_Flags := Track_Flags t;
     Track_Indices := Track_Indices t; Track_Pregap := Track_Pregap t;
     Track_Postgap := Track_Postgap t; parentFile := parentFile t |}.

Definition set_Track_Flags (v : list string) (t : Track) : Track :=
  {| Track_Number := Track_Number t; Track_Type := Track_Type t; Track_Title := Track_Title t;
     Track_Performer := Track_Performer t; Track_Songwriter := Track_Songwriter t;
     Track_ISRC := Track_ISRC t; Track_Flags := v;
     Track_Indices := Track_Indices t; Track_Pregap := Track_Pregap t;
     Track_Postgap := Track_Postgap t; parentFile := parentFile t |}.

Definition set_Track_Indices (v : list Index) (t : Track) : Track :=
  {| Track_Number := Track_Number t; Track_Type := Track_Type t; Track_Title := Track_Title t;
     Track_Performer := Track_Performer t; Track_Songwriter := Track_Songwriter t;
     Track_ISRC := Track_ISRC t; Track_Flags := Track_Flags t;
     Track_Indices := v; Track_Pregap := Track_Pregap t;
     Track_Postgap := Track_Postgap t; parentFile := parentFile t |}.

Definition set_Track_Pregap (v : Timecode) (t : Track) : Track :=
  {| Track_Number := Track_Number t; Track_Type := Track_Type t; Track_Title := Track_Title t;
     Track_Performer := Track_Performer t; Track_Songwriter := Track_Songwriter t;
     Track_ISRC := Track_ISRC t; Track_Flags := Track_Flags t;
     Track_Indices := Track_Indices t; Track_Pregap := v;
     Track_Postgap := Track_Postgap t; parentFile := parentFile t |}.

Definition set_Track_Postgap (v : Timecode) (t : Track) : Track :=
  {| Track_Number := Track_Number t; Track_Type := Track_Type t; Track_Title := Track_Title t;
     Track_Performer := Track_Performer t; Track_Songwriter := Track_Songwriter t;
     Track_ISRC := Track_ISRC t; Track_Flags := Track_Flags t;
     Track_Indices := Track_Indices t; Track_Pregap := Track_Pregap t;
     Track_Postgap := v; parentFile := parentFile t |}.

Definition set_parentFile (v : option ptr) (t : Track) : Track :=
  {| Track_Number := Track_Number t; Track_Type := Track_Type t; Track_Title := Track_Title t;
     Track_Performer := Track_Performer t; Track_Songwriter := Track_Songwriter t;
     Track_ISRC := Track_ISRC t; Track_Flags := Track_Flags t;
     Track_Indices := Track_Indices t; Track_Pregap := Track_Pregap t;
     Track_Postgap := Track_Postgap t; parentFile := v |}.

Definition set_File_Tracks (v : list ptr) (f : File) : File :=
  {| File_Name := File_Name f; File_Type := File_Type f; File_Tracks := v;
     parentSheet := parentSheet f |}.

Definition set_parentSheet (v : option ptr) (f : File) : File :=
  {| File_Name := File_Name f; File_Type := File_Type f; File_Tracks := File_Tracks f;
     parentSheet := v |}.

Definition set_Cuesheet_Title (v : string) (c : Cuesheet) : Cuesheet :=
  {| Cuesheet_Title := v; Cuesheet_Performer := Cuesheet_Performer c;
     Cuesheet_Songwriter := Cuesheet_Songwriter c; Cuesheet_Catalog := Cuesheet_Catalog c;
     Cuesheet_Files := Cuesheet_Files c; Cuesheet_Rem := Cuesheet_Rem c;
     Cuesheet_CDTextFile := Cuesheet_CDTextFile c |}.

Definition set_Cuesheet_Performer (v : string) (c : Cuesheet) : Cuesheet :=
  {| Cuesheet_Title := Cuesheet_Title c; Cuesheet_Performer := v;
     Cuesheet_Songwriter := Cuesheet_Songwriter c; Cuesheet_Catalog := Cuesheet_Catalog c;
     Cuesheet_Files := Cuesheet_Files c; Cuesheet_Rem := Cuesheet_Rem c;
     Cuesheet_CDTextFile := Cuesheet_CDTextFile c |}.

Definition set_Cuesheet_Songwriter (v : string) (c : Cuesheet) : Cuesheet :=
  {| Cuesheet_Title := Cuesheet_Title c; Cuesheet_Performer := Cuesheet_Performer c;
     Cuesheet_Songwriter := v; Cuesheet_Catalog := Cuesheet_Catalog c;
     Cuesheet_Files := Cuesheet_Files c; Cuesheet_Rem := Cuesheet_Rem c;
     Cuesheet_CDTextFile := Cuesheet_CDTextFile c |}.

Definition set_Cuesheet_Catalog (v : string) (c : Cuesheet) : Cuesheet :=
  {| Cuesheet_Title := Cuesheet_Title c; Cuesheet_Performer := Cuesheet_Performer c;
     Cuesheet_Songwriter := Cuesheet_Songwriter c; Cuesheet_Catalog := v;
     Cuesheet_Files := Cuesheet_Files c; Cuesheet_Rem := Cuesheet_Rem c;
     Cuesheet_CDTextFile := Cuesheet_CDTextFile c |}.

Definition set_Cuesheet_Files (v : list ptr) (c : Cuesheet) : Cuesheet :=
  {| Cuesheet_Title := Cuesheet_Title c; Cuesheet_Performer := Cuesheet_Performer c;
     Cuesheet_Songwriter := Cuesheet_Songwriter c; Cuesheet_Catalog := Cuesheet_Catalog c;
     Cuesheet_Files := v; Cuesheet_Rem := Cuesheet_Rem c;
     Cuesheet_CDTextFile := Cuesheet_CDTextFile c |}.

Definition set_Cuesheet_Rem (v : list string) (c : Cuesheet) : Cuesheet :=
  {| Cuesheet_Title := Cuesheet_Title c; Cuesheet_Performer := Cuesheet_Performer c;
     Cuesheet_Songwriter := Cuesheet_Songwriter c; Cuesheet_Catalog := Cuesheet_Catalog c;
     Cuesheet_Files := Cuesheet_Files c; Cuesheet_Rem := v;
     Cuesheet_CDTextFile := Cuesheet_CDTextFile c |}.

Definition set_Cuesheet_CDTextFile (v : string) (c : Cuesheet) : Cuesheet :=
  {| Cuesheet_Title := Cuesheet_Title c; Cuesheet_Performer := Cuesheet_Performer c;
     Cuesheet_Songwriter := Cuesheet_Songwriter c; Cuesheet_Catalog := Cuesheet_Catalog c;
     Cuesheet_Files := Cuesheet_Files c; Cuesheet_Rem := Cuesheet_Rem c;
     Cuesheet_CDTextFile := v |}.

(** Assignment through a pointer: the object at the address is replaced. *)
Definition update_sheet (p : ptr) (f : Cuesheet -> Cuesheet) (h : Heap) : Heap :=
  {| sheets := alter f p (sheets h); files := files h; tracks := tracks h |}.

Definition update_file (p : ptr) (f : File -> File) (h : Heap) : Heap :=
  {| sheets := sheets h; files := alter f p (files h); tracks := tracks h |}.

Definition update_track (p : ptr) (f : Track -> Track) (h : Heap) : Heap :=
  {| sheets := sheets h; files := files h; tracks := alter f p (tracks h) |}.

(** [&File{...}] and [&Track{...}]: a fresh object at the next address. *)
Definition new_file (f : File) (h : Heap) : Heap * ptr :=
  ({| sheets := sheets h; files := files h ++ [f]; tracks := tracks h |},
   length (files h)).

Definition new_track (t : Track) (h : Heap) : Heap * ptr :=
  ({| sheets := sheets h; files := files h; tracks := tracks h ++ [t] |},
   length (tracks h)).

Definition new_sheet (c : Cuesheet) (h : Heap) : Heap * ptr :=
  ({| sheets := sheets h ++ [c]; files := files h; tracks := tracks h |},
   length (sheets h)).

Definition emptyHeap : Heap := {| sheets := []; files := []; tracks := [] |}.

Definition emptyCuesheet : Cuesheet :=
  {| Cuesheet_Title := ""; Cuesheet_Performer := ""; Cuesheet_Songwriter := "";
     Cuesheet_Catalog := ""; Cuesheet_Files := []; Cuesheet_Rem := [];
     Cuesheet_CDTextFile := "" |}.

(** ** The parser: timecodes and tokens *)

Definition parseTimecode (s : string) : error + Timecode :=
  match Split_colon s with
  | [p0; p1; p2] =>
    match Atoi p0 with
    | inl _ => inl (errors_New ("invalid minutes value: " ++ p0))
    | inr minutes =>
      match Atoi p1 with
      | inl _ => inl (errors_New ("invalid seconds value: " ++ p1))
      | inr seconds =>
        if 59 <? seconds
        then inl (errors_New ("seconds value cannot exceed 59: " ++ fmt_d seconds))
        else
          match Atoi p2 with
          | inl _ => inl (errors_New ("invalid frames value: " ++ p2))
          | inr frames =>
            if FramesPerSecond <=? frames
            then inl (errors_New ("frames value must be less than "
                                  ++ fmt_d FramesPerSecond ++ ": " ++ fmt_d frames))
            else inr {| Minutes := minutes; Seconds := seconds; Frames := frames |}
          end
      end
    end
  | _ => inl (errors_New "timecode must be in MM:SS:FF format")
  end.

(** The local variables of [smartSplit]. *)
Record splitState := {
  result : list string;
  current : string;
  inQuote : bool
}.

Definition WriteRune (r : Z) (st : splitState) : splitState :=
  {| result := result st; current := (current st ++ EncodeRune r)%string;
     inQuote := inQuote st |}.

(** One iteration of the loop of [smartSplit], at byte offset [i] with rune
    [r], on a line of [n] bytes. *)
Definition smartSplit_step (n : Z) (st : splitState) (i r : Z) : error + splitState :=
  try st1 :=
    (if r =? quoteRune then
       inr {| result := result st; current := current st;
              inQuote := negb (inQuote st) |}
     else if (r =? spaceRune) || (r =? tabRune) then
       if inQuote st then inr (WriteRune r st)
       else if 0 <? len (current st)
            then inr {| result := result st ++ [current st]; current := "";
                        inQuote := inQuote st |}
            else inr st
     else
       if (Z.of_nat (length (result st)) =? 0) && (len (current st) =? 0)
          && (r =? quoteRune)
       then inl (errors_New "command cannot be quoted")
       else inr (WriteRune r st))
  in
  if (i =? n - 1) && inQuote st1
  then inl (errors_New "mismatched quotes")
  else inr st1.

Fixpoint smartSplit_loop (n : Z) (st : splitState) (rs : list (Z * Z))
  : error + splitState :=
  match rs with
  | [] => inr st
  | (i, r) :: rest =>
    try st1 := smartSplit_step n st i r in smartSplit_loop n st1 rest
  end.

Definition smartSplit (line : string) : error + list string :=
  let st0 := {| result := []; current := ""; inQuote := false |} in
  try st := smartSplit_loop (len line) st0 (range_string line) in
  if 0 <? len (current st)
  then inr (result st ++ [current st])
  else inr (result st).

(** ** The parser: the line loop *)

(** A case table that leaves every rune beyond ASCII as it is, to run the
    parser on inputs whose uppercased tokens are ASCII. *)
Definition plainTable (r : Z) : Z := r.

Section Parser.

(** [unicode.ToUpper] beyond ASCII is decided by the Unicode case tables of
    the Go runtime, which are not part of this package: the mapping of the
    non-ASCII runes is a parameter of the development. *)
Variable caseTable : Z -> Z.

Definition unicode_ToUpper (r : Z) : Z :=
  if r <? RuneSelf then asciiUpper r else caseTable r.

(** [strings.ToUpper]: bytewise on an ASCII string, otherwise rune by rune
    ([strings.Map], which drops a rune mapped to a negative value). *)
Definition ToUpper (s : string) : string :=
  if isASCII s then map_bytes asciiUpper s
  else concat_strings
         (map (fun ir : Z * Z =>
                 let r := unicode_ToUpper (snd ir) in
                 if r <? 0 then "" else EncodeRune r)
              (range_string s)).

(** The variables of [Parse] that live across lines. *)
Record ParseState := {
  heap : Heap;
  sheet : ptr;
  currentFile : option ptr;
  currentTrack : option ptr;
  pendingIndices : list Index;
  lineNum : Z
}.

Definition line_error (n : Z) (msg : string) : error :=
  errors_New ("line " ++ fmt_d n ++ ": " ++ msg).

Definition line_error_w (n : Z) (msg : string) (cause : error) : error :=
  Errorf_w ("line " ++ fmt_d n ++ ": " ++ msg ++ ": ") cause.

Definition with_heap (h : Heap) (st : ParseState) : ParseState :=
  {| heap := h; sheet := sheet st; currentFile := currentFile st;
     currentTrack := currentTrack st; pendingIndices := pendingIndices st;
     lineNum := lineNum st |}.

(** The [switch command] of [Parse], on the arguments of one line. *)
Definition dispatch (st : ParseState) (command : string) (args : list string)
  : error + ParseState :=
  let n := lineNum st in
  if String.eqb command "REM" then
    match args with
    | [] => inr st
    | _ => inr (with_heap (update_sheet (sheet st)
                  (fun c => set_Cuesheet_Rem (Cuesheet_Rem c ++ [Join args " "]) c)
                  (heap st)) st)
    end
  else if String.eqb command "CATALOG" then
    match args with
    | [] => inl (line_error n "CATALOG command requires an argument")
    | a0 :: _ => inr (with_heap (update_sheet (sheet st) (set_Cuesheet_Catalog a0) (heap st)) st)
    end
  else if String.eqb command "CDTEXTFILE" then
    match args with
    | [] => inl (line_error n "CDTEXTFILE command requires an argument")
    | a0 :: _ => inr (with_heap (update_sheet (sheet st) (set_Cuesheet_CDTextFile a0) (heap st)) st)
    end
  else if String.eqb command "TITLE" then
    match args with
    | [] => inl (line_error n "TITLE command requires an argument")
    | title :: _ =>
      match currentTrack st with
      | Some t => inr (with_heap (update_track t (set_Track_Title title) (heap st)) st)
      | None => inr (with_heap (update_sheet (sheet st) (set_Cuesheet_Title title) (heap st)) st)
      end
    end
  else if String.eqb command "PERFORMER" then
    match args with
    | [] => inl (line_error n "PERFORMER command requires an argument")
    | performer :: _ =>
      match currentTrack st with
      | Some t => inr (with_heap (update_track t (set_Track_Performer performer) (heap st)) st)
      | None => inr (with_heap (update_sheet (sheet st) (set_Cuesheet_Performer performer) (heap st)) st)
      end
    end
  else if String.eqb command "SONGWRITER" then
    match args with
    | [] => inl (line_error n "SONGWRITER command requires an argument")
    | songwriter :: _ =>
      match currentTrack st with
      | Some t => inr (with_heap (update_track t (set_Track_Songwriter songwriter) (heap st)) st)
      | None => inr (with_heap (update_sheet (sheet st) (set_Cuesheet_Songwriter songwriter) (heap st)) st)
      end
    end
  else if String.eqb command "FILE" then
    match args with
    | a0 :: a1 :: _ =>
      let '(h1, file) :=
        new_file {| File_Name := a0; File_Type := ToUpper a1; File_Tracks := [];
                    parentSheet := None |} (heap st) in
      let h2 := update_sheet (sheet st)
                  (fun c => set_Cuesheet_Files (Cuesheet_Files c ++ [file]) c) h1 in
      inr {| heap := h2; sheet := sheet st; currentFile := Some file;
             currentTrack := None; pendingIndices := []; lineNum := n |}
    | _ => inl (line_error n "FILE command requires name and type arguments")
    end
  else if String.eqb command "TRACK" then
    match currentFile st with
    | None => inl (line_error n "TRACK command found outside of a FILE context")
    | Some cf =>
      match args with
      | a0 :: a1 :: _ =>
        match Atoi a0 with
        | inl err => inl (line_error_w n "invalid track number" err)
        | inr num =>
          let pending := pendingIndices st in
          let '(h1, track) :=
            new_track {| Track_Number := num; Track_Type := ToUpper a1;
                         Track_Title := ""; Track_Performer := "";
                         Track_Songwriter := ""; Track_ISRC := ""; Track_Flags := [];
                         Track_Indices := match pending with
                                          | [] => []
                                          | _ => [] ++ pending
                                          end;
                         Track_Pregap := zeroTimecode; Track_Postgap := zeroTimecode;
                         parentFile := None |} (heap st) in
          let h2 := update_file cf
                      (fun f => set_File_Tracks (File_Tracks f ++ [track]) f) h1 in
          inr {| heap := h2; sheet := sheet st; currentFile := currentFile st;
                 currentTrack := Some track;
                 pendingIndices := match pending with [] => pending | _ => [] end;
                 lineNum := n |}
        end
      | _ => inl (line_error n "TRACK command requires number and type arguments")
      end
    end
  else if String.eqb command "INDEX" then
    match args with
    | a0 :: a1 :: _ =>
      match Atoi a0 with
      | inl err => inl (line_error_w n "invalid index number" err)
      | inr num =>
        match parseTimecode a1 with
        | inl err => inl (line_error_w n "invalid timecode for INDEX" err)
        | inr timecode =>
          let index := {| Index_Number := num; Index_Time := timecode |} in
          match currentTrack st, currentFile st with
          | Some t, _ =>
            inr (with_heap (update_track t
                   (fun tr => set_Track_Indices (Track_Indices tr ++ [index]) tr)
                   (heap st)) st)
          | None, Some _ =>
            inr {| heap := heap st; sheet := sheet st; currentFile := currentFile st;
                   currentTrack := currentTrack st;
                   pendingIndices := pendingIndices st ++ [index]; lineNum := n |}
          | None, None =>
            inl (line_error n "INDEX command found outside of a FILE context")
          end
        end
      end
    | _ => inl (line_error n "INDEX command requires number and timecode arguments")
    end
  else if String.eqb command "PREGAP" then
    match currentTrack st with
    | None => inl (line_error n "PREGAP command found outside of a TRACK context")
    | Some t =>
      match args with
      | [] => inl (line_error n "PREGAP command requires a timecode argument")
      | a0 :: _ =>
        match parseTimecode a0 with
        | inl err => inl (line_error_w n "invalid timecode for PREGAP" err)
        | inr timecode =>
          inr (with_heap (update_track t (set_Track_Pregap timecode) (heap st)) st)
        end
      end
    end
  else if String.eqb command "POSTGAP" then
    match currentTrack st with
    | None => inl (line_error n "POSTGAP command found outside of a TRACK context")
    | Some t =>
      match args with
      | [] => inl (line_error n "POSTGAP command requires a timecode argument")
      | a0 :: _ =>
        match parseTimecode a0 with
        | inl err => inl (line_error_w n "invalid timecode for POSTGAP" err)
        | inr timecode =>
          inr (with_heap (update_track t (set_Track_Postgap timecode) (heap st)) st)
        end
      end
    end
  else if String.eqb command "FLAGS" then
    match currentTrack st with
    | None => inl (line_error n "FLAGS command found outside of a TRACK context")
    | Some t =>
      inr (with_heap (update_track t
             (fun tr => set_Track_Flags (Track_Flags tr ++ args) tr) (heap st)) st)
    end
  else if String.eqb command "ISRC" then
    match currentTrack st with
    | None => inl (line_error n "ISRC command found outside of a TRACK context")
    | Some t =>
      match args with
      | [] => inl (line_error n "ISRC command requires an argument")
      | a0 :: _ => inr (with_heap (update_track t (set_Track_ISRC a0) (heap st)) st)
      end
    end
  else inr st.

(** The body of the scanning loop, on the text of one line. *)
Definition parseLine (st : ParseState) (text : string) : error + ParseState :=
  let st := {| heap := heap st; sheet := sheet st; currentFile := currentFile st;
               currentTrack := currentTrack st; pendingIndices := pendingIndices st;
               lineNum := add64 (lineNum st) 1 |} in
  let line := TrimSpace text in
  if String.eqb line "" then inr st
  else
    match smartSplit line with
    | inl err => inl (line_error_w (lineNum st) "invalid quoting" err)
    | inr parts =>
      match parts with
      | [] => inr st
      | p0 :: args => dispatch st (ToUpper p0) args
      end
    end.

Fixpoint parseLines (st : ParseState) (lines : list string) : error + ParseState :=
  match lines with
  | [] => inr st
  | text :: rest => try st1 := parseLine st text in parseLines st1 rest
  end.

(** The final pass of [Parse]: the inner loop sets the back-reference of the
    tracks of file [f], the outer loop that of every file of the sheet. *)
Definition wire_tracks (f : ptr) (ts : list ptr) (h : Heap) : Heap :=
  fold_left (fun h t => update_track t (set_parentFile (Some f)) h) ts h.

Definition wire_file (sheet : ptr) (h : Heap) (f : ptr) : Heap :=
  let h1 := update_file f (set_parentSheet (Some sheet)) h in
  match files h1 !! f with
  | Some file => wire_tracks f (File_Tracks file) h1
  | None => h1
  end.

Definition wire (sheet : ptr) (h : Heap) : Heap :=
  match sheets h !! sheet with
  | Some s => fold_left (wire_file sheet) (Cuesheet_Files s) h
  | None => h
  end.

Definition initialState : ParseState :=
  let '(h, sheet) := new_sheet emptyCuesheet emptyHeap in
  {| heap := h; sheet := sheet; currentFile := None; currentTrack := None;
     pendingIndices := []; lineNum := 0 |}.

(** [Parse].  The reader is seen through its scanner: [lines] are the texts
    [scanner.Text()] delivers, [readErr] is what [scanner.Err()] reports when
    the scanner stops.  A successful parse returns the heap it built and the
    address of the sheet in it. *)
Definition Parse (lines : list string) (readErr : option error)
  : error + (Heap * ptr) :=
  try st := parseLines initialState lines in
  match readErr with
  | Some err => inl (Errorf_w "error reading input: " err)
  | None => inr (wire (sheet st) (heap st), sheet st)
  end.


(** ** The example program: file names *)

(** The characters of the class in the regular expression: the angle
    brackets, the colon, the double quote, the slash, the backslash, the
    bar, the question mark and the star. *)
Definition forbiddenByte (b : Z) : bool :=
  (b =? 60) || (b =? 62) || (b =? 58) || (b =? 34) || (b =? 47) || (b =? 92)
  || (b =? 124) || (b =? 63) || (b =? 42).

(** [sanitizeFilename].  [ReplaceAllString] with a class of ASCII characters
    and the replacement [_] works byte by byte: a match is one byte of the
    class, every other byte is copied (a byte of a multi-byte rune, or an
    ill-formed one, is never in the class). *)
Definition sanitizeFilename (name : string) : string :=
  let sanitized := map_bytes (fun b => if forbiddenByte b then 95 else b) name in
  TrimSpace sanitized.

(** ** Vocabulary of the properties *)

Fixpoint allDigits (s : string) : bool :=
  match s with
  | EmptyString => true
  | String c r => isDigit (byte c) && allDigits r
  end.

(** The value the digit loop accumulates when nothing stops it. *)
Fixpoint digitsValue (v : Z) (s : string) : Z :=
  match s with
  | EmptyString => v
  | String c r => digitsValue (v * 10 + (byte c - 48)) r
  end.

Fixpoint noColon (s : string) : bool :=
  match s with
  | EmptyString => true
  | String c r => negb (byte c =? colonByte) && noColon r
  end.

(** A double quote, for building test lines. *)
Definition dq : string := String (chr 34) EmptyString.

(** The letter e with an acute accent: two bytes in UTF-8. *)
Definition e_acute : string := bytes_string [0xC3; 0xA9].

Fixpoint oddQuotes (s : string) : bool :=
  match s with
  | EmptyString => false
  | String c r => xorb (byte c =? quoteRune) (oddQuotes r)
  end.

(** The command word, uppercased, and the arguments of a line that is not
    blank and tokenizes to at least one token. *)
Definition command_of (text : string) : option (string * list string) :=
  if String.eqb (TrimSpace text) "" then None
  else match smartSplit (TrimSpace text) with
       | inr (p0 :: args) => Some (ToUpper p0, args)
       | _ => None
       end.

Definition next_line (st : ParseState) : ParseState :=
  {| heap := heap st; sheet := sheet st; currentFile := currentFile st;
     currentTrack := currentTrack st; pendingIndices := pendingIndices st;
     lineNum := add64 (lineNum st) 1 |}.

(** The index record an [INDEX] command denotes when its arguments are
    well formed. *)
Definition index_of_command (command : string) (args : list string) : option Index :=
  if String.eqb command "INDEX" then
    match args with
    | a0 :: a1 :: _ =>
      match Atoi a0, parseTimecode a1 with
      | inr num, inr timecode => Some {| Index_Number := num; Index_Time := timecode |}
      | _, _ => None
      end
    | _ => None
    end
  else None.

Definition index_of_line (text : string) : list Index :=
  match command_of text with
  | Some (command, args) =>
    match index_of_command command args with
    | Some idx => [idx]
    | None => []
    end
  | None => []
  end.

(** A line that opens neither a file nor a track. *)
Definition quiet (text : string) : Prop :=
  match command_of text with
  | Some (command, _) => command <> "FILE" /\ command <> "TRACK"
  | None => True
  end.

Definition new_track_of (num : Z) (type : string) (pending : list Index) : Track :=
  {| Track_Number := num; Track_Type := type; Track_Title := "";
     Track_Performer := ""; Track_Songwriter := ""; Track_ISRC := "";
     Track_Flags := []; Track_Indices := pending;
     Track_Pregap := zeroTimecode; Track_Postgap := zeroTimecode;
     parentFile := None |}.

(** The shapes a successful command can take. *)
Inductive dispatch_effect (st : ParseState) (command : string) (args : list string)
  (st' : ParseState) : Prop :=
| Eff_skip :
    st' = st -> command <> "FILE" -> command <> "TRACK" -> command <> "INDEX" ->
    dispatch_effect st command args st'
| Eff_sheet (g : Cuesheet -> Cuesheet) :
    (forall c, Cuesheet_Files (g c) = Cuesheet_Files c) ->
    st' = with_heap (update_sheet (sheet st) g (heap st)) st ->
    command <> "FILE" -> command <> "TRACK" -> command <> "INDEX" ->
    dispatch_effect st command args st'
| Eff_track (t : ptr) (g : Track -> Track) :
    currentTrack st = Some t ->
    (forall tr, Track_Number (g tr) = Track_Number tr) ->
    st' = with_heap (update_track t g (heap st)) st ->
    command <> "FILE" -> command <> "TRACK" ->
    dispatch_effect st command args st'
| Eff_FILE (a0 a1 : string) (more : list string) :
    command = "FILE" -> args = a0 :: a1 :: more ->
    st' = {| heap := update_sheet (sheet st)
                       (fun c => set_Cuesheet_Files
                                   (Cuesheet_Files c ++ [length (files (heap st))]) c)
                       (fst (new_file {| File_Name := a0; File_Type := ToUpper a1;
                                         File_Tracks := []; parentSheet := None |}
                                      (heap st)));
             sheet := sheet st; currentFile := Some (length (files (heap st)));
             currentTrack := None; pendingIndices := []; lineNum := lineNum st |} ->
    dispatch_effect st command args st'
| Eff_TRACK (cf : ptr) (a0 a1 : string) (more : list string) (num : Z) :
    command = "TRACK" -> currentFile st = Some cf -> args = a0 :: a1 :: more ->
    Atoi a0 = inr num ->
    st' = {| heap := update_file cf
                       (fun f => set_File_Tracks
                                   (File_Tracks f ++ [length (tracks (heap st))]) f)
                       (fst (new_track (new_track_of num (ToUpper a1) (pendingIndices st))
                                       (heap st)));
             sheet := sheet st; currentFile := Some cf;
             currentTrack := Some (length (tracks (heap st)));
             pendingIndices := []; lineNum := lineNum st |} ->
    dispatch_effect st command args st'
| Eff_pending (cf : ptr) (idx : Index) :
    command = "INDEX" -> currentTrack st = None -> currentFile st = Some cf ->
    index_of_command command args = Some idx ->
    st' = {| heap := heap st; sheet := sheet st; currentFile := Some cf;
             currentTrack := None; pendingIndices := pendingIndices st ++ [idx];
             lineNum := lineNum st |} ->
    dispatch_effect st command args st'.

(** The heap of a parse holds one sheet; the sheet lists every file and the
    files together list every track, in order of creation; the current file
    is the last one; a current track is live, belongs to a file, and leaves
    nothing pending. *)
Record Inv (st : ParseState) : Prop := {
  inv_sheet : sheet st = 0%nat;
  inv_sheets : exists s, sheets (heap st) = [s]
                         /\ Cuesheet_Files s = seq 0 (length (files (heap st)));
  inv_tracks : concat (map File_Tracks (files (heap st)))
               = seq 0 (length (tracks (heap st)));
  inv_file : match currentFile st with
             | Some cf => S cf = length (files (heap st))
             | None => files (heap st) = [] /\ currentTrack st = None
             end;
  inv_track : match currentTrack st with
              | Some ct => (ct < length (tracks (heap st)))%nat
                           /\ pendingIndices st = []
              | None => True
              end
}.

Definition indices_of_lines (lines : list string) : list Index :=
  concat (map index_of_line lines).

Ltac eval_switch :=
  unfold dispatch;
  repeat match goal with
  | |- context [String.eqb ?a ?b] =>
    let v := eval vm_compute in (String.eqb a b) in
    change (String.eqb a b) with v
  end;
  cbv iota.

Definition field_of_sheet (field : Cuesheet -> string) (st : ParseState) : option string :=
  field <$> sheets (heap st) !! sheet st.

Definition field_of_track (field : Track -> string) (st : ParseState) (t : ptr)
  : option string :=
  field <$> tracks (heap st) !! t.

(** The line is read without error and leaves a state where [P] holds. *)
Definition leaves (st : ParseState) (text : string) (P : ParseState -> Prop) : Prop :=
  exists st', parseLine st text = inr st' /\ P st'.

Definition tracks_of (h : Heap) (f : ptr) : list ptr :=
  match files h !! f with
  | Some file => File_Tracks file
  | None => []
  end.

(** The tracks of a sheet in file-then-track order, each with the address of
    the file that lists it. *)
Definition sheet_tracks (h : Heap) (s : Cuesheet) : list (ptr * Track) :=
  flat_map (fun f =>
              flat_map (fun p => match tracks h !! p with
                                 | Some t => [(f, t)]
                                 | None => []
                                 end)
                       (tracks_of h f))
           (Cuesheet_Files s).

(** Start of [t'] minus start of [t] in real time, zero when negative. *)
Definition duration_between (t t' : Track) : Z :=
  let d := AsDuration (StartTime t') - AsDuration (StartTime t) in
  if d <? 0 then 0 else d.

(** The duration as the code infers it: the first track numbered [n] in the
    order, and the track right after it when that one is numbered [n+1] (in
    [int] arithmetic) and listed by the same file. *)
Fixpoint duration_of (n : Z) (l : list (ptr * Track)) : Z :=
  match l with
  | [] => 0
  | (f, t) :: rest =>
    if Track_Number t =? n then
      match rest with
      | (f', t') :: _ =>
        if (Track_Number t' =? add64 n 1) && Nat.eqb f f'
        then duration_between t t'
        else 0
      | [] => 0
      end
    else duration_of n rest
  end.

(** The duration as C1 words it: track [n] and the track numbered [n+1],
    each wherever the scan finds it first. *)
Definition duration_as_claimed (n : Z) (l : list (ptr * Track)) : Z :=
  match find (fun ft : ptr * Track => Track_Number (snd ft) =? n) l,
        find (fun ft : ptr * Track => Track_Number (snd ft) =? n + 1) l with
  | Some (f, t), Some (f', t') =>
    if Nat.eqb f f' then duration_between t t' else 0
  | _, _ => 0
  end.

(** The part of [getTrackDuration] after the list of tracks is built. *)
Definition duration_among (h : Heap) (allTracks : list ptr) (trackNumber : Z)
  : option Z :=
  found ← scanTracks h trackNumber allTracks;
  match found with
  | (Some c, Some n) =>
    currentTrack ← tracks h !! c;
    nextTrack ← tracks h !! n;
    let startTime := AsDuration (StartTime currentTrack) in
    let nextStartTime := AsDuration (StartTime nextTrack) in
    if negb (ptr_eqb (parentFile currentTrack) (parentFile nextTrack)) then Some 0
    else if nextStartTime <? startTime then Some 0
    else Some (sub64 nextStartTime startTime)
  | _ => Some 0
  end.

(** Address [p] holds the track [snd ft], whose back-reference is the file
    [fst ft]. *)
Definition listed (h : Heap) (p : ptr) (ft : ptr * Track) : Prop :=
  tracks h !! p = Some (snd ft) /\ parentFile (snd ft) = Some (fst ft).

(** No pointer stored in the heap dangles (what Go guarantees of every
    heap). *)
Definition closed (h : Heap) : Prop :=
  (forall sp s f, sheets h !! sp = Some s -> f ∈ Cuesheet_Files s ->
     is_Some (files h !! f))
  /\ (forall f file, files h !! f = Some file ->
        (forall p, p ∈ File_Tracks file -> is_Some (tracks h !! p))
        /\ (forall sp, parentSheet file = Some sp -> is_Some (sheets h !! sp)))
  /\ (forall p t f, tracks h !! p = Some t -> parentFile t = Some f ->
        is_Some (files h !! f)).

(** A timecode within the ranges of the format: minutes from zero up,
    seconds below 60, frames below 75. *)
Definition canonical (t : Timecode) : Prop :=
  0 <= Minutes t /\ 0 <= Seconds t <= 59 /\ 0 <= Frames t < FramesPerSecond.

(** The frame count of a timecode as a mathematical integer. *)
Definition frameCount (t : Timecode) : Z :=
  Minutes t * 60 * 75 + Seconds t * 75 + Frames t.

(** Lexicographic order on minutes, seconds, frames. *)
Definition earlier (a b : Timecode) : Prop :=
  Minutes a < Minutes b
  \/ (Minutes a = Minutes b
      /\ (Seconds a < Seconds b
          \/ (Seconds a = Seconds b /\ Frames a < Frames b))).

(** Every byte of the string satisfies [P]. *)
Fixpoint allBytes (P : Z -> bool) (s : string) : bool :=
  match s with
  | EmptyString => true
  | String c r => P (byte c) && allBytes P r
  end.

Definition notQuote (b : Z) : bool := negb (b =? quoteRune).

(** A byte of a bare word: neither a quote nor a space nor a tab. *)
Definition wordByte (b : Z) : bool :=
  negb (b =? quoteRune) && negb (b =? spaceRune) && negb (b =? tabRune).

(** What the tokenizer has gathered holds no empty token, and no quote
    character in a token or in the token being built. *)
Definition clean (st : splitState) : Prop :=
  Forall (fun tok => tok <> EmptyString /\ allBytes notQuote tok = true) (result st)
  /\ allBytes notQuote (current st) = true.

(** The effect of one character on the variables of [smartSplit], apart from
    the end-of-line test. *)
Definition tok_step (st : splitState) (r : Z) : splitState :=
  if r =? quoteRune then
    {| result := result st; current := current st; inQuote := negb (inQuote st) |}
  else if (r =? spaceRune) || (r =? tabRune) then
    if inQuote st then WriteRune r st
    else if 0 <? len (current st)
         then {| result := result st ++ [current st]; current := "";
                 inQuote := inQuote st |}
         else st
  else WriteRune r st.

Fixpoint tok_run (st : splitState) (s : string) : splitState :=
  match s with
  | EmptyString => st
  | String c r => tok_run (tok_step st (byte c)) r
  end.

(** The tokens when the loop is over. *)
Definition tok_flush (st : splitState) : list string :=
  if 0 <? len (current st) then result st ++ [current st] else result st.

(** The error carries the line number [n] in front of its message. *)
Definition tagged (n : Z) (e : error) : Prop :=
  (exists msg, e = line_error n msg)
  \/ (exists msg cause, e = line_error_w n msg cause).

Ltac close_tagged :=
  first [ discriminate
        | intros [= <-];
          first [ left; eexists; reflexivity
                | right; eexists _, _; reflexivity ] ].

Definition set_lineNum (n : Z) (st : ParseState) : ParseState :=
  {| heap := heap st; sheet := sheet st; currentFile := currentFile st;
     currentTrack := currentTrack st; pendingIndices := pendingIndices st;
     lineNum := n |}.

(** The command words [Parse] knows. *)
Definition knownCommands : list string :=
  ["REM"; "CATALOG"; "CDTEXTFILE"; "TITLE"; "PERFORMER"; "SONGWRITER"; "FILE";
   "TRACK"; "INDEX"; "PREGAP"; "POSTGAP"; "FLAGS"; "ISRC"].

(** A line [Parse] passes over: blank, without tokens, with a command word
    it does not know, or a [REM] without text. *)
Definition passed_over (text : string) : Prop :=
  TrimSpace text = ""
  \/ smartSplit (TrimSpace text) = inr []
  \/ exists command args,
       command_of text = Some (command, args)
       /\ (~ In command knownCommands \/ (command = "REM" /\ args = [])).

(** What a caller gets from [Parse] when it succeeds. *)
Definition outcome (r : error + (Heap * ptr)) : option (Heap * ptr) :=
  match r with
  | inr v => Some v
  | inl _ => None
  end.

Definition is_command (command text : string) : bool :=
  match command_of text with
  | Some (c, _) => String.eqb c command
  | None => false
  end.

(** How many of the lines carry the command word. *)
Fixpoint count_command (command : string) (lines : list string) : nat :=
  match lines with
  | [] => 0
  | text :: rest =>
    ((if is_command command text then 1 else 0) + count_command command rest)%nat
  end.

(** The indices of the track at address [t], when there is one. *)
Definition indices_at (st : ParseState) (t : ptr) : option (list Index) :=
  Track_Indices <$> tracks (heap st) !! t.

(** * Properties *)

(** ** Machine arithmetic *)

Lemma wrap64_id z : MinInt64 <= z <= MaxInt64 -> wrap64 z = z.
Proof.
  unfold MinInt64, MaxInt64, wrap64. intros H.
  rewrite Z.mod_small; lia.
Qed.

Lemma wrap64_range z : MinInt64 <= wrap64 z <= MaxInt64.
Proof.
  unfold MinInt64, MaxInt64, wrap64.
  pose proof (Z.mod_pos_bound (z + 2 ^ 63) (2 ^ 64) ltac:(lia)). lia.
Qed.

Lemma TotalFrames_exact t :
  MinInt64 <= Minutes t * 60 <= MaxInt64 ->
  MinInt64 <= Minutes t * 60 * 75 <= MaxInt64 ->
  MinInt64 <= Seconds t * 75 <= MaxInt64 ->
  MinInt64 <= Minutes t * 60 * 75 + Seconds t * 75 <= MaxInt64 ->
  MinInt64 <= Minutes t * 60 * 75 + Seconds t * 75 + Frames t <= MaxInt64 ->
  TotalFrames t = Minutes t * 60 * 75 + Seconds t * 75 + Frames t.
Proof.
  intros H1 H2 H3 H4 H5. unfold TotalFrames, add64, mul64, FramesPerSecond.
  rewrite (wrap64_id (Minutes t * 60)) by assumption.
  rewrite (wrap64_id (Minutes t * 60 * 75)) by assumption.
  rewrite (wrap64_id (Seconds t * 75)) by assumption.
  rewrite (wrap64_id (Minutes t * 60 * 75 + Seconds t * 75)) by assumption.
  apply wrap64_id. assumption.
Qed.

Lemma TotalFrames_nonneg_exact t :
  0 <= Minutes t -> 0 <= Seconds t -> 0 <= Frames t ->
  Minutes t * 60 * 75 + Seconds t * 75 + Frames t <= MaxInt64 ->
  TotalFrames t = Minutes t * 60 * 75 + Seconds t * 75 + Frames t.
Proof.
  intros Hm Hs Hf Hb. unfold MaxInt64 in Hb.
  apply TotalFrames_exact; unfold MinInt64, MaxInt64; lia.
Qed.

(** ** C9: conversion to real time *)

(** C9.  [AsDuration] goes through the integer frame count, multiplies it by
    10^9 and divides by 75 last.  For every timecode with non-negative fields
    whose frame count times 10^9 fits [int64] (which covers 24 hours and much
    more) no step wraps: the result is the exact number of nanoseconds rounded
    down, it lies within one nanosecond of the real value, and the frame
    count can be recovered from it. *)
Theorem AsDuration_exact_nanoseconds (t : Timecode) :
  0 <= Minutes t -> 0 <= Seconds t -> 0 <= Frames t ->
  (Minutes t * 60 * 75 + Seconds t * 75 + Frames t) * 1000000000 <= MaxInt64 ->
  let F := Minutes t * 60 * 75 + Seconds t * 75 + Frames t in
  24 * 3600 * 75 * 1000000000 <= MaxInt64 /\
  TotalFrames t = F /\
  AsDuration t = (F * 1000000000) / 75 /\
  75 * AsDuration t <= F * 1000000000 < 75 * (AsDuration t + 1) /\
  (F mod 3 = 0 -> 75 * AsDuration t = F * 1000000000) /\
  (75 * AsDuration t + 74) / 1000000000 = F.
Proof.
  intros Hm Hs Hf Hb F. unfold MaxInt64 in *.
  assert (HF : TotalFrames t = F).
  { apply TotalFrames_nonneg_exact; unfold MaxInt64; lia. }
  assert (HF0 : 0 <= F) by (unfold F; lia).
  assert (HD : AsDuration t = F * 1000000000 / 75).
  { unfold AsDuration, div64, mul64, FramesPerSecond. rewrite HF.
    rewrite (wrap64_id (F * 1000000000)) by (unfold MinInt64, MaxInt64; lia).
    rewrite Z.quot_div_nonneg by lia.
    apply wrap64_id. unfold MinInt64, MaxInt64.
    pose proof (Z.div_pos (F * 1000000000) 75 ltac:(lia) ltac:(lia)).
    pose proof (Z.div_le_upper_bound (F * 1000000000) 75 (2 ^ 63 - 1)
                  ltac:(lia) ltac:(lia)). lia. }
  pose proof (Z.div_mod (F * 1000000000) 75 ltac:(lia)) as Hdm.
  pose proof (Z.mod_pos_bound (F * 1000000000) 75 ltac:(lia)) as Hmb.
  split; [lia|]. split; [exact HF|]. split; [exact HD|].
  rewrite HD. split; [lia|]. split.
  - intros H3.
    assert (Hz : (F * 1000000000) mod 75 = 0).
    { pose proof (Z.div_mod F 3 ltac:(lia)) as HF3. rewrite H3 in HF3.
      replace (F * 1000000000) with ((F / 3 * 40000000) * 75) by lia.
      apply Z.mod_mul. lia. }
    lia.
  - symmetry. apply Z.div_unique with
      (r := 75 * (F * 1000000000 / 75) + 74 - F * 1000000000); lia.
Qed.

(** ** Decimal text *)

Lemma append_assoc (a b c : string) : ((a ++ b) ++ c = a ++ (b ++ c))%string.
Proof. induction a as [|x a IH]; simpl; [reflexivity|]. rewrite IH. reflexivity. Qed.

Lemma append_nil_r (a : string) : (a ++ "")%string = a.
Proof. induction a as [|x a IH]; simpl; [reflexivity|]. rewrite IH. reflexivity. Qed.

Lemma len_append (a b : string) : len (a ++ b) = len a + len b.
Proof.
  unfold len. induction a as [|x a IH]; simpl String.length; [lia|].
  rewrite !Nat2Z.inj_succ. lia.
Qed.

Lemma len_String c s : len (String c s) = 1 + len s.
Proof. unfold len. simpl String.length. lia. Qed.

Lemma len_nonneg s : 0 <= len s.
Proof. unfold len. lia. Qed.

Lemma byte_chr b : 0 <= b < 256 -> byte (chr b) = b.
Proof.
  intros H. unfold byte, chr.
  rewrite N_ascii_embedding by lia. lia.
Qed.

Lemma chr_byte c : chr (byte c) = c.
Proof.
  unfold byte, chr. rewrite N2Z.id. apply ascii_N_embedding.
Qed.

Lemma byte_range c : 0 <= byte c < 256.
Proof.
  unfold byte. pose proof (N_ascii_bounded c). lia.
Qed.

Lemma allDigits_app a b :
  allDigits (a ++ b) = allDigits a && allDigits b.
Proof.
  induction a as [|c a IH]; simpl; [reflexivity|].
  rewrite IH. apply andb_assoc.
Qed.

Lemma digitsValue_app a b v :
  digitsValue v (a ++ b) = digitsValue (digitsValue v a) b.
Proof.
  revert v. induction a as [|c a IH]; intros v; simpl; [reflexivity|]. apply IH.
Qed.

Lemma digitsValue_ge s v :
  allDigits s = true -> 0 <= v -> v <= digitsValue v s.
Proof.
  revert v. induction s as [|c s IH]; intros v Hd Hv; simpl in *; [lia|].
  apply andb_prop in Hd as [Hc Hs]. unfold isDigit in Hc.
  specialize (IH (v * 10 + (byte c - 48)) Hs). lia.
Qed.

Lemma scanDigits_value s v :
  allDigits s = true -> 0 <= v -> digitsValue v s <= MaxUint64 ->
  scanDigits v s = inr (digitsValue v s).
Proof.
  revert v. induction s as [|c s IH]; intros v Hd Hv Hb; simpl in *; [reflexivity|].
  apply andb_prop in Hd as [Hc Hs]. rewrite Hc. simpl.
  pose proof Hc as Hc'. unfold isDigit in Hc'.
  pose proof (digitsValue_ge s (v * 10 + (byte c - 48)) Hs ltac:(lia)) as Hge.
  unfold MaxUint64 in *.
  destruct (Z.leb_spec ((2 ^ 64 - 1) / 10 + 1) v) as [Hcut|Hcut].
  { change ((2 ^ 64 - 1) / 10 + 1) with 1844674407370955162 in Hcut. lia. }
  destruct (Z.ltb_spec (2 ^ 64 - 1) (v * 10 + (byte c - 48))) as [Hov|Hov]; [lia|].
  apply IH; [assumption|lia|assumption].
Qed.

Lemma Atoi_digit_string s :
  allDigits s = true -> s <> EmptyString -> digitsValue 0 s <= MaxInt64 ->
  Atoi s = inr (digitsValue 0 s).
Proof.
  intros Hd Hne Hb. destruct s as [|c r]; [congruence|].
  unfold Atoi.
  assert (Hc : isDigit (byte c) = true) by (simpl in Hd; apply andb_prop in Hd; tauto).
  unfold isDigit in Hc.
  replace (byte c =? 45) with false by (symmetry; apply Z.eqb_neq; lia).
  replace (byte c =? 43) with false by (symmetry; apply Z.eqb_neq; lia).
  cbv [orb negb andb].
  rewrite scanDigits_value; [|assumption|lia|unfold MaxUint64, MaxInt64 in *; lia].
  unfold MaxInt64 in Hb.
  destruct (Z.leb_spec (2 ^ 63) (digitsValue 0 (String c r))); [lia|reflexivity].
Qed.

Lemma digit_char_ok d :
  0 <= d <= 9 ->
  isDigit (byte (chr (48 + d))) = true /\ byte (chr (48 + d)) - 48 = d.
Proof.
  intros H. rewrite byte_chr by lia. unfold isDigit. lia.
Qed.

Lemma digits_acc_spec fuel n acc :
  (0 < fuel)%nat -> 0 <= n < 10 ^ Z.of_nat fuel ->
  exists ds, digits_acc fuel n acc = (ds ++ acc)%string /\ allDigits ds = true
             /\ ds <> EmptyString /\ (forall v, digitsValue v ds = v * 10 ^ len ds + n)
             /\ (10 <= n -> 2 <= len ds).
Proof.
  revert n acc. induction fuel as [|k IH]; intros n acc Hf Hn; [lia|].
  simpl digits_acc.
  pose proof (Z.mod_pos_bound n 10 ltac:(lia)) as Hm.
  destruct (digit_char_ok (n mod 10) ltac:(lia)) as [Hd1 Hd2].
  destruct (Z.ltb_spec n 10) as [Hlt|Hge].
  - exists (String (chr (48 + n mod 10)) EmptyString).
    rewrite Z.mod_small in * by lia.
    split; [reflexivity|]. split; [simpl; rewrite Hd1; reflexivity|].
    split; [congruence|]. split; [|lia].
    intros v. simpl. rewrite Hd2. change (len (String (chr (48 + n)) "")) with 1. lia.
  - assert (Hk : (0 < k)%nat).
    { destruct k; [simpl in Hn; lia|lia]. }
    assert (Hdiv : 0 <= n / 10 < 10 ^ Z.of_nat k).
    { split; [apply Z.div_pos; lia|].
      apply Z.div_lt_upper_bound; [lia|].
      replace (Z.of_nat (S k)) with (Z.of_nat k + 1) in Hn by lia.
      rewrite Z.pow_add_r in Hn by lia. lia. }
    destruct (IH (n / 10) (String (chr (48 + n mod 10)) acc) Hk Hdiv)
      as (ds & Heq & Hall & Hne & Hval & _).
    exists (ds ++ String (chr (48 + n mod 10)) EmptyString)%string.
    split.
    { rewrite Heq, append_assoc. reflexivity. }
    split.
    { rewrite allDigits_app, Hall. simpl. rewrite Hd1. reflexivity. }
    split.
    { destruct ds; simpl; congruence. }
    assert (Hlen : len (ds ++ String (chr (48 + n mod 10)) EmptyString) = len ds + 1).
    { rewrite len_append, len_String. reflexivity. }
    split.
    { intros v. rewrite digitsValue_app, Hval. simpl. rewrite Hd2, Hlen.
      rewrite Z.pow_add_r by (pose proof (len_nonneg ds); lia).
      pose proof (Z.div_mod n 10 ltac:(lia)). lia. }
    intros _. rewrite Hlen.
    assert (0 < len ds); [|lia].
    destruct ds; [congruence|]. rewrite len_String. pose proof (len_nonneg ds). lia.
Qed.

Lemma digits_spec n :
  0 <= n <= MaxUint64 ->
  allDigits (digits n) = true /\ digits n <> EmptyString
  /\ digitsValue 0 (digits n) = n /\ (10 <= n -> 2 <= len (digits n)).
Proof.
  intros Hn. unfold digits.
  destruct (digits_acc_spec 20 n EmptyString ltac:(lia)) as (ds & Heq & Hall & Hne & Hval & Hl).
  { unfold MaxUint64 in Hn. simpl. lia. }
  rewrite Heq, append_nil_r. repeat split; try assumption. rewrite Hval. lia.
Qed.

Lemma Atoi_digits n : 0 <= n <= MaxInt64 -> Atoi (digits n) = inr n.
Proof.
  intros Hn.
  destruct (digits_spec n) as (Hall & Hne & Hval & _);
    [unfold MaxUint64, MaxInt64 in *; lia|].
  rewrite Atoi_digit_string; [rewrite Hval; reflexivity|assumption|assumption|lia].
Qed.

Lemma Atoi_fmt_d n : 0 <= n <= MaxInt64 -> Atoi (fmt_d n) = inr n.
Proof.
  intros Hn. unfold fmt_d.
  destruct (Z.ltb_spec n 0); [lia|]. apply Atoi_digits; assumption.
Qed.

Lemma Atoi_fmt_02d n : 0 <= n <= MaxInt64 -> Atoi (fmt_02d n) = inr n.
Proof.
  intros Hn. unfold fmt_02d.
  destruct (Z.ltb_spec n 0); [lia|].
  destruct (Z.ltb_spec n 10); [|apply Atoi_digits; assumption].
  destruct (digits_spec n) as (Hall & Hne & Hval & _);
    [unfold MaxUint64, MaxInt64 in *; lia|].
  assert (Hv : digitsValue 0 (String (chr 48) (digits n)) = n).
  { cbn [digitsValue]. rewrite byte_chr by lia.
    change (0 * 10 + (48 - 48)) with 0. assumption. }
  rewrite Atoi_digit_string.
  - rewrite Hv. reflexivity.
  - cbn [allDigits]. rewrite byte_chr by lia. rewrite Hall. reflexivity.
  - congruence.
  - rewrite Hv. lia.
Qed.

(** ** Timecode text *)

Lemma allDigits_noColon s : allDigits s = true -> noColon s = true.
Proof.
  induction s as [|c s IH]; simpl; [reflexivity|].
  intros H. apply andb_prop in H as [Hc Hs]. rewrite (IH Hs).
  unfold isDigit, colonByte in *.
  destruct (Z.eqb_spec (byte c) 58); [lia|reflexivity].
Qed.

Lemma Split_colon_noColon s : noColon s = true -> Split_colon s = [s].
Proof.
  induction s as [|c s IH]; simpl; [reflexivity|].
  intros H. apply andb_prop in H as [Hc Hs].
  destruct (byte c =? colonByte); [discriminate|].
  rewrite (IH Hs). reflexivity.
Qed.

Lemma Split_colon_app a r :
  noColon a = true ->
  Split_colon (a ++ String ":" r) = a :: Split_colon r.
Proof.
  induction a as [|c a IH]; simpl; [reflexivity|].
  intros H. apply andb_prop in H as [Hc Ha].
  destruct (byte c =? colonByte); [discriminate|].
  rewrite (IH Ha). reflexivity.
Qed.

Lemma fmt_02d_allDigits n : 0 <= n <= MaxInt64 -> allDigits (fmt_02d n) = true.
Proof.
  intros Hn. unfold fmt_02d.
  destruct (digits_spec n) as (Hall & _); [unfold MaxUint64, MaxInt64 in *; lia|].
  destruct (Z.ltb_spec n 0); [lia|].
  destruct (Z.ltb_spec n 10); [|assumption].
  cbn [allDigits]. rewrite byte_chr by lia. rewrite Hall. reflexivity.
Qed.

Lemma Split_colon_Timecode_String t :
  0 <= Minutes t <= MaxInt64 -> 0 <= Seconds t <= MaxInt64 ->
  0 <= Frames t <= MaxInt64 ->
  Split_colon (Timecode_String t)
  = [fmt_02d (Minutes t); fmt_02d (Seconds t); fmt_02d (Frames t)].
Proof.
  intros Hm Hs Hf. unfold Timecode_String.
  change (":" ++ fmt_02d (Seconds t) ++ ":" ++ fmt_02d (Frames t))%string
    with (String ":" (fmt_02d (Seconds t) ++ String ":" (fmt_02d (Frames t)))).
  rewrite Split_colon_app by (apply allDigits_noColon, fmt_02d_allDigits; assumption).
  rewrite Split_colon_app by (apply allDigits_noColon, fmt_02d_allDigits; assumption).
  rewrite Split_colon_noColon by (apply allDigits_noColon, fmt_02d_allDigits; assumption).
  reflexivity.
Qed.

(** Reading back a rendered timecode whose fields are in range. *)
Lemma parseTimecode_Timecode_String t :
  0 <= Minutes t <= MaxInt64 -> 0 <= Seconds t <= 59 -> 0 <= Frames t < 75 ->
  parseTimecode (Timecode_String t) = inr t.
Proof.
  intros Hm Hs Hf. unfold parseTimecode.
  rewrite Split_colon_Timecode_String by (unfold MaxInt64 in *; lia).
  rewrite !Atoi_fmt_02d by (unfold MaxInt64 in *; lia).
  destruct (Z.ltb_spec 59 (Seconds t)); [lia|].
  unfold FramesPerSecond.
  destruct (Z.leb_spec 75 (Frames t)); [lia|].
  destruct t; reflexivity.
Qed.

(** Rebuilding a timecode from its frame count. *)
Lemma NewTimecodeFromFrames_TotalFrames t :
  0 <= Minutes t -> 0 <= Seconds t <= 59 -> 0 <= Frames t < 75 ->
  Minutes t * 60 * 75 + Seconds t * 75 + Frames t <= MaxInt64 ->
  NewTimecodeFromFrames (TotalFrames t) = t.
Proof.
  intros Hm Hs Hf Hb.
  rewrite TotalFrames_nonneg_exact by lia.
  unfold NewTimecodeFromFrames, div64, rem64, FramesPerSecond.
  set (F := Minutes t * 60 * 75 + Seconds t * 75 + Frames t).
  assert (HF : 0 <= F) by (unfold F; lia).
  destruct (Z.ltb_spec F 0); [lia|].
  change (60 * 75) with 4500.
  rewrite (Z.quot_div_nonneg F 4500) by lia.
  rewrite (Z.rem_mod_nonneg F 4500) by lia.
  assert (Hq : F / 4500 = Minutes t).
  { symmetry. apply Z.div_unique with (r := Seconds t * 75 + Frames t); unfold F; lia. }
  assert (Hr : F mod 4500 = Seconds t * 75 + Frames t).
  { symmetry. apply Z.mod_unique with (q := Minutes t); unfold F; lia. }
  rewrite Hq, Hr.
  rewrite (Z.quot_div_nonneg (Seconds t * 75 + Frames t) 75) by lia.
  rewrite (Z.rem_mod_nonneg (Seconds t * 75 + Frames t) 75) by lia.
  assert (Hq2 : (Seconds t * 75 + Frames t) / 75 = Seconds t).
  { symmetry. apply Z.div_unique with (r := Frames t); lia. }
  assert (Hr2 : (Seconds t * 75 + Frames t) mod 75 = Frames t).
  { symmetry. apply Z.mod_unique with (q := Seconds t); lia. }
  rewrite Hq2, Hr2.
  unfold MaxInt64 in Hb.
  rewrite !wrap64_id by (unfold MinInt64, MaxInt64; lia).
  destruct t; reflexivity.
Qed.

Lemma parseTimecode_inr_inv s tc :
  parseTimecode s = inr tc ->
  exists p0 p1 p2,
    Split_colon s = [p0; p1; p2] /\ Atoi p0 = inr (Minutes tc)
    /\ Atoi p1 = inr (Seconds tc) /\ Seconds tc <= 59
    /\ Atoi p2 = inr (Frames tc) /\ Frames tc < 75.
Proof.
  unfold parseTimecode. intros H.
  destruct (Split_colon s) as [|p0 [|p1 [|p2 [|? ?]]]]; try discriminate.
  destruct (Atoi p0) as [?|m] eqn:E0; [discriminate|].
  destruct (Atoi p1) as [?|sec] eqn:E1; [discriminate|].
  destruct (Z.ltb_spec 59 sec); [discriminate|].
  destruct (Atoi p2) as [?|f] eqn:E2; [discriminate|].
  unfold FramesPerSecond in H.
  destruct (Z.leb_spec 75 f); [discriminate|].
  injection H as <-. exists p0, p1, p2. cbn [Minutes Seconds Frames].
  split; [reflexivity|]. split; [exact E0|]. split; [exact E1|].
  split; [assumption|]. split; [exact E2|assumption].
Qed.

(** ** C5: text, frame count and back *)

(** C5, as stated, fails: [1:02:03] is accepted, its seconds and frames are
    in range, and the round trip renders [01:02:03]. *)
Lemma roundtrip_unpadded_counterexample :
  exists tc,
    parseTimecode "1:02:03" = inr tc
    /\ 0 <= Seconds tc <= 59 /\ 0 <= Frames tc < 75
    /\ Timecode_String (NewTimecodeFromFrames (TotalFrames tc)) = "01:02:03"
    /\ Timecode_String (NewTimecodeFromFrames (TotalFrames tc)) <> "1:02:03".
Proof.
  exists {| Minutes := 1; Seconds := 2; Frames := 3 |}.
  split; [vm_compute; reflexivity|].
  split; [simpl; lia|]. split; [simpl; lia|].
  split; [vm_compute; reflexivity|].
  vm_compute. discriminate.
Qed.

(** C5, amended.  For every string [s] that [parseTimecode] accepts with
    non-negative fields and a frame count within [int], the timecode rebuilt
    from the total frame count is the parsed timecode itself, so formatting it
    gives the zero-padded rendering of the fields of [s]; that rendering is
    accepted in turn and parses to the same timecode, and it is [s] exactly
    when [s] is written zero-padded. *)
Theorem roundtrip_canonical (s : string) (tc : Timecode) :
  parseTimecode s = inr tc ->
  0 <= Minutes tc -> 0 <= Seconds tc -> 0 <= Frames tc ->
  Minutes tc * 60 * 75 + Seconds tc * 75 + Frames tc <= MaxInt64 ->
  NewTimecodeFromFrames (TotalFrames tc) = tc
  /\ Timecode_String (NewTimecodeFromFrames (TotalFrames tc)) = Timecode_String tc
  /\ parseTimecode (Timecode_String tc) = inr tc
  /\ (Timecode_String (NewTimecodeFromFrames (TotalFrames tc)) = s
      <-> s = Timecode_String tc).
Proof.
  intros Hp Hm Hs Hf Hb.
  destruct (parseTimecode_inr_inv s tc Hp) as (p0 & p1 & p2 & _ & _ & _ & Hs59 & _ & Hf75).
  assert (Hrt : NewTimecodeFromFrames (TotalFrames tc) = tc)
    by (apply NewTimecodeFromFrames_TotalFrames; lia).
  split; [exact Hrt|]. rewrite Hrt. split; [reflexivity|]. split.
  - apply parseTimecode_Timecode_String; lia.
  - split; intros H; congruence.
Qed.

(** ** C6: the fields of a timecode *)

(** C6.  [parseTimecode] fails unless the text splits at colons into exactly
    three fields.  With three fields: a field that [Atoi] rejects is reported
    with its label and its raw text; the minutes are taken as [Atoi] returns
    them, unchecked; the seconds are refused exactly when they exceed 59, the
    frames exactly when they are 75 or more; otherwise the three values make
    the timecode.  Every non-negative [int] is accepted as minutes. *)
Theorem parseTimecode_fields :
  (forall s, length (Split_colon s) <> 3%nat ->
     parseTimecode s = inl (errors_New "timecode must be in MM:SS:FF format"))
  /\ (forall s p0 p1 p2, Split_colon s = [p0; p1; p2] ->
      (forall e, Atoi p0 = inl e ->
         parseTimecode s = inl (errors_New ("invalid minutes value: " ++ p0)))
      /\ (forall m, Atoi p0 = inr m ->
          (forall e, Atoi p1 = inl e ->
             parseTimecode s = inl (errors_New ("invalid seconds value: " ++ p1)))
          /\ (forall sec, Atoi p1 = inr sec ->
              (59 < sec <->
               parseTimecode s
               = inl (errors_New ("seconds value cannot exceed 59: " ++ fmt_d sec)))
              /\ (sec <= 59 ->
                  (forall e, Atoi p2 = inl e ->
                     parseTimecode s = inl (errors_New ("invalid frames value: " ++ p2)))
                  /\ (forall f, Atoi p2 = inr f ->
                      (75 <= f <->
                       parseTimecode s
                       = inl (errors_New ("frames value must be less than 75: "
                                          ++ fmt_d f)))
                      /\ (f < 75 ->
                          parseTimecode s
                          = inr {| Minutes := m; Seconds := sec; Frames := f |}))))))
  /\ (forall m, 0 <= m <= MaxInt64 ->
      parseTimecode (fmt_d m ++ ":00:00")
      = inr {| Minutes := m; Seconds := 0; Frames := 0 |}).
Proof.
  split; [|split].
  - intros s Hl. unfold parseTimecode.
    destruct (Split_colon s) as [|p0 [|p1 [|p2 [|? ?]]]]; try reflexivity.
    simpl in Hl. congruence.
  - intros s p0 p1 p2 Hsp. unfold parseTimecode. rewrite Hsp. split.
    { intros e ->. reflexivity. }
    intros m ->. split.
    { intros e ->. reflexivity. }
    intros sec ->. split.
    { destruct (Z.ltb_spec 59 sec) as [Hlt|Hle].
      - split; [reflexivity|intros _; assumption].
      - split; [lia|]. intros H. exfalso.
        destruct (Atoi p2) as [?|f]; [discriminate|].
        destruct (FramesPerSecond <=? f); discriminate. }
    intros Hle. destruct (Z.ltb_spec 59 sec) as [Hlt|_]; [lia|]. split.
    { intros e ->. reflexivity. }
    intros f ->. unfold FramesPerSecond.
    destruct (Z.leb_spec 75 f) as [Hge|Hlt].
    + split; [|lia]. split; [reflexivity|intros _; assumption].
    + split; [|reflexivity]. split; [lia|discriminate].
  - intros m Hm. unfold parseTimecode.
    assert (Hd : allDigits (fmt_d m) = true).
    { unfold fmt_d. destruct (Z.ltb_spec m 0); [lia|].
      apply digits_spec. unfold MaxUint64, MaxInt64 in *. lia. }
    change (fmt_d m ++ ":00:00")%string with (fmt_d m ++ String ":" "00:00")%string.
    rewrite Split_colon_app by (apply allDigits_noColon; assumption).
    change (Split_colon "00:00") with ["00"; "00"].
    rewrite Atoi_fmt_d by assumption.
    reflexivity.
Qed.

(** ** C2 and C4: the tokenizer *)

Lemma smartSplit_step_errors n st i r :
  (exists st1, smartSplit_step n st i r = inr st1)
  \/ smartSplit_step n st i r = inl (errors_New "mismatched quotes").
Proof.
  unfold smartSplit_step.
  destruct (Z.eqb_spec r quoteRune) as [Hq|Hq].
  - destruct ((i =? n - 1) && _); [right; reflexivity|left; eauto].
  - rewrite andb_false_r.
    destruct ((r =? spaceRune) || (r =? tabRune)).
    + destruct (inQuote st) eqn:Eq.
      * destruct ((i =? n - 1) && _); [right; reflexivity|left; eauto].
      * destruct (0 <? len (current st));
          (destruct ((i =? n - 1) && _); [right; reflexivity|left; eauto]).
    + destruct ((i =? n - 1) && _); [right; reflexivity|left; eauto].
Qed.

Lemma smartSplit_loop_errors n rs : forall st,
  (exists st1, smartSplit_loop n st rs = inr st1)
  \/ smartSplit_loop n st rs = inl (errors_New "mismatched quotes").
Proof.
  induction rs as [|[i r] rs IH]; intros st; simpl.
  - left. eauto.
  - destruct (smartSplit_step_errors n st i r) as [[st1 ->]| ->].
    + apply IH.
    + right. reflexivity.
Qed.

(** The only error the tokenizer can return. *)
Lemma smartSplit_errors line :
  (exists toks, smartSplit line = inr toks)
  \/ smartSplit line = inl (errors_New "mismatched quotes").
Proof.
  unfold smartSplit.
  destruct (smartSplit_loop_errors (len line) (range_string line)
              {| result := []; current := ""; inQuote := false |})
    as [[st1 ->]| ->].
  - left. destruct (0 <? len (current st1)); eauto.
  - right. reflexivity.
Qed.

(** The quote state after one iteration that does not fail. *)
Lemma smartSplit_step_inQuote n st i r st1 :
  smartSplit_step n st i r = inr st1 ->
  inQuote st1 = xorb (r =? quoteRune) (inQuote st).
Proof.
  unfold smartSplit_step.
  destruct (Z.eqb_spec r quoteRune) as [Hq|Hq].
  - destruct ((i =? n - 1) && _); [discriminate|].
    intros [= <-]. simpl. destruct (inQuote st); reflexivity.
  - rewrite andb_false_r.
    destruct ((r =? spaceRune) || (r =? tabRune)).
    + destruct (inQuote st) eqn:Eq.
      * destruct ((i =? n - 1) && _); [discriminate|]. intros [= <-]. simpl. assumption.
      * destruct (0 <? len (current st));
          (destruct ((i =? n - 1) && _); [discriminate|intros [= <-]; simpl;
           try assumption; reflexivity]).
    + destruct ((i =? n - 1) && _); [discriminate|]. intros [= <-]. reflexivity.
Qed.

(** At the last byte offset an iteration fails exactly when it ends inside
    quotes; at any other offset it does not fail. *)
Lemma smartSplit_step_last n st r :
  xorb (r =? quoteRune) (inQuote st) = true ->
  smartSplit_step n st (n - 1) r = inl (errors_New "mismatched quotes").
Proof.
  unfold smartSplit_step. rewrite Z.eqb_refl. intros Hx.
  destruct (Z.eqb_spec r quoteRune) as [Hq|Hq].
  - destruct (inQuote st) eqn:Eq; simpl in *; [discriminate|reflexivity].
  - rewrite andb_false_r. simpl in Hx.
    destruct ((r =? spaceRune) || (r =? tabRune)).
    + rewrite Hx. simpl. rewrite Hx. reflexivity.
    + simpl. rewrite Hx. reflexivity.
Qed.

Lemma smartSplit_step_inner n st i r :
  i <> n - 1 -> exists st1, smartSplit_step n st i r = inr st1.
Proof.
  intros Hi. unfold smartSplit_step.
  destruct (Z.eqb_spec i (n - 1)); [contradiction|]. simpl.
  destruct (Z.eqb_spec r quoteRune) as [Hq|Hq]; [eauto|].
  rewrite andb_false_r.
  destruct ((r =? spaceRune) || (r =? tabRune)); [|eauto].
  destruct (inQuote st); [eauto|].
  destruct (0 <? len (current st)); eauto.
Qed.

(** On an ASCII string every byte is a rune of width one. *)
Lemma range_from_ascii c s fuel i :
  (byte c <? RuneSelf) = true ->
  range_from (S fuel) i (String c s) = (i, byte c) :: range_from fuel (i + 1) s.
Proof.
  intros Hc. cbn [range_from]. unfold DecodeRuneInString. rewrite Hc. reflexivity.
Qed.

Lemma smartSplit_loop_ascii s : forall st i n,
  isASCII s = true -> n = i + len s -> s <> EmptyString ->
  xorb (oddQuotes s) (inQuote st) = true ->
  smartSplit_loop n st (range_from (String.length s) i s)
  = inl (errors_New "mismatched quotes").
Proof.
  induction s as [|c s IH]; intros st i n Ha Hn Hne Hx; [congruence|].
  simpl in Ha. apply andb_prop in Ha as [Hc Ha].
  cbn [String.length]. rewrite range_from_ascii by assumption.
  cbn [smartSplit_loop]. rewrite len_String in Hn.
  destruct s as [|c' s'].
  - assert (Hi : i = n - 1) by (unfold len in Hn; simpl in Hn; lia).
    subst i. rewrite smartSplit_step_last; [reflexivity|].
    simpl in Hx. rewrite xorb_false_r in Hx. assumption.
  - assert (Hi : i <> n - 1).
    { rewrite len_String in Hn. pose proof (len_nonneg s'). lia. }
    destruct (smartSplit_step_inner n st i (byte c) Hi) as [st1 Hst].
    rewrite Hst. apply IH; [assumption|lia|congruence|].
    rewrite (smartSplit_step_inQuote _ _ _ _ _ Hst).
    change (oddQuotes (String c (String c' s')))
      with (xorb (byte c =? quoteRune) (oddQuotes (String c' s'))) in Hx.
    destruct (byte c =? quoteRune), (oddQuotes (String c' s')), (inQuote st);
      simpl in *; congruence.
Qed.

Lemma smartSplit_ascii_odd_quotes line :
  isASCII line = true -> oddQuotes line = true ->
  smartSplit line = inl (errors_New "mismatched quotes").
Proof.
  intros Ha Ho. unfold smartSplit, range_string.
  rewrite (smartSplit_loop_ascii line _ 0 (len line)); try reflexivity; try assumption.
  - intros ->. discriminate.
  - simpl. rewrite Ho. reflexivity.
Qed.

(** C2 (the code departs from it).  The tokenizer has a single way to fail,
    the mismatched-quotes error: the test for a quoted command sits in the
    branch of the switch that a quote never reaches.  A line that starts with
    a quote is tokenized with its quotes removed, and [Parse] obeys it. *)
Theorem quoted_command_is_accepted :
  (forall line,
     (exists toks, smartSplit line = inr toks)
     \/ smartSplit line = inl (errors_New "mismatched quotes"))
  /\ smartSplit (dq ++ "TITLE" ++ dq ++ " x") = inr ["TITLE"; "x"]
  /\ exists h sp,
       Parse [dq ++ "TITLE" ++ dq ++ " x"]%string None = inr (h, sp)
       /\ Cuesheet_Title <$> sheets h !! sp = Some "x".
Proof.
  split; [exact smartSplit_errors|].
  split; [vm_compute; reflexivity|].
  eexists _, _. split; vm_compute; reflexivity.
Qed.

(** C4 (the code departs from it).  The end-of-line test compares the byte
    offset at which the current rune starts with the byte length of the line
    minus one, which only meets at a last rune of one byte.  On an ASCII line
    an odd number of quotes is reported as mismatched; a line whose last
    character takes several bytes is accepted although its quote is open. *)
Theorem open_quote_before_wide_rune_is_accepted :
  (forall line, isASCII line = true -> oddQuotes line = true ->
     smartSplit line = inl (errors_New "mismatched quotes"))
  /\ oddQuotes ("TITLE " ++ dq ++ "Caf" ++ e_acute) = true
  /\ smartSplit ("TITLE " ++ dq ++ "Caf" ++ e_acute) = inr ["TITLE"; "Caf" ++ e_acute]%string
  /\ exists h sp,
       Parse ["TITLE " ++ dq ++ "Caf" ++ e_acute]%string None = inr (h, sp)
       /\ Cuesheet_Title <$> sheets h !! sp = Some ("Caf" ++ e_acute)%string.
Proof.
  split; [exact smartSplit_ascii_odd_quotes|].
  split; [vm_compute; reflexivity|].
  split; [vm_compute; reflexivity|].
  eexists _, _. split; vm_compute; reflexivity.
Qed.

(** ** The line loop: what one command does *)

Lemma dispatch_inversion st command args st' :
  dispatch st command args = inr st' -> dispatch_effect st command args st'.
Proof.
  unfold dispatch.
  destruct (String.eqb_spec command "REM") as [->|N1].
  { destruct args; intros [= <-].
    - apply Eff_skip; [reflexivity|discriminate..].
    - eapply Eff_sheet; [|reflexivity|discriminate..]. reflexivity. }
  destruct (String.eqb_spec command "CATALOG") as [->|N2].
  { destruct args; intros [= <-].
    eapply Eff_sheet; [|reflexivity|discriminate..]. reflexivity. }
  destruct (String.eqb_spec command "CDTEXTFILE") as [->|N3].
  { destruct args; intros [= <-].
    eapply Eff_sheet; [|reflexivity|discriminate..]. reflexivity. }
  destruct (String.eqb_spec command "TITLE") as [->|N4].
  { destruct args; [discriminate|]. destruct (currentTrack st) eqn:Et; intros [= <-].
    - eapply Eff_track; [eassumption| |reflexivity|discriminate..]. reflexivity.
    - eapply Eff_sheet; [|reflexivity|discriminate..]. reflexivity. }
  destruct (String.eqb_spec command "PERFORMER") as [->|N5].
  { destruct args; [discriminate|]. destruct (currentTrack st) eqn:Et; intros [= <-].
    - eapply Eff_track; [eassumption| |reflexivity|discriminate..]. reflexivity.
    - eapply Eff_sheet; [|reflexivity|discriminate..]. reflexivity. }
  destruct (String.eqb_spec command "SONGWRITER") as [->|N6].
  { destruct args; [discriminate|]. destruct (currentTrack st) eqn:Et; intros [= <-].
    - eapply Eff_track; [eassumption| |reflexivity|discriminate..]. reflexivity.
    - eapply Eff_sheet; [|reflexivity|discriminate..]. reflexivity. }
  destruct (String.eqb_spec command "FILE") as [->|N7].
  { destruct args as [|a0 [|a1 more]]; try discriminate. intros [= <-].
    eapply Eff_FILE; reflexivity. }
  destruct (String.eqb_spec command "TRACK") as [->|N8].
  { destruct (currentFile st) as [cf|] eqn:Ef; [|discriminate].
    destruct args as [|a0 [|a1 more]]; try discriminate.
    destruct (Atoi a0) as [?|num] eqn:Ea; [discriminate|]. intros [= <-].
    eapply Eff_TRACK; [reflexivity|eassumption|reflexivity|eassumption|].
    unfold new_track_of. destruct (pendingIndices st); reflexivity. }
  destruct (String.eqb_spec command "INDEX") as [->|N9].
  { destruct args as [|a0 [|a1 more]]; try discriminate.
    destruct (Atoi a0) as [?|num] eqn:Ea; [discriminate|].
    destruct (parseTimecode a1) as [?|tc] eqn:Etc; [discriminate|].
    destruct (currentTrack st) as [t|] eqn:Et.
    - intros [= <-].
      eapply Eff_track; [eassumption| |reflexivity|discriminate..]. reflexivity.
    - destruct (currentFile st) as [cf|] eqn:Ef; [|discriminate]. intros [= <-].
      eapply Eff_pending; [reflexivity|assumption|eassumption| |reflexivity].
      unfold index_of_command. simpl. rewrite Ea, Etc. reflexivity. }
  destruct (String.eqb_spec command "PREGAP") as [->|N10].
  { destruct (currentTrack st) as [t|] eqn:Et; [|discriminate].
    destruct args as [|a0 more]; [discriminate|].
    destruct (parseTimecode a0); [discriminate|]. intros [= <-].
    eapply Eff_track; [eassumption| |reflexivity|discriminate..]. reflexivity. }
  destruct (String.eqb_spec command "POSTGAP") as [->|N11].
  { destruct (currentTrack st) as [t|] eqn:Et; [|discriminate].
    destruct args as [|a0 more]; [discriminate|].
    destruct (parseTimecode a0); [discriminate|]. intros [= <-].
    eapply Eff_track; [eassumption| |reflexivity|discriminate..]. reflexivity. }
  destruct (String.eqb_spec command "FLAGS") as [->|N12].
  { destruct (currentTrack st) as [t|] eqn:Et; [|discriminate]. intros [= <-].
    eapply Eff_track; [eassumption| |reflexivity|discriminate..]. reflexivity. }
  destruct (String.eqb_spec command "ISRC") as [->|N13].
  { destruct (currentTrack st) as [t|] eqn:Et; [|discriminate].
    destruct args as [|a0 more]; [discriminate|]. intros [= <-].
    eapply Eff_track; [eassumption| |reflexivity|discriminate..]. reflexivity. }
  intros [= <-]. apply Eff_skip; [reflexivity|assumption..].
Qed.

Lemma parseLine_command st text command args :
  command_of text = Some (command, args) ->
  parseLine st text = dispatch (next_line st) command args.
Proof.
  unfold command_of, parseLine. fold (next_line st).
  destruct (String.eqb (TrimSpace text) ""); [discriminate|].
  destruct (smartSplit (TrimSpace text)) as [?|[|p0 rest]]; try discriminate.
  intros [= <- <-]. reflexivity.
Qed.

Lemma parseLine_inversion st text st' :
  parseLine st text = inr st' ->
  (command_of text = None /\ st' = next_line st)
  \/ (exists command args,
        command_of text = Some (command, args)
        /\ dispatch (next_line st) command args = inr st').
Proof.
  unfold command_of, parseLine. fold (next_line st).
  destruct (String.eqb (TrimSpace text) ""); [intros [= <-]; left; tauto|].
  destruct (smartSplit (TrimSpace text)) as [?|[|p0 rest]]; [discriminate| |].
  - intros [= <-]. left. tauto.
  - intros H. right. eauto.
Qed.

Lemma parseLines_app st l1 l2 :
  parseLines st (l1 ++ l2)
  = match parseLines st l1 with
    | inl e => inl e
    | inr st1 => parseLines st1 l2
    end.
Proof.
  revert st. induction l1 as [|x l1 IH]; intros st; simpl; [reflexivity|].
  destruct (parseLine st x); [reflexivity|apply IH].
Qed.

(** ** The line loop: what every reachable state satisfies *)

Lemma alter_last {A} (f : A -> A) (l : list A) (x : A) :
  alter f (length l) (l ++ [x]) = l ++ [f x].
Proof.
  induction l as [|y l IH]; simpl; [reflexivity|]. f_equal. exact IH.
Qed.

Lemma list_last_split {A} (l : list A) n :
  length l = S n -> exists l' x, l = l' ++ [x] /\ length l' = n.
Proof.
  intros Hl. destruct l as [|y l] using rev_ind; [discriminate|].
  rewrite length_app in Hl. simpl in Hl. exists l, y. split; [reflexivity|lia].
Qed.

Lemma concat_map_snoc {A B} (g : A -> list B) (l : list A) (x : A) :
  concat (map g (l ++ [x])) = concat (map g l) ++ g x.
Proof.
  rewrite map_app, concat_app. simpl. rewrite app_nil_r. reflexivity.
Qed.

Lemma Inv_initial : Inv initialState.
Proof.
  constructor; simpl; try reflexivity; try tauto.
  exists emptyCuesheet. split; reflexivity.
Qed.

Lemma Inv_next_line st : Inv st -> Inv (next_line st).
Proof. intros [H1 H2 H3 H4 H5]. constructor; assumption. Qed.

Lemma Inv_effect st command args st' :
  Inv st -> dispatch_effect st command args st' -> Inv st'.
Proof.
  intros [H1 (s & H2 & H2') H3 H4 H5] Heff.
  destruct Heff as [-> _ _ _ | g Hg -> _ _ _ | t g Ht _ -> _ _
                   | a0 a1 more _ _ -> | cf a0 a1 more num _ Hcf _ _ ->
                   | cf idx _ Ht Hcf _ ->].
  - constructor; eauto.
  - constructor; simpl; try assumption.
    exists (g s). rewrite H1, H2. simpl. split; [reflexivity|]. rewrite Hg. assumption.
  - constructor; simpl; try assumption.
    + exists s. split; assumption.
    + rewrite length_alter. assumption.
    + rewrite length_alter. assumption.
  - constructor; simpl; try assumption; try exact I.
    + exists (set_Cuesheet_Files (Cuesheet_Files s ++ [length (files (heap st))]) s).
      rewrite H1, H2. simpl. split; [reflexivity|].
      rewrite H2', length_app. simpl.
      rewrite Nat.add_1_r, seq_S. reflexivity.
    + rewrite concat_map_snoc. simpl. rewrite app_nil_r. assumption.
    + rewrite length_app. simpl. lia.
  - rewrite Hcf in H4.
    destruct (list_last_split _ _ (eq_sym H4)) as (fs & f & Hfs & Hlen).
    constructor; simpl; try assumption.
    + exists s. split; [assumption|]. rewrite length_alter. assumption.
    + rewrite Hfs, <- Hlen, alter_last, concat_map_snoc. simpl.
      rewrite Hfs, concat_map_snoc in H3.
      rewrite app_assoc, H3, length_app. simpl.
      rewrite Nat.add_1_r, seq_S. reflexivity.
    + rewrite length_alter. assumption.
    + rewrite length_app. simpl. split; [lia|reflexivity].
  - rewrite Hcf in H4. constructor; simpl; try assumption.
    + exists s. split; assumption.
    + exact I.
Qed.

Lemma Inv_parseLine st text st' :
  Inv st -> parseLine st text = inr st' -> Inv st'.
Proof.
  intros HI Hp.
  destruct (parseLine_inversion _ _ _ Hp) as [[_ ->]|(c & a & _ & Hd)].
  - apply Inv_next_line. assumption.
  - eapply Inv_effect; [apply Inv_next_line; eassumption|].
    apply dispatch_inversion. eassumption.
Qed.

Lemma Inv_parseLines lines : forall st st',
  Inv st -> parseLines st lines = inr st' -> Inv st'.
Proof.
  induction lines as [|x lines IH]; intros st st' HI Hp; simpl in Hp.
  - injection Hp as <-. assumption.
  - destruct (parseLine st x) as [?|st1] eqn:E; [discriminate|].
    eapply IH; [|eassumption]. eapply Inv_parseLine; eassumption.
Qed.

(** ** C7 and C8: the buffer of pending indices *)

Lemma dispatch_FILE st a0 a1 more :
  dispatch st "FILE" (a0 :: a1 :: more)
  = inr {| heap := update_sheet (sheet st)
                     (fun c => set_Cuesheet_Files
                                 (Cuesheet_Files c ++ [length (files (heap st))]) c)
                     (fst (new_file {| File_Name := a0; File_Type := ToUpper a1;
                                       File_Tracks := []; parentSheet := None |}
                                    (heap st)));
           sheet := sheet st; currentFile := Some (length (files (heap st)));
           currentTrack := None; pendingIndices := []; lineNum := lineNum st |}.
Proof. eval_switch. reflexivity. Qed.

Lemma dispatch_TRACK st cf a0 a1 more num :
  currentFile st = Some cf -> Atoi a0 = inr num ->
  dispatch st "TRACK" (a0 :: a1 :: more)
  = inr {| heap := update_file cf
                     (fun f => set_File_Tracks
                                 (File_Tracks f ++ [length (tracks (heap st))]) f)
                     (fst (new_track (new_track_of num (ToUpper a1) (pendingIndices st))
                                     (heap st)));
           sheet := sheet st; currentFile := Some cf;
           currentTrack := Some (length (tracks (heap st)));
           pendingIndices := []; lineNum := lineNum st |}.
Proof.
  intros Hcf Ha. eval_switch. rewrite Hcf, Ha.
  unfold new_track_of. destruct (pendingIndices st); reflexivity.
Qed.

Lemma index_of_command_inv args idx :
  index_of_command "INDEX" args = Some idx ->
  exists a0 a1 more,
    args = a0 :: a1 :: more /\ Atoi a0 = inr (Index_Number idx)
    /\ parseTimecode a1 = inr (Index_Time idx).
Proof.
  unfold index_of_command.
  change (String.eqb "INDEX" "INDEX") with true. cbv iota.
  destruct args as [|a0 [|a1 more]]; try discriminate.
  destruct (Atoi a0) as [?|num] eqn:Ea; [discriminate|].
  destruct (parseTimecode a1) as [?|tc] eqn:Et; [discriminate|].
  intros [= <-]. exists a0, a1, more. simpl. tauto.
Qed.

Lemma dispatch_INDEX_pending st cf args idx :
  index_of_command "INDEX" args = Some idx ->
  currentTrack st = None -> currentFile st = Some cf ->
  dispatch st "INDEX" args
  = inr {| heap := heap st; sheet := sheet st; currentFile := Some cf;
           currentTrack := None; pendingIndices := pendingIndices st ++ [idx];
           lineNum := lineNum st |}.
Proof.
  intros Hi Ht Hf.
  destruct (index_of_command_inv _ _ Hi) as (a0 & a1 & more & -> & Ha & Htc).
  eval_switch. rewrite Ha, Htc, Ht, Hf. destruct idx; reflexivity.
Qed.

Lemma dispatch_INDEX_no_file st args idx :
  index_of_command "INDEX" args = Some idx ->
  currentTrack st = None -> currentFile st = None ->
  dispatch st "INDEX" args
  = inl (line_error (lineNum st) "INDEX command found outside of a FILE context").
Proof.
  intros Hi Ht Hf.
  destruct (index_of_command_inv _ _ Hi) as (a0 & a1 & more & -> & Ha & Htc).
  eval_switch. rewrite Ha, Htc, Ht, Hf. reflexivity.
Qed.

Lemma dispatch_INDEX_no_file_fails st args :
  currentTrack st = None -> currentFile st = None ->
  exists e, dispatch st "INDEX" args = inl e.
Proof.
  intros Ht Hf. eval_switch.
  destruct args as [|a0 [|a1 more]]; [eauto..|].
  destruct (Atoi a0); [eauto|]. destruct (parseTimecode a1); [eauto|].
  rewrite Ht, Hf. eauto.
Qed.

Lemma index_of_command_other command args :
  command <> "INDEX" -> index_of_command command args = None.
Proof.
  intros Hc. unfold index_of_command.
  destruct (String.eqb_spec command "INDEX"); [contradiction|reflexivity].
Qed.

(** A line that opens neither a file nor a track, read with no track in
    scope, leaves files and tracks alone and may only add its own index to
    the buffer. *)
Lemma quiet_step st text st' :
  parseLine st text = inr st' -> quiet text -> currentTrack st = None ->
  files (heap st') = files (heap st) /\ tracks (heap st') = tracks (heap st)
  /\ currentFile st' = currentFile st /\ currentTrack st' = None
  /\ pendingIndices st' = pendingIndices st ++ index_of_line text.
Proof.
  intros Hp Hq Ht. unfold quiet in Hq. unfold index_of_line.
  destruct (parseLine_inversion _ _ _ Hp) as [[Hc ->]|(c & a & Hc & Hd)];
    rewrite Hc in *.
  - simpl. rewrite app_nil_r. tauto.
  - destruct Hq as [HnF HnT].
    destruct (dispatch_inversion _ _ _ _ Hd)
      as [-> _ _ Hi | g Hg -> _ _ Hi | t g Ht' _ -> _ _
         | a0 a1 more Hf _ _ | cf a0 a1 more num Htr _ _ _ _
         | cf idx _ _ Hcf Hidx ->]; simpl.
    + rewrite (index_of_command_other _ _ Hi), app_nil_r. tauto.
    + rewrite (index_of_command_other _ _ Hi), app_nil_r. tauto.
    + simpl in Ht'. congruence.
    + contradiction.
    + contradiction.
    + rewrite Hidx. simpl in Hcf. rewrite Hcf. tauto.
Qed.

Lemma quiet_run lines : forall st st',
  parseLines st lines = inr st' -> Forall quiet lines -> currentTrack st = None ->
  files (heap st') = files (heap st) /\ tracks (heap st') = tracks (heap st)
  /\ currentFile st' = currentFile st /\ currentTrack st' = None
  /\ pendingIndices st' = pendingIndices st ++ indices_of_lines lines.
Proof.
  induction lines as [|x lines IH]; intros st st' Hp Hq Ht; simpl in Hp.
  - injection Hp as <-. unfold indices_of_lines. simpl. rewrite app_nil_r. tauto.
  - destruct (parseLine st x) as [?|st1] eqn:E; [discriminate|].
    inversion Hq as [|? ? Hqx Hql]; subst.
    destruct (quiet_step _ _ _ E Hqx Ht) as (F1 & T1 & C1 & K1 & P1).
    destruct (IH _ _ Hp Hql K1) as (F2 & T2 & C2 & K2 & P2).
    rewrite F2, T2, C2, P2, F1, T1, C1, P1.
    unfold indices_of_lines. simpl. rewrite app_assoc. tauto.
Qed.

Lemma wrap64_add_l a b : wrap64 (wrap64 a + b) = wrap64 (a + b).
Proof.
  unfold wrap64. f_equal.
  replace ((a + 2 ^ 63) mod 2 ^ 64 - 2 ^ 63 + b + 2 ^ 63)
    with ((a + 2 ^ 63) mod 2 ^ 64 + b) by lia.
  rewrite Zplus_mod_idemp_l. f_equal. lia.
Qed.

Lemma lineNum_effect st command args st' :
  dispatch_effect st command args st' -> lineNum st' = lineNum st.
Proof.
  intros [-> _ _ _ | g _ -> _ _ _ | t g _ _ -> _ _ | ? ? ? _ _ -> | ? ? ? ? ? _ _ _ _ ->
         | ? ? _ _ _ _ ->]; reflexivity.
Qed.

Lemma lineNum_parseLine st text st' :
  parseLine st text = inr st' -> lineNum st' = add64 (lineNum st) 1.
Proof.
  intros Hp.
  destruct (parseLine_inversion _ _ _ Hp) as [[_ ->]|(c & a & _ & Hd)]; [reflexivity|].
  rewrite (lineNum_effect _ _ _ _ (dispatch_inversion _ _ _ _ Hd)). reflexivity.
Qed.

Lemma lineNum_parseLines_from lines : forall st st' k,
  parseLines st lines = inr st' -> lineNum st = wrap64 k ->
  lineNum st' = wrap64 (k + Z.of_nat (length lines)).
Proof.
  induction lines as [|x lines IH]; intros st st' k Hp Hk; simpl in Hp.
  - injection Hp as <-. rewrite Hk. f_equal. simpl. lia.
  - destruct (parseLine st x) as [?|st1] eqn:E; [discriminate|].
    rewrite (IH _ _ (k + 1) Hp).
    + f_equal. simpl length. lia.
    + rewrite (lineNum_parseLine _ _ _ E), Hk. unfold add64. apply wrap64_add_l.
Qed.

(** The line counter after a run of lines from the start. *)
Lemma lineNum_parseLines lines st :
  parseLines initialState lines = inr st ->
  lineNum st = wrap64 (Z.of_nat (length lines)).
Proof.
  intros Hp. apply (lineNum_parseLines_from lines initialState st 0 Hp). reflexivity.
Qed.

(** C7.  In every parse, after any lines read without error:
    - with no file in scope, an [INDEX] command makes [Parse] fail, and with
      well-formed arguments the error is the missing-context error of its
      line;
    - with a file but no track in scope, such a command only appends its
      index to the buffer;
    - and the next [TRACK] command, whatever lines that open no file come
      before it, creates a track whose indices are the whole buffer in order
      (what was pending, then the indices buffered on the way), appends the
      track to the current file and leaves the buffer empty. *)
Theorem pending_indices_reach_next_track (prefix : list string) (st : ParseState) :
  parseLines initialState prefix = inr st ->
  (currentFile st = None ->
   forall text args rest readErr,
     command_of text = Some ("INDEX", args) ->
     exists e,
       Parse (prefix ++ text :: rest) readErr = inl e
       /\ forall idx, index_of_command "INDEX" args = Some idx ->
            e = line_error (add64 (Z.of_nat (length prefix)) 1)
                           "INDEX command found outside of a FILE context")
  /\ (forall cf, currentFile st = Some cf -> currentTrack st = None ->
      (forall text args idx,
         command_of text = Some ("INDEX", args) ->
         index_of_command "INDEX" args = Some idx ->
         exists st1, parseLine st text = inr st1
                     /\ pendingIndices st1 = pendingIndices st ++ [idx]
                     /\ heap st1 = heap st
                     /\ currentFile st1 = Some cf /\ currentTrack st1 = None)
      /\ (forall between st1 text a0 a1 more num,
            Forall quiet between -> parseLines st between = inr st1 ->
            command_of text = Some ("TRACK", a0 :: a1 :: more) ->
            Atoi a0 = inr num ->
            exists st2 t,
              parseLines st (between ++ [text]) = inr st2
              /\ pendingIndices st2 = []
              /\ currentTrack st2 = Some t
              /\ t = length (tracks (heap st))
              /\ tracks (heap st2) !! t
                 = Some (new_track_of num (ToUpper a1)
                           (pendingIndices st ++ indices_of_lines between))
              /\ File_Tracks <$> files (heap st2) !! cf
                 = (fun f => File_Tracks f ++ [t]) <$> files (heap st) !! cf)).
Proof.
  intros Hst. pose proof (Inv_parseLines _ _ _ Inv_initial Hst) as HI.
  split.
  - intros Hf text args rest readErr Hc.
    assert (Ht : currentTrack st = None).
    { destruct HI as [_ _ _ H4 _]. rewrite Hf in H4. tauto. }
    destruct (dispatch_INDEX_no_file_fails (next_line st) args Ht Hf) as [e He].
    exists e. split.
    + unfold Parse. rewrite parseLines_app, Hst. cbn [parseLines].
      rewrite (parseLine_command _ _ _ _ Hc), He. reflexivity.
    + intros idx Hi.
      rewrite (dispatch_INDEX_no_file (next_line st) _ _ Hi Ht Hf) in He.
      injection He as <-. simpl. rewrite (lineNum_parseLines _ _ Hst).
      unfold add64. rewrite wrap64_add_l. reflexivity.
  - intros cf Hf Ht. split.
    + intros text args idx Hc Hi.
      rewrite (parseLine_command _ _ _ _ Hc).
      rewrite (dispatch_INDEX_pending _ cf _ _ Hi); [|assumption..].
      eexists. split; [reflexivity|]. simpl. tauto.
    + intros between st1 text a0 a1 more num Hq Hb Hc Ha.
      destruct (quiet_run _ _ _ Hb Hq Ht) as (F1 & T1 & C1 & K1 & P1).
      rewrite parseLines_app, Hb. cbn [parseLines].
      rewrite (parseLine_command _ _ _ _ Hc).
      rewrite (dispatch_TRACK _ cf _ _ _ num); [|simpl; congruence|assumption].
      eexists _, _. split; [reflexivity|]. simpl.
      rewrite T1, F1, P1.
      split; [reflexivity|]. split; [reflexivity|]. split; [reflexivity|].
      split.
      * rewrite lookup_app_r by lia. rewrite Nat.sub_diag. reflexivity.
      * rewrite list_lookup_alter.
        destruct (decide (cf = cf)); [|congruence].
        destruct (files (heap st) !! cf); reflexivity.
Qed.

(** C8.  A [FILE] command, in any state, leaves no track in scope and an
    empty buffer, whatever was pending before it; the first track declared
    after it receives exactly the indices of the [INDEX] commands read since
    that [FILE] line, and none from before.  In every reachable state with a
    track in scope the buffer is empty, so later tracks of the file receive
    nothing from it. *)
Theorem file_discards_pending_indices :
  (forall st text a0 a1 more,
     command_of text = Some ("FILE", a0 :: a1 :: more) ->
     exists st1,
       parseLine st text = inr st1
       /\ pendingIndices st1 = [] /\ currentTrack st1 = None
       /\ currentFile st1 = Some (length (files (heap st)))
       /\ forall between st2 text' b0 b1 more' num,
            Forall quiet between -> parseLines st1 between = inr st2 ->
            command_of text' = Some ("TRACK", b0 :: b1 :: more') ->
            Atoi b0 = inr num ->
            exists st3,
              parseLine st2 text' = inr st3
              /\ currentTrack st3 = Some (length (tracks (heap st)))
              /\ tracks (heap st3) !! length (tracks (heap st))
                 = Some (new_track_of num (ToUpper b1) (indices_of_lines between)))
  /\ (forall lines st,
        parseLines initialState lines = inr st ->
        currentTrack st <> None -> pendingIndices st = []).
Proof.
  split.
  - intros st text a0 a1 more Hc.
    rewrite (parseLine_command _ _ _ _ Hc), dispatch_FILE.
    eexists. split; [reflexivity|]. simpl.
    split; [reflexivity|]. split; [reflexivity|]. split; [reflexivity|].
    intros between st2 text' b0 b1 more' num Hq Hb Hc' Ha.
    destruct (quiet_run _ _ _ Hb Hq eq_refl) as (F1 & T1 & C1 & K1 & P1).
    simpl in *.
    rewrite (parseLine_command _ _ _ _ Hc').
    rewrite (dispatch_TRACK _ (length (files (heap st))) _ _ _ num);
      [|simpl; assumption|assumption].
    eexists. split; [reflexivity|]. simpl. rewrite T1, P1.
    split; [reflexivity|].
    rewrite lookup_app_r by lia. rewrite Nat.sub_diag. reflexivity.
  - intros lines st Hst Ht.
    destruct (Inv_parseLines _ _ _ Inv_initial Hst) as [_ _ _ _ H5].
    destruct (currentTrack st); [tauto|congruence].
Qed.

(** ** C3: which arguments are case-normalized *)

Lemma lookup_update_sheet st g s :
  sheet st = 0%nat -> sheets (heap st) = [s] ->
  sheets (update_sheet (sheet st) g (heap st)) !! sheet st = Some (g s).
Proof. intros -> H. simpl. rewrite H. reflexivity. Qed.

Lemma lookup_update_track h t g :
  (t < length (tracks h))%nat ->
  exists tr, tracks h !! t = Some tr
             /\ tracks (update_track t g h) !! t = Some (g tr).
Proof.
  intros Hlt. destruct (lookup_lt_is_Some_2 _ _ Hlt) as [tr Htr].
  exists tr. split; [assumption|]. simpl. rewrite list_lookup_alter.
  destruct (decide (t = t)); [|congruence]. rewrite Htr. reflexivity.
Qed.

Lemma command_of_tokens text p0 args :
  TrimSpace text <> "" -> smartSplit (TrimSpace text) = inr (p0 :: args) ->
  command_of text = Some (ToUpper p0, args).
Proof.
  intros Hne Hs. unfold command_of. rewrite Hs.
  destruct (String.eqb_spec (TrimSpace text) ""); [contradiction|reflexivity].
Qed.

(** C3, amended.  After any lines read without error, a line whose first
    token uppercases to a command word is obeyed as that command, and:
    [FILE] stores its first argument as the name unchanged and its second
    argument uppercased as the type; [TRACK] stores its second argument
    uppercased as the type; [TITLE], [PERFORMER] and [SONGWRITER] store their
    first argument unchanged, in the track in scope or else in the sheet;
    [CATALOG], [CDTEXTFILE] and [ISRC] store their first argument unchanged;
    [FLAGS] appends its arguments unchanged; [REM] appends its arguments
    joined by single spaces. *)
Theorem only_command_and_types_uppercased (prefix : list string) (st : ParseState)
    (text p0 : string) (args : list string) :
  parseLines initialState prefix = inr st ->
  TrimSpace text <> "" -> smartSplit (TrimSpace text) = inr (p0 :: args) ->
  parseLine st text = dispatch (next_line st) (ToUpper p0) args
  /\ (ToUpper p0 = "FILE" -> forall a0 a1 more, args = a0 :: a1 :: more ->
      leaves st text (fun st' =>
        currentFile st' = Some (length (files (heap st)))
        /\ files (heap st') !! length (files (heap st))
           = Some {| File_Name := a0; File_Type := ToUpper a1; File_Tracks := [];
                     parentSheet := None |}))
  /\ (ToUpper p0 = "TRACK" -> forall cf a0 a1 more num,
      currentFile st = Some cf -> args = a0 :: a1 :: more -> Atoi a0 = inr num ->
      leaves st text (fun st' =>
        currentTrack st' = Some (length (tracks (heap st)))
        /\ tracks (heap st') !! length (tracks (heap st))
           = Some (new_track_of num (ToUpper a1) (pendingIndices st))))
  /\ (forall a0 more, args = a0 :: more ->
      (ToUpper p0 = "CATALOG" ->
       leaves st text (fun st' => field_of_sheet Cuesheet_Catalog st' = Some a0))
      /\ (ToUpper p0 = "CDTEXTFILE" ->
          leaves st text (fun st' => field_of_sheet Cuesheet_CDTextFile st' = Some a0))
      /\ (currentTrack st = None ->
          (ToUpper p0 = "TITLE" ->
           leaves st text (fun st' => field_of_sheet Cuesheet_Title st' = Some a0))
          /\ (ToUpper p0 = "PERFORMER" ->
              leaves st text (fun st' => field_of_sheet Cuesheet_Performer st' = Some a0))
          /\ (ToUpper p0 = "SONGWRITER" ->
              leaves st text (fun st' => field_of_sheet Cuesheet_Songwriter st' = Some a0)))
      /\ (forall t, currentTrack st = Some t ->
          (ToUpper p0 = "TITLE" ->
           leaves st text (fun st' => field_of_track Track_Title st' t = Some a0))
          /\ (ToUpper p0 = "PERFORMER" ->
              leaves st text (fun st' => field_of_track Track_Performer st' t = Some a0))
          /\ (ToUpper p0 = "SONGWRITER" ->
              leaves st text (fun st' => field_of_track Track_Songwriter st' t = Some a0))
          /\ (ToUpper p0 = "ISRC" ->
              leaves st text (fun st' => field_of_track Track_ISRC st' t = Some a0))))
  /\ (ToUpper p0 = "FLAGS" -> forall t, currentTrack st = Some t ->
      exists tr, tracks (heap st) !! t = Some tr
        /\ leaves st text (fun st' =>
             Track_Flags <$> tracks (heap st') !! t = Some (Track_Flags tr ++ args)))
  /\ (ToUpper p0 = "REM" -> args <> [] ->
      exists s, sheets (heap st) !! sheet st = Some s
        /\ leaves st text (fun st' =>
             Cuesheet_Rem <$> sheets (heap st') !! sheet st'
             = Some (Cuesheet_Rem s ++ [Join args " "]))).
Proof.
  intros Hst Hne Hsplit.
  pose proof (command_of_tokens _ _ _ Hne Hsplit) as Hc.
  pose proof (Inv_next_line _ (Inv_parseLines _ _ _ Inv_initial Hst)) as HI.
  destruct HI as [H1 (s & H2 & _) _ _ H5].
  pose proof (lookup_update_sheet (next_line st)) as Hsheet.
  unfold leaves. rewrite (parseLine_command _ _ _ _ Hc).
  split; [reflexivity|].
  split.
  { intros -> a0 a1 more ->. rewrite dispatch_FILE. eexists. split; [reflexivity|].
    simpl. split; [reflexivity|].
    rewrite lookup_app_r by lia. rewrite Nat.sub_diag. reflexivity. }
  split.
  { intros -> cf a0 a1 more num Hcf -> Ha.
    rewrite (dispatch_TRACK _ cf _ _ _ num); [|assumption..].
    eexists. split; [reflexivity|]. simpl. split; [reflexivity|].
    rewrite lookup_app_r by lia. rewrite Nat.sub_diag. reflexivity. }
  split.
  { intros a0 more ->. split; [|split; [|split]].
    - intros ->. eval_switch. eexists. split; [reflexivity|].
      unfold field_of_sheet. simpl heap. simpl sheet.
      rewrite (Hsheet _ s H1 H2). reflexivity.
    - intros ->. eval_switch. eexists. split; [reflexivity|].
      unfold field_of_sheet. simpl heap. simpl sheet.
      rewrite (Hsheet _ s H1 H2). reflexivity.
    - intros Ht. split; [|split]; intros ->; eval_switch;
        change (currentTrack (next_line st)) with (currentTrack st); rewrite Ht;
        (eexists; split; [reflexivity|]);
        unfold field_of_sheet; simpl heap; simpl sheet;
        rewrite (Hsheet _ s H1 H2); reflexivity.
    - intros t Ht. simpl in H5. rewrite Ht in H5. destruct H5 as [Hlt _].
      split; [|split; [|split]]; intros ->; eval_switch;
        change (currentTrack (next_line st)) with (currentTrack st); rewrite Ht;
        (eexists; split; [reflexivity|]);
        unfold field_of_track; simpl heap;
        match goal with
        | |- context [update_track t ?g _] =>
          destruct (lookup_update_track (heap st) t g Hlt) as (tr & _ & ->)
        end; reflexivity. }
  split.
  { intros -> t Ht. simpl in H5. rewrite Ht in H5. destruct H5 as [Hlt _].
    eval_switch. change (currentTrack (next_line st)) with (currentTrack st). rewrite Ht.
    match goal with
    | |- context [update_track t ?g _] =>
      destruct (lookup_update_track (heap st) t g Hlt) as (tr & Htr & Hup)
    end.
    exists tr. split; [assumption|]. eexists. split; [reflexivity|].
    simpl heap. rewrite Hup. reflexivity. }
  intros -> Hargs. exists s. split.
  { simpl in H1, H2. rewrite H1, H2. reflexivity. }
  eval_switch. destruct args as [|a0 more]; [congruence|].
  eexists. split; [reflexivity|]. simpl heap. simpl sheet.
  rewrite (Hsheet _ s H1 H2). reflexivity.
Qed.

(** ** The final pass: back-references *)

Lemma set_parentFile_twice v t :
  set_parentFile v (set_parentFile v t) = set_parentFile v t.
Proof. reflexivity. Qed.

Lemma wire_tracks_sheets f ts : forall h,
  sheets (wire_tracks f ts h) = sheets h /\ files (wire_tracks f ts h) = files h.
Proof.
  unfold wire_tracks. induction ts as [|t ts IH]; intros h; simpl; [tauto|].
  destruct (IH (update_track t (set_parentFile (Some f)) h)) as [-> ->]. tauto.
Qed.

(** The inner loop sets the back-reference of the tracks listed and leaves
    the other tracks alone. *)
Lemma wire_tracks_lookup f ts : forall h p,
  tracks (wire_tracks f ts h) !! p
  = (if decide (p ∈ ts) then set_parentFile (Some f) <$> tracks h !! p
     else tracks h !! p).
Proof.
  unfold wire_tracks. induction ts as [|t ts IH]; intros h p; simpl.
  - destruct (decide (p ∈ [])) as [Hin|_]; [inversion Hin|reflexivity].
  - rewrite IH. simpl. rewrite list_lookup_alter.
    destruct (decide (t = p)) as [->|Hne].
    + destruct (decide (p ∈ p :: ts)) as [_|Hn]; [|exfalso; apply Hn; left].
      destruct (decide (p ∈ ts)); destruct (tracks h !! p); reflexivity.
    + destruct (decide (p ∈ ts)) as [Hin|Hnin];
        destruct (decide (p ∈ t :: ts)) as [Hin'|Hnin']; try reflexivity; exfalso.
      * apply Hnin'. right. assumption.
      * apply elem_of_cons in Hin' as [->|?]; [congruence|contradiction].
Qed.

Lemma wire_file_sheets sp h f : sheets (wire_file sp h f) = sheets h.
Proof.
  unfold wire_file. destruct (files _ !! f); [|reflexivity].
  rewrite (proj1 (wire_tracks_sheets _ _ _)). reflexivity.
Qed.

Lemma wire_file_files sp h f :
  files (wire_file sp h f) = alter (set_parentSheet (Some sp)) f (files h).
Proof.
  unfold wire_file. destruct (files _ !! f); [|reflexivity].
  rewrite (proj2 (wire_tracks_sheets _ _ _)). reflexivity.
Qed.

Lemma wire_file_tracks_of sp h f q :
  tracks_of (wire_file sp h f) q = tracks_of h q.
Proof.
  unfold tracks_of. rewrite wire_file_files, list_lookup_alter.
  destruct (decide (f = q)) as [->|]; [|reflexivity].
  destruct (files h !! q); reflexivity.
Qed.

Lemma wire_file_lookup sp h f p :
  tracks (wire_file sp h f) !! p
  = (if decide (p ∈ tracks_of h f) then set_parentFile (Some f) <$> tracks h !! p
     else tracks h !! p).
Proof.
  unfold wire_file, tracks_of. simpl. rewrite list_lookup_alter.
  destruct (decide (f = f)); [|congruence].
  destruct (files h !! f) as [file|]; simpl.
  - rewrite wire_tracks_lookup. reflexivity.
  - destruct (decide (p ∈ [])) as [Hin|_]; [inversion Hin|reflexivity].
Qed.

Lemma wire_tracks_length f ts : forall h,
  length (tracks (wire_tracks f ts h)) = length (tracks h).
Proof.
  unfold wire_tracks. induction ts as [|t ts IH]; intros h; simpl; [reflexivity|].
  rewrite IH. simpl. apply length_alter.
Qed.

Lemma wire_file_length sp h f :
  length (tracks (wire_file sp h f)) = length (tracks h).
Proof.
  unfold wire_file. destruct (files _ !! f); [|reflexivity].
  rewrite wire_tracks_length. reflexivity.
Qed.

Lemma wire_fold_length sp fs : forall h,
  length (tracks (fold_left (wire_file sp) fs h)) = length (tracks h).
Proof.
  induction fs as [|f fs IH]; intros h; simpl; [reflexivity|].
  rewrite IH. apply wire_file_length.
Qed.

Lemma wire_fold_sheets sp fs : forall h,
  sheets (fold_left (wire_file sp) fs h) = sheets h.
Proof.
  induction fs as [|f fs IH]; intros h; simpl; [reflexivity|].
  rewrite IH. apply wire_file_sheets.
Qed.

Lemma wire_fold_tracks_of sp fs : forall h q,
  tracks_of (fold_left (wire_file sp) fs h) q = tracks_of h q.
Proof.
  induction fs as [|f fs IH]; intros h q; simpl; [reflexivity|].
  rewrite IH. apply wire_file_tracks_of.
Qed.

Lemma wire_fold_files sp fs : forall h q,
  q ∈ fs ->
  files (fold_left (wire_file sp) fs h) !! q
  = set_parentSheet (Some sp) <$> files h !! q.
Proof.
  induction fs as [|f fs IH]; intros h q Hin; simpl; [inversion Hin|].
  destruct (decide (q ∈ fs)) as [Hq|Hq].
  - rewrite IH by assumption. rewrite wire_file_files, list_lookup_alter.
    destruct (decide (f = q)) as [->|]; [|reflexivity].
    destruct (files h !! q); reflexivity.
  - apply elem_of_cons in Hin as [->|?]; [|contradiction].
    assert (Hkeep : forall fs' h', f ∉ fs' ->
              files (fold_left (wire_file sp) fs' h') !! f = files h' !! f).
    { clear. induction fs' as [|g fs' IH']; intros h' Hn; simpl; [reflexivity|].
      rewrite IH' by (intros ?; apply Hn; right; assumption).
      rewrite wire_file_files, list_lookup_alter.
      destruct (decide (g = f)) as [->|]; [|reflexivity].
      exfalso. apply Hn. left. }
    rewrite Hkeep by assumption.
    rewrite wire_file_files, list_lookup_alter.
    destruct (decide (f = f)); [reflexivity|congruence].
Qed.

(** A track listed by exactly one of the files visited ends with that file
    as its back-reference. *)
Lemma wire_fold_lookup sp fs : forall h f p,
  f ∈ fs -> p ∈ tracks_of h f ->
  (forall g, g ∈ fs -> g <> f -> p ∉ tracks_of h g) ->
  tracks (fold_left (wire_file sp) fs h) !! p
  = set_parentFile (Some f) <$> tracks h !! p.
Proof.
  induction fs as [|a fs IH]; intros h f p Hin Hp Hothers; simpl; [inversion Hin|].
  assert (Hkeep : forall fs' h', (forall g, g ∈ fs' -> p ∉ tracks_of h' g) ->
            tracks (fold_left (wire_file sp) fs' h') !! p = tracks h' !! p).
  { clear. induction fs' as [|g fs' IH']; intros h' Hn; simpl; [reflexivity|].
    rewrite IH'.
    - rewrite wire_file_lookup.
      destruct (decide (p ∈ tracks_of h' g)) as [Hc|]; [|reflexivity].
      exfalso. apply (Hn g); [left|assumption].
    - intros g' Hg'. rewrite wire_file_tracks_of. apply Hn. right. assumption. }
  destruct (decide (f ∈ fs)) as [Hf|Hf].
  - rewrite (IH _ f p Hf).
    + rewrite wire_file_lookup.
      destruct (decide (p ∈ tracks_of h a)) as [Ha|Ha]; [|reflexivity].
      destruct (decide (a = f)) as [->|Hne].
      * destruct (tracks h !! p); reflexivity.
      * exfalso. apply (Hothers a); [left|assumption|assumption].
    + rewrite wire_file_tracks_of. assumption.
    + intros g Hg Hne. rewrite wire_file_tracks_of. apply Hothers; [right|]; assumption.
  - apply elem_of_cons in Hin as [->|?]; [|contradiction].
    rewrite Hkeep.
    + rewrite wire_file_lookup.
      destruct (decide (p ∈ tracks_of h a)); [reflexivity|contradiction].
    + intros g Hg. rewrite wire_file_tracks_of.
      apply Hothers; [right; assumption|]. intros ->. contradiction.
Qed.

(** ** C1: the duration of a track of a parsed sheet *)

Lemma getTrackDuration_among h f n :
  getTrackDuration h f n
  = (file ← files h !! f;
     allTracks ← match parentSheet file with
                  | Some sp => sheet ← sheets h !! sp;
                               collectTracks h (Cuesheet_Files sheet)
                  | None => Some (File_Tracks file)
                  end;
     duration_among h allTracks n).
Proof. reflexivity. Qed.

Lemma AsDuration_bound t : - 2 ^ 57 <= AsDuration t <= 2 ^ 57.
Proof.
  unfold AsDuration, div64, mul64, FramesPerSecond.
  pose proof (wrap64_range (TotalFrames t * 1000000000)) as Hw.
  generalize dependent (wrap64 (TotalFrames t * 1000000000)). intros w Hw.
  unfold MinInt64, MaxInt64 in Hw.
  pose proof (Z.quot_rem' w 75) as Hqr.
  pose proof (Z.rem_bound_abs w 75 ltac:(lia)) as Hr.
  generalize dependent (Z.rem w 75). generalize (Z.quot w 75). intros q r Hqr Hr.
  change (2 ^ 63) with 9223372036854775808 in Hw.
  change (2 ^ 57) with 144115188075855872.
  assert (Hq : - 144115188075855872 <= q <= 144115188075855872) by lia.
  rewrite wrap64_id; [exact Hq|].
  unfold MinInt64, MaxInt64. change (2 ^ 63) with 9223372036854775808. lia.
Qed.

Lemma duration_tail t t' :
  (if AsDuration (StartTime t') <? AsDuration (StartTime t) then 0
   else sub64 (AsDuration (StartTime t')) (AsDuration (StartTime t)))
  = duration_between t t'.
Proof.
  unfold duration_between, sub64.
  pose proof (AsDuration_bound (StartTime t)).
  pose proof (AsDuration_bound (StartTime t')).
  rewrite wrap64_id by (unfold MinInt64, MaxInt64; lia).
  destruct (Z.ltb_spec (AsDuration (StartTime t')) (AsDuration (StartTime t)));
    destruct (Z.ltb_spec (AsDuration (StartTime t') - AsDuration (StartTime t)) 0);
    lia.
Qed.

Lemma duration_among_listed h n ps l :
  Forall2 (listed h) ps l ->
  duration_among h ps n = Some (duration_of n l).
Proof.
  unfold duration_among.
  induction 1 as [|p [f t] ps l [Hp Hf] Hrest IH]; [reflexivity|].
  simpl in Hp, Hf. cbn [scanTracks duration_of]. rewrite Hp. cbn [mbind option_bind].
  destruct (Track_Number t =? n); [|exact IH].
  destruct Hrest as [|p' [f' t'] ps' l' [Hp' Hf'] _]; [reflexivity|].
  simpl in Hp', Hf'. rewrite Hp'. cbn [mbind option_bind].
  destruct (Track_Number t' =? add64 n 1); [|reflexivity].
  cbn [mbind option_bind andb]. rewrite Hp, Hp'. cbn [mbind option_bind].
  rewrite Hf, Hf'. cbn [ptr_eqb].
  destruct (Nat.eqb f f'); cbn [negb]; [|reflexivity].
  rewrite <- duration_tail. destruct (_ <? _); reflexivity.
Qed.

Lemma listed_tracks_of h f ps :
  (forall p, p ∈ ps -> exists t, tracks h !! p = Some t /\ parentFile t = Some f) ->
  Forall2 (listed h) ps
    (flat_map (fun p => match tracks h !! p with
                        | Some t => [(f, t)]
                        | None => []
                        end) ps).
Proof.
  induction ps as [|p ps IH]; intros Hall; simpl; [constructor|].
  destruct (Hall p ltac:(left)) as (t & Ht & Hf). rewrite Ht. simpl.
  constructor.
  - split; assumption.
  - apply IH. intros q Hq. apply Hall. right. assumption.
Qed.

Lemma collectTracks_listed h fs :
  (forall f, f ∈ fs ->
     is_Some (files h !! f)
     /\ forall p, p ∈ tracks_of h f ->
          exists t, tracks h !! p = Some t /\ parentFile t = Some f) ->
  exists ps, collectTracks h fs = Some ps
             /\ Forall2 (listed h) ps
                  (flat_map (fun f =>
                     flat_map (fun p => match tracks h !! p with
                                        | Some t => [(f, t)]
                                        | None => []
                                        end) (tracks_of h f)) fs).
Proof.
  induction fs as [|f fs IH]; intros Hall; simpl.
  - exists []. split; [reflexivity|constructor].
  - destruct (Hall f ltac:(left)) as [[file Hfile] Htr].
    destruct IH as (ps & Hps & Hl).
    { intros g Hg. apply Hall. right. assumption. }
    rewrite Hfile, Hps. cbn [mbind option_bind].
    eexists. split; [reflexivity|].
    apply Forall2_app; [|assumption].
    unfold tracks_of in Htr |- *. rewrite Hfile in Htr |- *.
    apply listed_tracks_of. assumption.
Qed.

Lemma elem_of_concat_lookup {A} (ls : list (list A)) i l x :
  ls !! i = Some l -> x ∈ l -> x ∈ concat ls.
Proof.
  revert i. induction ls as [|l0 ls IH]; intros i Hi Hx; [discriminate|].
  simpl. apply elem_of_app. destruct i as [|i]; simpl in Hi.
  - injection Hi as ->. left. assumption.
  - right. eapply IH; eassumption.
Qed.

Lemma elem_of_concat_inv {A} (ls : list (list A)) x :
  x ∈ concat ls -> exists i l, ls !! i = Some l /\ x ∈ l.
Proof.
  induction ls as [|l0 ls IH]; simpl; intros Hx; [inversion Hx|].
  apply elem_of_app in Hx as [Hx|Hx].
  - exists 0%nat, l0. split; [reflexivity|assumption].
  - destruct (IH Hx) as (i & l & Hi & Hl). exists (S i), l. split; assumption.
Qed.

Lemma NoDup_concat_disjoint {A} (ls : list (list A)) a b la lb x :
  NoDup (concat ls) -> ls !! a = Some la -> ls !! b = Some lb -> a <> b ->
  x ∈ la -> x ∉ lb.
Proof.
  revert a b. induction ls as [|l0 ls IH]; intros a b Hnd Ha Hb Hne Hx; [discriminate|].
  simpl in Hnd. apply NoDup_app in Hnd as (_ & Hdis & Hnd').
  destruct a as [|a], b as [|b]; simpl in Ha, Hb; try congruence.
  - injection Ha as ->. intros Hlb. apply (Hdis x Hx).
    eapply elem_of_concat_lookup; eassumption.
  - injection Hb as ->. intros Hl0. apply (Hdis x Hl0).
    eapply elem_of_concat_lookup; eassumption.
  - eapply IH; try eassumption. congruence.
Qed.

Lemma tracks_of_lookup h f :
  tracks_of h f = default [] (map File_Tracks (files h) !! f).
Proof.
  unfold tracks_of. rewrite list_lookup_fmap. destruct (files h !! f); reflexivity.
Qed.

(** The heap a successful parse returns: one sheet, whose files all point
    back to it, and whose tracks each point back to the one file that lists
    them; every track of the heap is listed by a file of the sheet. *)
Lemma Parse_heap lines h sp :
  Parse lines None = inr (h, sp) ->
  exists s,
    sheets h !! sp = Some s
    /\ (forall f, f ∈ Cuesheet_Files s ->
          (exists file, files h !! f = Some file /\ parentSheet file = Some sp)
          /\ forall p, p ∈ tracks_of h f ->
               exists t, tracks h !! p = Some t /\ parentFile t = Some f)
    /\ (forall p t, tracks h !! p = Some t ->
          exists f, parentFile t = Some f /\ f ∈ Cuesheet_Files s).
Proof.
  unfold Parse. destruct (parseLines initialState lines) as [?|st] eqn:Hst; [discriminate|].
  intros [= <- <-].
  destruct (Inv_parseLines _ _ _ Inv_initial Hst) as [H1 (s & H2 & H2') H3 _ _].
  set (h0 := heap st) in *.
  assert (Hsheet : sheets h0 !! sheet st = Some s) by (rewrite H1, H2; reflexivity).
  unfold wire. rewrite Hsheet.
  set (h := fold_left (wire_file (sheet st)) (Cuesheet_Files s) h0).
  assert (Hnd : NoDup (concat (map File_Tracks (files h0)))).
  { rewrite H3. apply NoDup_seq. }
  assert (Hfile : forall f, f ∈ Cuesheet_Files s -> is_Some (files h0 !! f)).
  { intros f Hf. rewrite H2' in Hf. apply elem_of_seq in Hf.
    apply lookup_lt_is_Some_2. lia. }
  assert (Hwired : forall f p, f ∈ Cuesheet_Files s -> p ∈ tracks_of h0 f ->
            exists t, tracks h !! p = Some t /\ parentFile t = Some f).
  { intros f p Hf Hp.
    assert (Hlive : is_Some (tracks h0 !! p)).
    { apply lookup_lt_is_Some_2.
      rewrite tracks_of_lookup in Hp.
      destruct (map File_Tracks (files h0) !! f) as [l|] eqn:El; [|inversion Hp].
      pose proof (elem_of_concat_lookup _ _ _ _ El Hp) as Hc.
      rewrite H3 in Hc. apply elem_of_seq in Hc. lia. }
    destruct Hlive as [t0 Ht0].
    exists (set_parentFile (Some f) t0). split; [|reflexivity].
    unfold h. rewrite (wire_fold_lookup _ _ _ f p Hf Hp).
    - rewrite Ht0. reflexivity.
    - intros g Hg Hne Hpg. rewrite !tracks_of_lookup in *.
      destruct (map File_Tracks (files h0) !! f) as [lf|] eqn:Elf; [|inversion Hp].
      destruct (map File_Tracks (files h0) !! g) as [lg|] eqn:Elg; [|inversion Hpg].
      exact (NoDup_concat_disjoint _ _ _ _ _ _ Hnd Elf Elg (not_eq_sym Hne) Hp Hpg). }
  exists s. split; [unfold h; rewrite wire_fold_sheets; assumption|]. split.
  - intros f Hf. split.
    + destruct (Hfile f Hf) as [file0 Hfile0].
      exists (set_parentSheet (Some (sheet st)) file0).
      unfold h. rewrite wire_fold_files by assumption. rewrite Hfile0.
      split; reflexivity.
    + intros p Hp. unfold h in Hp. rewrite wire_fold_tracks_of in Hp.
      apply Hwired; assumption.
  - intros p t Hpt.
    assert (Hlen : length (tracks h) = length (tracks h0))
      by (unfold h; apply wire_fold_length).
    assert (Hp : p ∈ concat (map File_Tracks (files h0))).
    { rewrite H3. apply elem_of_seq. apply lookup_lt_Some in Hpt. lia. }
    destruct (elem_of_concat_inv _ _ Hp) as (f & l & Hl & Hpl).
    assert (Hf : f ∈ Cuesheet_Files s).
    { rewrite H2'. apply elem_of_seq. apply lookup_lt_Some in Hl.
      rewrite length_map in Hl. lia. }
    destruct (Hwired f p Hf) as (t' & Ht' & Hpf).
    { rewrite tracks_of_lookup, Hl. assumption. }
    exists f. split; [congruence|assumption].
Qed.

(** C1, amended.  For every parsed sheet and every track number [n], the
    duration is found by scanning the tracks of all files in file-then-track
    order for the first track numbered [n]: it is zero when there is none,
    when that track is the last of the order or the track right after it is
    not numbered [n+1], or when that next track belongs to another file;
    otherwise it is the start of the next track minus the start of track [n]
    in real time, and zero when that is negative.  [Track.Duration] of any
    track of the sheet is that value for the number of the track. *)
Theorem duration_of_parsed_sheet (lines : list string) (h : Heap) (sp : ptr) :
  Parse lines None = inr (h, sp) ->
  exists s,
    sheets h !! sp = Some s
    /\ (forall f n, f ∈ Cuesheet_Files s ->
          getTrackDuration h f n = Some (duration_of n (sheet_tracks h s)))
    /\ (forall p t, tracks h !! p = Some t ->
          Duration h p = Some (duration_of (Track_Number t) (sheet_tracks h s))).
Proof.
  intros HP. destruct (Parse_heap _ _ _ HP) as (s & Hs & Hfiles & Htracks).
  exists s. split; [assumption|].
  assert (Hget : forall f n, f ∈ Cuesheet_Files s ->
            getTrackDuration h f n = Some (duration_of n (sheet_tracks h s))).
  { intros f n Hf. rewrite getTrackDuration_among.
    destruct (Hfiles f Hf) as [(file & Hfile & Hps) _].
    rewrite Hfile. cbn [mbind option_bind]. rewrite Hps, Hs. cbn [mbind option_bind].
    destruct (collectTracks_listed h (Cuesheet_Files s)) as (ps & Hcol & Hl).
    { intros g Hg. destruct (Hfiles g Hg) as [(file' & Hfile' & _) Htr].
      split; [eauto|assumption]. }
    rewrite Hcol. cbn [mbind option_bind].
    apply duration_among_listed. exact Hl. }
  split; [exact Hget|].
  intros p t Hpt. unfold Duration. rewrite Hpt. cbn [mbind option_bind].
  destruct (Htracks p t Hpt) as (f & Hpf & Hf). rewrite Hpf.
  apply Hget. assumption.
Qed.

(** ** C10: durations without back-references *)

Lemma scanTracks_total h n ps :
  (forall p, p ∈ ps -> is_Some (tracks h !! p)) ->
  exists c x, scanTracks h n ps = Some (c, x)
              /\ (forall q, c = Some q -> is_Some (tracks h !! q))
              /\ (forall q, x = Some q -> is_Some (tracks h !! q)).
Proof.
  induction ps as [|p ps IH]; intros Hall; simpl.
  - exists None, None. split; [reflexivity|]. split; intros q; discriminate.
  - destruct (Hall p ltac:(left)) as [t Ht]. rewrite Ht. cbn [mbind option_bind].
    destruct (Track_Number t =? n).
    + destruct ps as [|p' ps'].
      * exists (Some p), None. split; [reflexivity|].
        split; intros q [= <-]. eauto.
      * destruct (Hall p' ltac:(right; left)) as [t' Ht']. rewrite Ht'.
        cbn [mbind option_bind].
        destruct (Track_Number t' =? add64 n 1).
        -- exists (Some p), (Some p'). split; [reflexivity|].
           split; intros q [= <-]; eauto.
        -- exists (Some p), None. split; [reflexivity|].
           split; intros q [= <-]. eauto.
    + apply IH. intros q Hq. apply Hall. right. assumption.
Qed.

Lemma duration_among_total h n ps :
  (forall p, p ∈ ps -> is_Some (tracks h !! p)) ->
  is_Some (duration_among h ps n).
Proof.
  intros Hall. unfold duration_among.
  destruct (scanTracks_total h n ps Hall) as (c & x & -> & Hc & Hx).
  cbn [mbind option_bind].
  destruct c as [c|]; [|eauto]. destruct x as [x|]; [|eauto].
  destruct (Hc c eq_refl) as [t ->]. destruct (Hx x eq_refl) as [t' ->].
  cbn [mbind option_bind].
  destruct (negb _); [eauto|]. destruct (_ <? _); eauto.
Qed.

Lemma collectTracks_total h fs :
  closed h -> (forall f, f ∈ fs -> is_Some (files h !! f)) ->
  exists ps, collectTracks h fs = Some ps
             /\ forall p, p ∈ ps -> is_Some (tracks h !! p).
Proof.
  intros (_ & Hc & _). induction fs as [|f fs IH]; intros Hall; simpl.
  - exists []. split; [reflexivity|]. intros p Hp. inversion Hp.
  - destruct (Hall f ltac:(left)) as [file Hfile]. rewrite Hfile.
    destruct IH as (ps & -> & Hps).
    { intros g Hg. apply Hall. right. assumption. }
    cbn [mbind option_bind]. eexists. split; [reflexivity|].
    intros p Hp. apply elem_of_app in Hp as [Hp|Hp].
    + exact (proj1 (Hc f file Hfile) p Hp).
    + apply Hps. assumption.
Qed.

(** C10.  [Track.Duration] of a live track: it is zero when the track has no
    back-reference to a file; when the file has no back-reference to a sheet
    the search runs over the tracks of that file alone, and its result is
    the one inferred from those tracks; and in every heap without dangling
    pointers it returns a value, whatever back-references are set. *)
Theorem Duration_without_back_references (h : Heap) (p : ptr) (t : Track) :
  tracks h !! p = Some t ->
  (parentFile t = None -> Duration h p = Some 0)
  /\ (forall f file,
        parentFile t = Some f -> files h !! f = Some file -> parentSheet file = None ->
        Duration h p = duration_among h (File_Tracks file) (Track_Number t)
        /\ (forall l, Forall2 (listed h) (File_Tracks file) l ->
              Duration h p = Some (duration_of (Track_Number t) l))
        /\ ((forall q, q ∈ File_Tracks file -> is_Some (tracks h !! q)) ->
            is_Some (Duration h p)))
  /\ (closed h -> is_Some (Duration h p)).
Proof.
  intros Hp. unfold Duration. rewrite Hp. cbn [mbind option_bind].
  split; [intros ->; reflexivity|]. split.
  - intros f file -> Hfile Hns. rewrite getTrackDuration_among, Hfile.
    cbn [mbind option_bind]. rewrite Hns. cbn [mbind option_bind].
    split; [reflexivity|]. split.
    + intros l Hl. apply duration_among_listed. assumption.
    + apply duration_among_total.
  - intros Hcl. destruct (parentFile t) as [f|] eqn:Hpf; [|eauto].
    pose proof Hcl as (Hs & Hf & Ht).
    destruct (Ht p t f Hp Hpf) as [file Hfile].
    rewrite getTrackDuration_among, Hfile. cbn [mbind option_bind].
    destruct (parentSheet file) as [sp|] eqn:Hps.
    + destruct (proj2 (Hf f file Hfile) sp Hps) as [s Hsheet]. rewrite Hsheet.
      cbn [mbind option_bind].
      destruct (collectTracks_total h (Cuesheet_Files s) Hcl) as (ps & -> & Hlive).
      { intros g Hg. eapply Hs; eassumption. }
      cbn [mbind option_bind]. apply duration_among_total. assumption.
    + cbn [mbind option_bind]. apply duration_among_total.
      exact (proj1 (Hf f file Hfile)).
Qed.

(** * Further properties of the code *)

(** ** Timecodes and frame counts *)

Lemma AsDuration_value t :
  0 <= Minutes t -> 0 <= Seconds t -> 0 <= Frames t ->
  frameCount t * 1000000000 <= MaxInt64 ->
  AsDuration t = frameCount t * 1000000000 / 75.
Proof.
  unfold frameCount. intros Hm Hs Hf Hb. unfold MaxInt64 in Hb.
  unfold AsDuration, div64, mul64, FramesPerSecond.
  rewrite TotalFrames_nonneg_exact by (unfold MaxInt64; lia).
  set (F := Minutes t * 60 * 75 + Seconds t * 75 + Frames t) in *.
  assert (HF : 0 <= F) by (unfold F; lia).
  rewrite (wrap64_id (F * 1000000000)) by (unfold MinInt64, MaxInt64; lia).
  rewrite Z.quot_div_nonneg by lia.
  apply wrap64_id. unfold MinInt64, MaxInt64.
  pose proof (Z.div_pos (F * 1000000000) 75 ltac:(lia) ltac:(lia)).
  pose proof (Z.div_le_upper_bound (F * 1000000000) 75 (2 ^ 63 - 1)
                ltac:(lia) ltac:(lia)). lia.
Qed.

(** [NewTimecodeFromFrames] always builds a timecode within the ranges of
    the format, whatever [int] it is given, and a negative count gives the
    zero timecode. *)
Theorem NewTimecodeFromFrames_canonical (n : Z) :
  MinInt64 <= n <= MaxInt64 ->
  canonical (NewTimecodeFromFrames n)
  /\ (n < 0 -> NewTimecodeFromFrames n = zeroTimecode).
Proof.
  clear caseTable.
  unfold MinInt64, MaxInt64. intros Hn.
  unfold NewTimecodeFromFrames, canonical, div64, rem64, FramesPerSecond.
  change (60 * 75) with 4500.
  destruct (Z.ltb_spec n 0) as [Hneg|Hpos].
  - split; [|reflexivity]. vm_compute. intuition discriminate.
  - split; [|lia]. cbn [Minutes Seconds Frames].
    rewrite (Z.quot_div_nonneg n 4500), (Z.rem_mod_nonneg n 4500) by lia.
    pose proof (Z.mod_pos_bound n 4500 ltac:(lia)) as Hr.
    rewrite (Z.quot_div_nonneg (n mod 4500) 75),
            (Z.rem_mod_nonneg (n mod 4500) 75) by lia.
    pose proof (Z.div_pos n 4500 ltac:(lia) ltac:(lia)) as Hq.
    pose proof (Z.div_le_upper_bound n 4500 (2 ^ 63 - 1) ltac:(lia) ltac:(lia)) as Hq'.
    pose proof (Z.div_pos (n mod 4500) 75 ltac:(lia) ltac:(lia)) as Hs.
    pose proof (Z.div_lt_upper_bound (n mod 4500) 75 60 ltac:(lia) ltac:(lia)) as Hs'.
    pose proof (Z.mod_pos_bound (n mod 4500) 75 ltac:(lia)) as Hf.
    rewrite !wrap64_id by (unfold MinInt64, MaxInt64; lia).
    lia.
Qed.

(** Frame counts and canonical timecodes correspond one to one: rebuilding
    a canonical timecode from its frame count gives it back, and the frame
    count of the timecode built from a non-negative count is that count. *)
Theorem frame_count_round_trip :
  (forall t, canonical t -> frameCount t <= MaxInt64 ->
     TotalFrames t = frameCount t /\ NewTimecodeFromFrames (TotalFrames t) = t)
  /\ (forall n, 0 <= n <= MaxInt64 -> TotalFrames (NewTimecodeFromFrames n) = n).
Proof.
  split.
  - intros t (Hm & Hs & Hf) Hb. unfold FramesPerSecond in Hf. unfold frameCount in *.
    split.
    + apply TotalFrames_nonneg_exact; lia.
    + apply NewTimecodeFromFrames_TotalFrames; lia.
  - unfold MaxInt64. intros n Hn.
    unfold NewTimecodeFromFrames, div64, rem64, FramesPerSecond.
    change (60 * 75) with 4500.
    destruct (Z.ltb_spec n 0) as [Hneg|Hpos]; [lia|].
    rewrite (Z.quot_div_nonneg n 4500), (Z.rem_mod_nonneg n 4500) by lia.
    pose proof (Z.mod_pos_bound n 4500 ltac:(lia)) as Hr.
    rewrite (Z.quot_div_nonneg (n mod 4500) 75),
            (Z.rem_mod_nonneg (n mod 4500) 75) by lia.
    pose proof (Z.div_pos n 4500 ltac:(lia) ltac:(lia)) as Hq.
    pose proof (Z.div_le_upper_bound n 4500 (2 ^ 63 - 1) ltac:(lia) ltac:(lia)) as Hq'.
    pose proof (Z.div_pos (n mod 4500) 75 ltac:(lia) ltac:(lia)) as Hs.
    pose proof (Z.div_lt_upper_bound (n mod 4500) 75 60 ltac:(lia) ltac:(lia)) as Hs'.
    pose proof (Z.mod_pos_bound (n mod 4500) 75 ltac:(lia)) as Hf.
    rewrite !wrap64_id by (unfold MinInt64, MaxInt64; lia).
    rewrite TotalFrames_nonneg_exact; cbn [Minutes Seconds Frames];
      pose proof (Z.div_mod n 4500 ltac:(lia));
      pose proof (Z.div_mod (n mod 4500) 75 ltac:(lia));
      unfold MaxInt64; lia.
Qed.

(** Among canonical timecodes, the frame count orders them as minutes, then
    seconds, then frames do, and the conversion to real time keeps that
    order strictly (as long as the nanosecond count fits [int64]): an earlier
    timecode is a smaller duration, equal durations mean equal timecodes. *)
Theorem timecode_order (a b : Timecode) :
  canonical a -> canonical b ->
  frameCount a * 1000000000 <= MaxInt64 -> frameCount b * 1000000000 <= MaxInt64 ->
  (TotalFrames a < TotalFrames b <-> earlier a b)
  /\ (AsDuration a < AsDuration b <-> earlier a b)
  /\ (AsDuration a = AsDuration b <-> a = b).
Proof.
  intros (Ham & Has & Haf) (Hbm & Hbs & Hbf) Ha Hb.
  unfold FramesPerSecond in *.
  assert (HTa : TotalFrames a = frameCount a).
  { apply TotalFrames_nonneg_exact; unfold frameCount, MaxInt64 in *; lia. }
  assert (HTb : TotalFrames b = frameCount b).
  { apply TotalFrames_nonneg_exact; unfold frameCount, MaxInt64 in *; lia. }
  rewrite HTa, HTb, !AsDuration_value by lia.
  assert (Hlex : frameCount a < frameCount b <-> earlier a b).
  { unfold frameCount, earlier. lia. }
  assert (Hinj : frameCount a = frameCount b <-> a = b).
  { split; [|intros ->; reflexivity]. unfold frameCount. intros He.
    destruct a as [ma sa fa], b as [mb sb fb]. cbn [Minutes Seconds Frames] in *.
    assert (ma = mb) by lia. assert (sa = sb) by lia. assert (fa = fb) by lia.
    congruence. }
  assert (Hmono : forall x y, 0 <= x -> x < y ->
            x * 1000000000 / 75 < y * 1000000000 / 75).
  { intros x y Hx Hxy.
    apply Z.lt_le_trans with ((x * 1000000000 + 1 * 75) / 75).
    - rewrite Z.div_add by lia. lia.
    - apply Z.div_le_mono; lia. }
  assert (H0a : 0 <= frameCount a) by (unfold frameCount; lia).
  assert (H0b : 0 <= frameCount b) by (unfold frameCount; lia).
  split; [exact Hlex|]. split.
  - rewrite <- Hlex. split; [|apply Hmono; assumption].
    intros Hlt. destruct (Z.lt_trichotomy (frameCount a) (frameCount b)) as [?|[He|Hgt]];
      [assumption|rewrite He in Hlt; lia|].
    pose proof (Hmono _ _ H0b Hgt). lia.
  - rewrite <- Hinj. split; [|intros ->; reflexivity].
    intros He. destruct (Z.lt_trichotomy (frameCount a) (frameCount b)) as [Hlt|[?|Hgt]];
      [|assumption|].
    + pose proof (Hmono _ _ H0a Hlt). lia.
    + pose proof (Hmono _ _ H0b Hgt). lia.
Qed.

Lemma fmt_02d_two_digits n :
  0 <= n <= 99 ->
  fmt_02d n = String (chr (48 + n / 10)) (String (chr (48 + n mod 10)) EmptyString).
Proof.
  intros Hn. unfold fmt_02d, digits.
  destruct (Z.ltb_spec n 0); [lia|].
  destruct (Z.ltb_spec n 10) as [Hlt|Hge].
  - rewrite Z.div_small by lia. cbn [digits_acc].
    destruct (Z.ltb_spec n 10); [reflexivity|lia].
  - cbn [digits_acc]. destruct (Z.ltb_spec n 10); [lia|].
    assert (Hq : 0 <= n / 10 < 10).
    { split; [apply Z.div_pos; lia|apply Z.div_lt_upper_bound; lia]. }
    destruct (Z.ltb_spec (n / 10) 10); [|lia].
    rewrite (Z.mod_small (n / 10) 10) by lia. reflexivity.
Qed.

(** [Timecode.String] of a canonical timecode of less than 100 minutes is
    the fixed layout of eight characters: two digits, a colon, two digits, a
    colon, two digits. *)
Theorem Timecode_String_layout (t : Timecode) :
  canonical t -> Minutes t <= 99 ->
  Timecode_String t
  = bytes_string [48 + Minutes t / 10; 48 + Minutes t mod 10; 58;
                  48 + Seconds t / 10; 48 + Seconds t mod 10; 58;
                  48 + Frames t / 10; 48 + Frames t mod 10]
  /\ len (Timecode_String t) = 8.
Proof.
  intros (Hm & Hs & Hf) Hm99. unfold FramesPerSecond in Hf.
  unfold Timecode_String.
  rewrite !fmt_02d_two_digits by lia.
  split; reflexivity.
Qed.

(** ** Start time and duration *)

(** [StartTime] is the time of the first index numbered 1, whatever comes
    after it, and the zero timecode when no index is numbered 1. *)
Theorem StartTime_first_index_one (t : Track) :
  (Forall (fun i => Index_Number i <> 1) (Track_Indices t) ->
   StartTime t = zeroTimecode)
  /\ (forall pre idx post,
        Track_Indices t = pre ++ idx :: post ->
        Forall (fun i => Index_Number i <> 1) pre -> Index_Number idx = 1 ->
        StartTime t = Index_Time idx).
Proof.
  unfold StartTime. split.
  - induction 1 as [|i l Hi _ IH]; simpl; [reflexivity|].
    destruct (Z.eqb_spec (Index_Number i) 1); [contradiction|assumption].
  - intros pre idx post -> Hpre Hidx.
    induction Hpre as [|i l Hi _ IH]; simpl.
    + rewrite Hidx. reflexivity.
    + destruct (Z.eqb_spec (Index_Number i) 1); [contradiction|assumption].
Qed.

Lemma duration_between_range t t' : 0 <= duration_between t t' <= 2 ^ 58.
Proof.
  unfold duration_between.
  pose proof (AsDuration_bound (StartTime t)) as H1.
  pose proof (AsDuration_bound (StartTime t')) as H2.
  change (2 ^ 57) with 144115188075855872 in *.
  change (2 ^ 58) with 288230376151711744.
  destruct (Z.ltb_spec (AsDuration (StartTime t') - AsDuration (StartTime t)) 0); lia.
Qed.

Lemma duration_among_range h ps n d :
  duration_among h ps n = Some d -> 0 <= d <= 2 ^ 58.
Proof.
  assert (H0 : forall d0, Some 0 = Some d0 -> 0 <= d0 <= 2 ^ 58).
  { intros d0 [= <-]. change (2 ^ 58) with 288230376151711744. lia. }
  unfold duration_among.
  destruct (scanTracks h n ps) as [[c x]|]; cbn [mbind option_bind];
    [|intros Hn; inversion Hn].
  destruct c as [c|]; [|apply H0]. destruct x as [x|]; [|apply H0].
  destruct (tracks h !! c) as [t|]; cbn [mbind option_bind];
    [|intros Hn; inversion Hn].
  destruct (tracks h !! x) as [t'|]; cbn [mbind option_bind];
    [|intros Hn; inversion Hn].
  destruct (negb _); [apply H0|].
  intros Hd. assert (Hv : d = duration_between t t'); [|rewrite Hv; apply duration_between_range].
  rewrite <- (duration_tail t t'). revert Hd.
  destruct (_ <? _); intros Hd; injection Hd as <-; reflexivity.
Qed.

(** Whatever the heap holds, a duration that [Track.Duration] or
    [getTrackDuration] returns is never negative (and stays below 2^58
    nanoseconds, so the subtraction of the two start times cannot wrap). *)
Theorem Duration_never_negative (h : Heap) :
  (forall p d, Duration h p = Some d -> 0 <= d <= 2 ^ 58)
  /\ (forall f n d, getTrackDuration h f n = Some d -> 0 <= d <= 2 ^ 58).
Proof.
  assert (Hget : forall f n d, getTrackDuration h f n = Some d -> 0 <= d <= 2 ^ 58).
  { intros f n d. rewrite getTrackDuration_among.
    destruct (files h !! f) as [file|]; cbn [mbind option_bind];
      [|intros Hn; inversion Hn].
    destruct (parentSheet file) as [sp|].
    - destruct (sheets h !! sp) as [s|]; cbn [mbind option_bind];
        [|intros Hn; inversion Hn].
      destruct (collectTracks h (Cuesheet_Files s)); cbn [mbind option_bind];
        [|intros Hn; inversion Hn].
      apply duration_among_range.
    - cbn [mbind option_bind]. apply duration_among_range. }
  split; [|exact Hget].
  intros p d. unfold Duration.
  destruct (tracks h !! p) as [t|]; cbn [mbind option_bind];
    [|intros Hn; inversion Hn].
  destruct (parentFile t) as [f|].
  - apply Hget.
  - intros [= <-]. change (2 ^ 58) with 288230376151711744. lia.
Qed.

(** ** The heap of a parsed sheet *)

Lemma map_alter_same {A B} (g : A -> B) (f : A -> A) (l : list A) :
  (forall x, g (f x) = g x) -> forall i, map g (alter f i l) = map g l.
Proof.
  intros Hg. induction l as [|x l IH]; intros i; [reflexivity|].
  destruct i as [|i]; simpl.
  - rewrite Hg. reflexivity.
  - f_equal. apply IH.
Qed.

Lemma wire_fold_file_tracks sp fs : forall h,
  map File_Tracks (files (fold_left (wire_file sp) fs h)) = map File_Tracks (files h).
Proof.
  induction fs as [|f fs IH]; intros h; simpl; [reflexivity|].
  rewrite IH, wire_file_files. apply map_alter_same. reflexivity.
Qed.

(** The lists of a parsed heap: the sheet lists the files of the heap in
    order of creation, the files together list its tracks in order of
    creation. *)
Lemma Parse_shape lines h sp :
  Parse lines None = inr (h, sp) ->
  exists s,
    sp = 0%nat /\ sheets h = [s]
    /\ Cuesheet_Files s = seq 0 (length (files h))
    /\ concat (map File_Tracks (files h)) = seq 0 (length (tracks h)).
Proof.
  unfold Parse. destruct (parseLines initialState lines) as [?|st] eqn:Hst; [discriminate|].
  intros [= <- <-].
  destruct (Inv_parseLines _ _ _ Inv_initial Hst) as [H1 (s & H2 & H2') H3 _ _].
  exists s. unfold wire. rewrite H1, H2. cbn [lookup list_lookup].
  rewrite wire_fold_sheets, wire_fold_length, wire_fold_file_tracks.
  assert (Hlen : length (files (fold_left (wire_file 0) (Cuesheet_Files s) (heap st)))
                 = length (files (heap st))).
  { rewrite <- (length_map File_Tracks), wire_fold_file_tracks, length_map.
    reflexivity. }
  rewrite Hlen. repeat split; assumption.
Qed.

(** A successful [Parse] returns a heap that holds one sheet, which lists
    every file once in order of creation; the files together list every
    track once in order of creation; every file points back to the sheet and
    every track points back to the file that lists it; and no pointer
    dangles. *)
Theorem Parse_result_well_formed (lines : list string) (h : Heap) (sp : ptr) :
  Parse lines None = inr (h, sp) ->
  exists s,
    sheets h = [s] /\ sp = 0%nat
    /\ Cuesheet_Files s = seq 0 (length (files h))
    /\ concat (map File_Tracks (files h)) = seq 0 (length (tracks h))
    /\ (forall f file, files h !! f = Some file -> parentSheet file = Some sp)
    /\ (forall p t, tracks h !! p = Some t ->
          exists f, parentFile t = Some f /\ p ∈ tracks_of h f)
    /\ closed h.
Proof.
  intros HP.
  destruct (Parse_shape _ _ _ HP) as (s & Hsp & Hs & Hfiles & Htracks).
  destruct (Parse_heap _ _ _ HP) as (s' & Hs' & Hwf & _).
  assert (s' = s) as -> by (rewrite Hsp, Hs in Hs'; injection Hs' as <-; reflexivity).
  assert (Hin : forall f, is_Some (files h !! f) -> f ∈ Cuesheet_Files s).
  { intros f Hf. rewrite Hfiles. apply elem_of_seq.
    apply lookup_lt_is_Some_1 in Hf. lia. }
  assert (Hback : forall f file, files h !! f = Some file -> parentSheet file = Some sp).
  { intros f file Hf. destruct (Hwf f (Hin f ltac:(eauto))) as [(file' & Hf' & Hps) _].
    congruence. }
  assert (Hlisted : forall p, is_Some (tracks h !! p) ->
            exists f, f ∈ Cuesheet_Files s /\ p ∈ tracks_of h f).
  { intros p Hp. apply lookup_lt_is_Some_1 in Hp.
    assert (Hc : p ∈ concat (map File_Tracks (files h))).
    { rewrite Htracks. apply elem_of_seq. lia. }
    destruct (elem_of_concat_inv _ _ Hc) as (f & l & Hl & Hpl).
    exists f. split.
    - apply Hin. rewrite list_lookup_fmap in Hl.
      destruct (files h !! f); [eauto|discriminate].
    - rewrite tracks_of_lookup, Hl. assumption. }
  assert (Hparent : forall p t, tracks h !! p = Some t ->
            exists f, parentFile t = Some f /\ p ∈ tracks_of h f).
  { intros p t Hp. destruct (Hlisted p ltac:(eauto)) as (f & Hf & Hpf).
    destruct (proj2 (Hwf f Hf) p Hpf) as (t' & Ht' & Hpar).
    exists f. split; [congruence|assumption]. }
  exists s. split; [assumption|]. split; [assumption|]. split; [assumption|].
  split; [assumption|]. split; [assumption|]. split; [assumption|].
  split; [|split].
  - intros sp' s0 f Hs0 Hf. rewrite Hs in Hs0.
    destruct sp' as [|sp']; [|destruct sp'; discriminate].
    injection Hs0 as <-. rewrite Hfiles in Hf. apply elem_of_seq in Hf.
    apply lookup_lt_is_Some_2. lia.
  - intros f file Hf. split.
    + intros p Hp. apply lookup_lt_is_Some_2.
      assert (Hc : p ∈ concat (map File_Tracks (files h))).
      { eapply elem_of_concat_lookup; [|exact Hp].
        rewrite list_lookup_fmap, Hf. reflexivity. }
      rewrite Htracks in Hc. apply elem_of_seq in Hc. lia.
    + intros sp' Hps. rewrite (Hback f file Hf) in Hps. injection Hps as <-.
      rewrite Hsp, Hs. eauto.
  - intros p t f Hp Hpar. destruct (Hparent p t Hp) as (f' & Hpar' & Hin').
    assert (f' = f) as -> by congruence.
    unfold tracks_of in Hin'. destruct (files h !! f); [eauto|inversion Hin'].
Qed.

(** ** The tokenizer *)

Lemma allBytes_app P a b : allBytes P (a ++ b) = allBytes P a && allBytes P b.
Proof.
  induction a as [|c a IH]; simpl; [reflexivity|].
  rewrite IH. apply andb_assoc.
Qed.

Lemma bounded_check (P : Z -> bool) (n : nat) :
  forallb P (map Z.of_nat (seq 0 n)) = true ->
  forall x, 0 <= x < Z.of_nat n -> P x = true.
Proof.
  intros Hall x Hx. rewrite forallb_forall in Hall. apply Hall.
  apply in_map_iff. exists (Z.to_nat x). split; [lia|].
  apply in_seq. lia.
Qed.

(** A byte written with its top bit set is not an ASCII character. *)
Lemma high_byte K x :
  (K = 0x80 \/ K = 0xC0 \/ K = 0xE0 \/ K = 0xF0) -> 0 <= x < 64 ->
  128 <= byte (chr (Z.lor K x)).
Proof.
  intros HK Hx.
  assert (H : (128 <=? byte (chr (Z.lor K x))) = true); [|lia].
  revert x Hx. change 64 with (Z.of_nat 64). apply bounded_check.
  destruct HK as [-> | [-> | [-> | ->]]]; vm_compute; reflexivity.
Qed.

Lemma land_63 y : 0 <= Z.land y 0x3F < 64.
Proof.
  change 0x3F with (Z.ones 6). rewrite Z.land_ones by lia.
  apply Z.mod_pos_bound. lia.
Qed.

Lemma shiftr_bound r k m :
  0 <= r < m * 2 ^ k -> 0 <= k -> 0 <= Z.shiftr r k < m.
Proof.
  intros Hr Hk. rewrite Z.shiftr_div_pow2 by lia.
  assert (0 < 2 ^ k) by (apply Z.pow_pos_nonneg; lia).
  split; [apply Z.div_pos; lia|apply Z.div_lt_upper_bound; lia].
Qed.

(** The encoding of a rune holds an ASCII byte only when the rune is that
    character. *)
Lemma EncodeRune_bytes r q :
  0 <= q < 128 -> r <> q ->
  allBytes (fun b => negb (b =? q)) (EncodeRune r) = true.
Proof.
  clear caseTable.
  intros Hq Hr.
  assert (Hhigh : forall b, 128 <= b -> negb (b =? q) = true).
  { intros b Hb. destruct (Z.eqb_spec b q); [lia|reflexivity]. }
  assert (Hc : forall y, negb (byte (chr (Z.lor 0x80 (Z.land y 0x3F))) =? q) = true).
  { intros y. apply Hhigh, high_byte; [tauto|apply land_63]. }
  unfold EncodeRune, MaxRune.
  destruct (Z.leb_spec 0 r) as [H0|H0]; cbn [andb orb].
  - destruct (Z.leb_spec r 0x7F) as [H1|H1].
    { cbn [bytes_string fold_right allBytes]. rewrite byte_chr by lia.
      destruct (Z.eqb_spec r q); [contradiction|reflexivity]. }
    destruct (Z.leb_spec r 0x7FF) as [H2|H2].
    { cbn [bytes_string fold_right allBytes]. rewrite Hc, Hhigh; [reflexivity|].
      apply high_byte; [tauto|].
      pose proof (shiftr_bound r 6 32 ltac:(lia) ltac:(lia)). lia. }
    destruct (Z.ltb_spec r 0xD800) as [H3|H3]; cbn [orb].
    { cbn [bytes_string fold_right allBytes]. rewrite !Hc, Hhigh; [reflexivity|].
      apply high_byte; [tauto|].
      pose proof (shiftr_bound r 12 16 ltac:(lia) ltac:(lia)). lia. }
    destruct (Z.ltb_spec 0xDFFF r) as [H4|H4]; cbn [andb];
      [destruct (Z.leb_spec r 0xFFFF) as [H5|H5]|].
    + cbn [bytes_string fold_right allBytes]. rewrite !Hc, Hhigh; [reflexivity|].
      apply high_byte; [tauto|].
      pose proof (shiftr_bound r 12 16 ltac:(lia) ltac:(lia)). lia.
    + destruct (Z.ltb_spec 0xFFFF r) as [H6|H6]; [|lia]. cbn [andb].
      destruct (Z.leb_spec r 0x10FFFF) as [H7|H7].
      * cbn [bytes_string fold_right allBytes]. rewrite !Hc, Hhigh; [reflexivity|].
        apply high_byte; [tauto|].
        pose proof (shiftr_bound r 18 64 ltac:(lia) ltac:(lia)). lia.
      * vm_compute (bytes_string _).
        cbn [allBytes]. rewrite !Hhigh; [reflexivity|vm_compute; discriminate..].
    + destruct (Z.ltb_spec 0xFFFF r) as [H6|H6]; [lia|]. cbn [andb].
      vm_compute (bytes_string _).
      cbn [allBytes]. rewrite !Hhigh; [reflexivity|vm_compute; discriminate..].
  - destruct (Z.ltb_spec 0xFFFF r); [lia|]. cbn [andb].
    destruct (Z.ltb_spec 0xDFFF r); [lia|]. cbn [andb].
    vm_compute (bytes_string _).
    cbn [allBytes]. rewrite !Hhigh; [reflexivity|vm_compute; discriminate..].
Qed.

Lemma WriteRune_clean r st :
  r <> quoteRune -> clean st -> clean (WriteRune r st).
Proof.
  intros Hr [Hres Hcur]. split; [exact Hres|].
  cbn [WriteRune current]. rewrite allBytes_app, Hcur.
  apply (EncodeRune_bytes r quoteRune); [unfold quoteRune; lia|assumption].
Qed.

Lemma push_clean st :
  (0 <? len (current st)) = true -> clean st ->
  clean {| result := result st ++ [current st]; current := ""; inQuote := inQuote st |}.
Proof.
  intros Hlen [Hres Hcur]. split; [|reflexivity].
  cbn [result]. apply Forall_app. split; [exact Hres|].
  constructor; [|constructor]. split; [|exact Hcur].
  intros E. rewrite E in Hlen. discriminate.
Qed.

Lemma smartSplit_step_clean n st i r st1 :
  clean st -> smartSplit_step n st i r = inr st1 -> clean st1.
Proof.
  intros Hc. unfold smartSplit_step.
  destruct (Z.eqb_spec r quoteRune) as [Hq|Hq].
  - destruct ((i =? n - 1) && _); [discriminate|]. intros [= <-]. exact Hc.
  - rewrite andb_false_r.
    destruct ((r =? spaceRune) || (r =? tabRune)).
    + destruct (inQuote st).
      * pose proof (WriteRune_clean r st Hq Hc) as Hw.
        destruct ((i =? n - 1) && _); [discriminate|]. intros [= <-]. exact Hw.
      * destruct (0 <? len (current st)) eqn:El.
        -- pose proof (push_clean st El Hc) as Hp.
           destruct ((i =? n - 1) && _); [discriminate|]. intros [= <-]. exact Hp.
        -- destruct ((i =? n - 1) && _); [discriminate|]. intros [= <-]. exact Hc.
    + pose proof (WriteRune_clean r st Hq Hc) as Hw.
      destruct ((i =? n - 1) && _); [discriminate|]. intros [= <-]. exact Hw.
Qed.

Lemma smartSplit_loop_clean n rs : forall st st1,
  clean st -> smartSplit_loop n st rs = inr st1 -> clean st1.
Proof.
  induction rs as [|[i r] rs IH]; intros st st1 Hc; simpl.
  - intros [= <-]. exact Hc.
  - destruct (smartSplit_step n st i r) as [?|st'] eqn:E; [discriminate|].
    apply IH. exact (smartSplit_step_clean _ _ _ _ _ Hc E).
Qed.

(** Whatever the line, the tokens [smartSplit] returns are never empty and
    never hold a double quote: quotes only delimit. *)
Theorem smartSplit_tokens_clean (line : string) (toks : list string) :
  smartSplit line = inr toks ->
  Forall (fun tok => tok <> EmptyString /\ allBytes notQuote tok = true) toks.
Proof.
  unfold smartSplit.
  destruct (smartSplit_loop _ _ _) as [?|st] eqn:E; [discriminate|].
  assert (Hc : clean st).
  { eapply smartSplit_loop_clean; [|exact E]. split; [constructor|reflexivity]. }
  destruct (0 <? len (current st)) eqn:El; intros [= <-].
  - exact (proj1 (push_clean st El Hc)).
  - exact (proj1 Hc).
Qed.

Lemma smartSplit_step_tok n st i r :
  smartSplit_step n st i r
  = if (i =? n - 1) && inQuote (tok_step st r)
    then inl (errors_New "mismatched quotes")
    else inr (tok_step st r).
Proof.
  unfold smartSplit_step, tok_step.
  destruct (Z.eqb_spec r quoteRune) as [Hq|Hq]; [reflexivity|].
  rewrite andb_false_r.
  destruct ((r =? spaceRune) || (r =? tabRune)); [|reflexivity].
  destruct (inQuote st); [reflexivity|].
  destruct (0 <? len (current st)); reflexivity.
Qed.

Lemma smartSplit_loop_ascii_run s : forall st i n,
  isASCII s = true -> n = i + len s ->
  smartSplit_loop n st (range_from (String.length s) i s)
  = match s with
    | EmptyString => inr st
    | _ => if inQuote (tok_run st s)
           then inl (errors_New "mismatched quotes")
           else inr (tok_run st s)
    end.
Proof.
  induction s as [|c s IH]; intros st i n Ha Hn; [reflexivity|].
  simpl in Ha. apply andb_prop in Ha as [Hc Ha].
  cbn [String.length]. rewrite range_from_ascii by assumption.
  cbn [smartSplit_loop tok_run]. rewrite smartSplit_step_tok.
  rewrite len_String in Hn.
  destruct s as [|c' s'].
  - assert (Hi : i = n - 1) by (change (len "") with 0 in Hn; lia).
    subst i. rewrite Z.eqb_refl. cbn [andb tok_run range_from smartSplit_loop].
    destruct (inQuote (tok_step st (byte c))); reflexivity.
  - assert (Hi : (i =? n - 1) = false).
    { apply Z.eqb_neq. rewrite len_String in Hn. pose proof (len_nonneg s'). lia. }
    rewrite Hi. cbn [andb].
    rewrite (IH (tok_step st (byte c)) (i + 1) n Ha ltac:(lia)). reflexivity.
Qed.

Lemma tok_run_inQuote s : forall st,
  inQuote (tok_run st s) = xorb (oddQuotes s) (inQuote st).
Proof.
  induction s as [|c s IH]; intros st; cbn [tok_run oddQuotes].
  - destruct (inQuote st); reflexivity.
  - rewrite IH. unfold tok_step.
    destruct (byte c =? quoteRune); cbn [inQuote].
    + destruct (oddQuotes s), (inQuote st); reflexivity.
    + assert (Hk : inQuote (if (byte c =? spaceRune) || (byte c =? tabRune)
                            then if inQuote st then WriteRune (byte c) st
                                 else if 0 <? len (current st)
                                      then {| result := result st ++ [current st];
                                              current := ""; inQuote := inQuote st |}
                                      else st
                            else WriteRune (byte c) st) = inQuote st).
      { destruct ((byte c =? spaceRune) || (byte c =? tabRune)); [|reflexivity].
        destruct (inQuote st) eqn:E; [exact E|].
        destruct (0 <? len (current st)); [reflexivity|exact E]. }
      rewrite Hk. destruct (oddQuotes s), (inQuote st); reflexivity.
Qed.

(** On an ASCII line the tokenizer is the plain run of [tok_step] over the
    bytes, with the quote state tested once at the end. *)
Lemma smartSplit_ascii line :
  isASCII line = true ->
  smartSplit line
  = if oddQuotes line then inl (errors_New "mismatched quotes")
    else inr (tok_flush (tok_run {| result := []; current := ""; inQuote := false |}
                                 line)).
Proof.
  intros Ha. unfold smartSplit, range_string.
  rewrite (smartSplit_loop_ascii_run line _ 0 (len line) Ha ltac:(lia)).
  pose proof (tok_run_inQuote line {| result := []; current := ""; inQuote := false |})
    as Hq. cbn [inQuote] in Hq. rewrite xorb_false_r in Hq.
  destruct line as [|c s]; [reflexivity|]. rewrite Hq.
  destruct (oddQuotes (String c s)); [reflexivity|].
  unfold tok_flush. destruct (0 <? _); reflexivity.
Qed.

(** On an ASCII line the tokenizer fails exactly when the number of quotes is
    odd; with an even number it returns tokens. *)
Theorem smartSplit_ascii_fails_iff_odd_quotes (line : string) :
  isASCII line = true ->
  (smartSplit line = inl (errors_New "mismatched quotes") <-> oddQuotes line = true)
  /\ ((exists toks, smartSplit line = inr toks) <-> oddQuotes line = false).
Proof.
  intros Ha. rewrite (smartSplit_ascii line Ha).
  destruct (oddQuotes line); split; split; try reflexivity; try discriminate; eauto.
  intros [toks H]. discriminate.
Qed.

Lemma EncodeRune_ascii c :
  (byte c <? RuneSelf) = true -> EncodeRune (byte c) = String c EmptyString.
Proof.
  unfold RuneSelf. intros Hc. pose proof (byte_range c) as Hr.
  unfold EncodeRune.
  destruct (Z.leb_spec 0 (byte c)); [|lia].
  destruct (Z.leb_spec (byte c) 0x7F); [|lia].
  cbn [andb bytes_string fold_right]. rewrite chr_byte. reflexivity.
Qed.

Lemma isASCII_app a b : isASCII (a ++ b) = isASCII a && isASCII b.
Proof.
  induction a as [|c a IH]; simpl; [reflexivity|].
  rewrite IH. apply andb_assoc.
Qed.

Lemma tok_run_app a b st : tok_run st (a ++ b) = tok_run (tok_run st a) b.
Proof.
  revert st. induction a as [|c a IH]; intros st; simpl; [reflexivity|]. apply IH.
Qed.

Lemma append_one (a : string) c r : (a ++ String c r = (a ++ String c "") ++ r)%string.
Proof. rewrite append_assoc. reflexivity. Qed.

(** A bare word is gathered as it is. *)
Lemma tok_run_word w : forall st,
  isASCII w = true -> allBytes wordByte w = true ->
  tok_run st w
  = {| result := result st; current := (current st ++ w)%string;
       inQuote := inQuote st |}.
Proof.
  induction w as [|c w IH]; intros st Ha Hw.
  - simpl. rewrite append_nil_r. destruct st; reflexivity.
  - simpl in Ha, Hw. apply andb_prop in Ha as [Hc Ha]. apply andb_prop in Hw as [Hb Hw].
    cbn [tok_run]. rewrite (IH _ Ha Hw). unfold tok_step, wordByte in *.
    destruct (byte c =? quoteRune); [discriminate|].
    destruct (byte c =? spaceRune); [discriminate|].
    destruct (byte c =? tabRune); [discriminate|].
    cbn [orb WriteRune result current inQuote].
    rewrite (EncodeRune_ascii c Hc), <- append_one. reflexivity.
Qed.

(** Between quotes everything but a quote is gathered, spaces included. *)
Lemma tok_run_quoted a : forall st,
  inQuote st = true -> isASCII a = true -> allBytes notQuote a = true ->
  tok_run st a
  = {| result := result st; current := (current st ++ a)%string; inQuote := true |}.
Proof.
  induction a as [|c a IH]; intros st Hq Ha Hn.
  - simpl. rewrite append_nil_r. destruct st; simpl in *; congruence.
  - simpl in Ha, Hn. apply andb_prop in Ha as [Hc Ha]. apply andb_prop in Hn as [Hb Hn].
    cbn [tok_run].
    assert (Hs : tok_step st (byte c) = WriteRune (byte c) st).
    { unfold tok_step, notQuote in *.
      destruct (byte c =? quoteRune); [discriminate|].
      rewrite Hq. destruct ((byte c =? spaceRune) || (byte c =? tabRune)); reflexivity. }
    rewrite Hs, (IH (WriteRune (byte c) st) Hq Ha Hn).
    cbn [WriteRune result current inQuote].
    rewrite (EncodeRune_ascii c Hc), <- append_one. reflexivity.
Qed.

Lemma tok_step_space st :
  inQuote st = false -> (0 <? len (current st)) = true ->
  tok_step st 32
  = {| result := result st ++ [current st]; current := ""; inQuote := inQuote st |}.
Proof.
  intros Hq Hl. unfold tok_step. change (32 =? quoteRune) with false.
  change ((32 =? spaceRune) || (32 =? tabRune)) with true. cbv iota.
  rewrite Hq, Hl. reflexivity.
Qed.

Lemma tok_step_quote st :
  tok_step st 34
  = {| result := result st; current := current st; inQuote := negb (inQuote st) |}.
Proof. reflexivity. Qed.

(** A command word followed by one argument in double quotes: the argument
    is a single token, spaces and tabs included and quotes removed; an empty
    pair of quotes gives no token at all. *)
Theorem quoted_argument_is_one_token (cmd a : string) :
  isASCII cmd = true -> allBytes wordByte cmd = true -> cmd <> EmptyString ->
  isASCII a = true -> allBytes notQuote a = true ->
  smartSplit (cmd ++ " " ++ dq ++ a ++ dq)
  = inr (if String.eqb a "" then [cmd] else [cmd; a]).
Proof.
  intros Hac Hwc Hne Ha Hna.
  set (st0 := {| result := []; current := ""; inQuote := false |}).
  assert (Hrun : tok_run st0 (cmd ++ " " ++ dq ++ a ++ dq)
                 = {| result := [cmd]; current := a; inQuote := false |}).
  { assert (Hlen : (0 <? len cmd) = true).
    { destruct cmd; [congruence|]. rewrite len_String. pose proof (len_nonneg cmd). lia. }
    unfold st0. rewrite tok_run_app, (tok_run_word cmd _ Hac Hwc).
    cbn [result current inQuote append].
    unfold dq. cbn [append tok_run].
    change (byte " ") with 32. change (byte (chr 34)) with 34.
    rewrite (tok_step_space {| result := []; current := cmd; inQuote := false |}
               eq_refl Hlen), tok_step_quote.
    cbn [result current inQuote negb].
    rewrite tok_run_app,
      (tok_run_quoted a {| result := [] ++ [cmd]; current := ""; inQuote := true |}
                      eq_refl Ha Hna).
    cbn [result current inQuote append app tok_run dq]. change (byte (chr 34)) with 34.
    rewrite tok_step_quote. reflexivity. }
  rewrite smartSplit_ascii.
  - pose proof (tok_run_inQuote (cmd ++ " " ++ dq ++ a ++ dq) st0) as Hq.
    rewrite Hrun in Hq. cbn [inQuote] in Hq. rewrite xorb_false_r in Hq.
    rewrite <- Hq. fold st0. rewrite Hrun. unfold tok_flush. cbn [current result].
    destruct a as [|c a']; [reflexivity|].
    rewrite len_String. pose proof (len_nonneg a').
    destruct (Z.ltb_spec 0 (1 + len a')); [reflexivity|lia].
  - rewrite !isASCII_app, Hac, Ha. reflexivity.
Qed.

(** ** Errors of the line loop *)

Lemma dispatch_error_tagged st command args e :
  dispatch st command args = inl e -> tagged (lineNum st) e.
Proof.
  unfold dispatch, tagged.
  destruct (String.eqb command "REM").
  { destruct args; close_tagged. }
  destruct (String.eqb command "CATALOG").
  { destruct args; close_tagged. }
  destruct (String.eqb command "CDTEXTFILE").
  { destruct args; close_tagged. }
  destruct (String.eqb command "TITLE").
  { destruct args; [close_tagged|]. destruct (currentTrack st); close_tagged. }
  destruct (String.eqb command "PERFORMER").
  { destruct args; [close_tagged|]. destruct (currentTrack st); close_tagged. }
  destruct (String.eqb command "SONGWRITER").
  { destruct args; [close_tagged|]. destruct (currentTrack st); close_tagged. }
  destruct (String.eqb command "FILE").
  { destruct args as [|a0 [|a1 more]]; close_tagged. }
  destruct (String.eqb command "TRACK").
  { destruct (currentFile st); [|close_tagged].
    destruct args as [|a0 [|a1 more]]; [close_tagged..|].
    destruct (Atoi a0); close_tagged. }
  destruct (String.eqb command "INDEX").
  { destruct args as [|a0 [|a1 more]]; [close_tagged..|].
    destruct (Atoi a0); [close_tagged|].
    destruct (parseTimecode a1); [close_tagged|].
    destruct (currentTrack st); [close_tagged|].
    destruct (currentFile st); close_tagged. }
  destruct (String.eqb command "PREGAP").
  { destruct (currentTrack st); [|close_tagged].
    destruct args; [close_tagged|]. destruct (parseTimecode s); close_tagged. }
  destruct (String.eqb command "POSTGAP").
  { destruct (currentTrack st); [|close_tagged].
    destruct args; [close_tagged|]. destruct (parseTimecode s); close_tagged. }
  destruct (String.eqb command "FLAGS").
  { destruct (currentTrack st); close_tagged. }
  destruct (String.eqb command "ISRC").
  { destruct (currentTrack st); [|close_tagged]. destruct args; close_tagged. }
  close_tagged.
Qed.

Lemma parseLine_error_tagged st text e :
  parseLine st text = inl e -> tagged (add64 (lineNum st) 1) e.
Proof.
  unfold parseLine.
  destruct (String.eqb (TrimSpace text) ""); [discriminate|].
  destruct (smartSplit (TrimSpace text)) as [err|[|p0 args]].
  - intros [= <-]. right. eexists _, _. reflexivity.
  - discriminate.
  - apply dispatch_error_tagged.
Qed.

(** The first line that fails decides the outcome of [Parse]: the error is
    that of the line, it carries the 1-based number of the line, and neither
    the lines after it nor the state of the reader are looked at. *)
Theorem Parse_first_error (prefix : list string) (st : ParseState)
    (text : string) (e : error) :
  parseLines initialState prefix = inr st -> parseLine st text = inl e ->
  tagged (wrap64 (Z.of_nat (length prefix) + 1)) e
  /\ forall rest readErr, Parse (prefix ++ text :: rest) readErr = inl e.
Proof.
  intros Hst He. split.
  - pose proof (parseLine_error_tagged _ _ _ He) as Ht.
    rewrite (lineNum_parseLines _ _ Hst) in Ht. unfold add64 in Ht.
    rewrite wrap64_add_l in Ht. exact Ht.
  - intros rest readErr. unfold Parse.
    rewrite parseLines_app, Hst. cbn [parseLines]. rewrite He. reflexivity.
Qed.

(** ** Lines that are passed over *)

(** The line counter only shows in error messages: a command does the same
    from two states that differ in the counter alone. *)
Lemma dispatch_set_lineNum st n command args :
  match dispatch st command args with
  | inr s1 => dispatch (set_lineNum n st) command args = inr (set_lineNum n s1)
  | inl _ => exists e, dispatch (set_lineNum n st) command args = inl e
  end.
Proof.
  unfold dispatch.
  cbn [set_lineNum heap sheet currentFile currentTrack pendingIndices lineNum].
  destruct (String.eqb command "REM"); [destruct args; reflexivity|].
  destruct (String.eqb command "CATALOG"); [destruct args; [eauto|reflexivity]|].
  destruct (String.eqb command "CDTEXTFILE"); [destruct args; [eauto|reflexivity]|].
  destruct (String.eqb command "TITLE").
  { destruct args; [eauto|]. destruct (currentTrack st); reflexivity. }
  destruct (String.eqb command "PERFORMER").
  { destruct args; [eauto|]. destruct (currentTrack st); reflexivity. }
  destruct (String.eqb command "SONGWRITER").
  { destruct args; [eauto|]. destruct (currentTrack st); reflexivity. }
  destruct (String.eqb command "FILE").
  { destruct args as [|a0 [|a1 more]]; [eauto..|reflexivity]. }
  destruct (String.eqb command "TRACK").
  { destruct (currentFile st); [|eauto].
    destruct args as [|a0 [|a1 more]]; [eauto..|].
    destruct (Atoi a0); [eauto|reflexivity]. }
  destruct (String.eqb command "INDEX").
  { destruct args as [|a0 [|a1 more]]; [eauto..|].
    destruct (Atoi a0); [eauto|]. destruct (parseTimecode a1); [eauto|].
    destruct (currentTrack st); [reflexivity|].
    destruct (currentFile st); [reflexivity|eauto]. }
  destruct (String.eqb command "PREGAP").
  { destruct (currentTrack st); [|eauto]. destruct args; [eauto|].
    destruct (parseTimecode s); [eauto|reflexivity]. }
  destruct (String.eqb command "POSTGAP").
  { destruct (currentTrack st); [|eauto]. destruct args; [eauto|].
    destruct (parseTimecode s); [eauto|reflexivity]. }
  destruct (String.eqb command "FLAGS").
  { destruct (currentTrack st); [reflexivity|eauto]. }
  destruct (String.eqb command "ISRC").
  { destruct (currentTrack st); [|eauto]. destruct args; [eauto|reflexivity]. }
  reflexivity.
Qed.

Lemma parseLine_set_lineNum st n text :
  match parseLine st text with
  | inr s1 => parseLine (set_lineNum n st) text = inr (set_lineNum (add64 n 1) s1)
  | inl _ => exists e, parseLine (set_lineNum n st) text = inl e
  end.
Proof.
  unfold parseLine.
  cbn [set_lineNum heap sheet currentFile currentTrack pendingIndices lineNum].
  destruct (String.eqb (TrimSpace text) ""); [reflexivity|].
  destruct (smartSplit (TrimSpace text)) as [err|[|p0 args]]; [eauto|reflexivity|].
  exact (dispatch_set_lineNum
           {| heap := heap st; sheet := sheet st; currentFile := currentFile st;
              currentTrack := currentTrack st; pendingIndices := pendingIndices st;
              lineNum := add64 (lineNum st) 1 |} (add64 n 1) (ToUpper p0) args).
Qed.

Lemma parseLines_set_lineNum lines : forall st n,
  match parseLines st lines with
  | inr s1 => exists m, parseLines (set_lineNum n st) lines = inr (set_lineNum m s1)
  | inl _ => exists e, parseLines (set_lineNum n st) lines = inl e
  end.
Proof.
  induction lines as [|x lines IH]; intros st n; cbn [parseLines].
  - exists n. reflexivity.
  - pose proof (parseLine_set_lineNum st n x) as Hx.
    destruct (parseLine st x) as [e|s1].
    + destruct Hx as [e' ->]. eauto.
    + rewrite Hx. apply IH.
Qed.

Lemma passed_over_parseLine st text :
  passed_over text -> parseLine st text = inr (next_line st).
Proof.
  intros [Hb|[Ht|(command & args & Hc & Hk)]].
  - unfold parseLine. rewrite Hb. reflexivity.
  - unfold parseLine. rewrite Ht.
    destruct (String.eqb (TrimSpace text) ""); reflexivity.
  - rewrite (parseLine_command _ _ _ _ Hc).
    destruct Hk as [Hk|[-> ->]]; [|reflexivity].
    unfold dispatch, knownCommands in *. cbn [In] in Hk.
    repeat match goal with
    | |- context [String.eqb command ?k] =>
      destruct (String.eqb_spec command k); [exfalso; apply Hk; subst command; tauto|]
    end.
    reflexivity.
Qed.

(** Blank lines, lines with an unknown command word and [REM] lines without
    text leave no trace: with or without such a line, [Parse] either fails
    both times or returns the same heap and sheet (only the line numbers in
    later error messages move). *)
Theorem passed_over_line_leaves_no_trace (before after : list string) (text : string) :
  passed_over text ->
  outcome (Parse (before ++ text :: after) None)
  = outcome (Parse (before ++ after) None).
Proof.
  intros Hp. unfold Parse. rewrite !parseLines_app.
  destruct (parseLines initialState before) as [e|st]; [reflexivity|].
  cbn [parseLines]. rewrite (passed_over_parseLine st text Hp).
  pose proof (parseLines_set_lineNum after st (add64 (lineNum st) 1)) as Hs.
  change (set_lineNum (add64 (lineNum st) 1) st) with (next_line st) in Hs.
  destruct (parseLines st after) as [e|s1].
  - destruct Hs as [e' ->]. reflexivity.
  - destruct Hs as [m ->]. reflexivity.
Qed.

(** ** Scope and counts *)

(** A command that needs a scope is refused for the missing scope before
    its arguments are looked at: [TRACK] with no file in scope, and [PREGAP],
    [POSTGAP], [FLAGS] and [ISRC] with no track in scope, whatever their
    arguments are. *)
Theorem scope_is_checked_before_arguments (prefix : list string) (st : ParseState)
    (text command : string) (args : list string) :
  parseLines initialState prefix = inr st ->
  command_of text = Some (command, args) ->
  (command = "TRACK" -> currentFile st = None ->
   parseLine st text
   = inl (line_error (wrap64 (Z.of_nat (length prefix) + 1))
                     "TRACK command found outside of a FILE context"))
  /\ (In command ["PREGAP"; "POSTGAP"; "FLAGS"; "ISRC"] -> currentTrack st = None ->
      parseLine st text
      = inl (line_error (wrap64 (Z.of_nat (length prefix) + 1))
                        (command ++ " command found outside of a TRACK context"))).
Proof.
  intros Hst Hc. rewrite (parseLine_command _ _ _ _ Hc).
  assert (Hn : lineNum (next_line st) = wrap64 (Z.of_nat (length prefix) + 1)).
  { cbn [next_line lineNum]. rewrite (lineNum_parseLines _ _ Hst).
    unfold add64. apply wrap64_add_l. }
  rewrite <- Hn. split.
  - intros -> Hf. eval_switch.
    change (currentFile (next_line st)) with (currentFile st). rewrite Hf. reflexivity.
  - intros Hin Ht. cbn [In] in Hin.
    destruct Hin as [<-|[<-|[<-|[<-|[]]]]]; eval_switch;
      change (currentTrack (next_line st)) with (currentTrack st); rewrite Ht;
      reflexivity.
Qed.

Lemma wire_fold_files_length sp fs h :
  length (files (fold_left (wire_file sp) fs h)) = length (files h).
Proof.
  rewrite <- (length_map File_Tracks), wire_fold_file_tracks, length_map. reflexivity.
Qed.

Lemma is_command_other text command args k :
  command_of text = Some (command, args) -> command <> k -> is_command k text = false.
Proof.
  intros Hc Hne. unfold is_command. rewrite Hc. apply String.eqb_neq. assumption.
Qed.

Lemma is_command_same text command args :
  command_of text = Some (command, args) -> is_command command text = true.
Proof.
  intros Hc. unfold is_command. rewrite Hc. apply String.eqb_refl.
Qed.

Lemma parseLine_counts st text st' :
  parseLine st text = inr st' ->
  length (files (heap st'))
  = (length (files (heap st)) + (if is_command "FILE" text then 1 else 0))%nat
  /\ length (tracks (heap st'))
     = (length (tracks (heap st)) + (if is_command "TRACK" text then 1 else 0))%nat.
Proof.
  intros Hp.
  destruct (parseLine_inversion _ _ _ Hp) as [[Hc ->]|(c & a & Hc & Hd)].
  - unfold is_command. rewrite Hc. cbn [next_line heap]. lia.
  - destruct (dispatch_inversion _ _ _ _ Hd)
      as [-> HnF HnT _ | g _ -> HnF HnT _ | t g _ _ -> HnF HnT
         | a0 a1 more -> _ -> | cf a0 a1 more num -> _ _ _ ->
         | cf idx -> _ _ _ ->];
      cbn [next_line with_heap update_sheet update_track update_file new_file
           new_track heap files tracks fst].
    + rewrite (is_command_other _ _ _ _ Hc HnF), (is_command_other _ _ _ _ Hc HnT). lia.
    + rewrite (is_command_other _ _ _ _ Hc HnF), (is_command_other _ _ _ _ Hc HnT). lia.
    + rewrite (is_command_other _ _ _ _ Hc HnF), (is_command_other _ _ _ _ Hc HnT).
      rewrite length_alter. lia.
    + rewrite (is_command_same _ _ _ Hc).
      rewrite (is_command_other _ _ _ "TRACK" Hc) by discriminate.
      rewrite length_app. cbn [length]. lia.
    + rewrite (is_command_same _ _ _ Hc).
      rewrite (is_command_other _ _ _ "FILE" Hc) by discriminate.
      rewrite length_alter, length_app. cbn [length]. lia.
    + rewrite (is_command_other _ _ _ "FILE" Hc) by discriminate.
      rewrite (is_command_other _ _ _ "TRACK" Hc) by discriminate. lia.
Qed.

Lemma parseLines_counts lines : forall st st',
  parseLines st lines = inr st' ->
  length (files (heap st'))
  = (length (files (heap st)) + count_command "FILE" lines)%nat
  /\ length (tracks (heap st'))
     = (length (tracks (heap st)) + count_command "TRACK" lines)%nat.
Proof.
  induction lines as [|x lines IH]; intros st st' Hp; cbn [parseLines] in Hp.
  - injection Hp as <-. cbn [count_command]. lia.
  - destruct (parseLine st x) as [?|st1] eqn:E; [discriminate|].
    destruct (parseLine_counts _ _ _ E) as [F1 T1].
    destruct (IH _ _ Hp) as [F2 T2]. cbn [count_command]. lia.
Qed.

(** A parsed sheet has exactly one file for every [FILE] line of the input
    and one track for every [TRACK] line. *)
Theorem Parse_counts (lines : list string) (h : Heap) (sp : ptr) :
  Parse lines None = inr (h, sp) ->
  length (files h) = count_command "FILE" lines
  /\ length (tracks h) = count_command "TRACK" lines
  /\ (Cuesheet_Files <$> sheets h !! sp) = Some (seq 0 (count_command "FILE" lines)).
Proof.
  intros HP.
  destruct (Parse_shape _ _ _ HP) as (s & -> & Hs & Hfiles & _).
  revert HP. unfold Parse.
  destruct (parseLines initialState lines) as [?|st] eqn:Hst; [discriminate|].
  intros [= <- _].
  destruct (parseLines_counts _ _ _ Hst) as [F T]. cbn in F, T.
  assert (HF : length (files (wire (sheet st) (heap st))) = count_command "FILE" lines).
  { unfold wire. destruct (sheets (heap st) !! sheet st); [|exact F].
    rewrite wire_fold_files_length. exact F. }
  split; [exact HF|]. split.
  - unfold wire. destruct (sheets (heap st) !! sheet st); [|exact T].
    rewrite wire_fold_length. exact T.
  - rewrite Hs. cbn. rewrite Hfiles, HF. reflexivity.
Qed.

(** ** Signed fields *)

Lemma Atoi_fmt_d_int n : MinInt64 <= n <= MaxInt64 -> Atoi (fmt_d n) = inr n.
Proof.
  unfold MinInt64, MaxInt64. intros Hn.
  destruct (Z.ltb_spec n 0) as [Hneg|Hpos];
    [|apply Atoi_fmt_d; unfold MaxInt64; lia].
  unfold fmt_d. destruct (Z.ltb_spec n 0); [|lia].
  destruct (digits_spec (- n)) as (Hall & Hne & Hval & _);
    [unfold MaxUint64; lia|].
  unfold Atoi. rewrite byte_chr by lia.
  change (45 =? 45) with true. cbn [orb negb andb].
  destruct (digits (- n)) as [|c r] eqn:Ed; [congruence|].
  rewrite scanDigits_value; [|assumption|lia|rewrite Hval; unfold MaxUint64; lia].
  rewrite Hval.
  destruct (Z.ltb_spec (2 ^ 63) (- n)); [lia|]. f_equal. lia.
Qed.

Lemma fmt_d_noColon n : MinInt64 <= n <= MaxInt64 -> noColon (fmt_d n) = true.
Proof.
  unfold MinInt64, MaxInt64. intros Hn. unfold fmt_d.
  destruct (Z.ltb_spec n 0).
  - cbn [noColon]. rewrite byte_chr by lia.
    change (45 =? colonByte) with false. cbn [negb andb].
    apply allDigits_noColon, digits_spec. unfold MaxUint64. lia.
  - apply allDigits_noColon, digits_spec. unfold MaxUint64. lia.
Qed.

(** [parseTimecode] checks no lower bound: any [int] as minutes, any [int]
    up to 59 as seconds and any [int] below 75 as frames are accepted when
    written in decimal, negative values included. *)
Theorem parseTimecode_accepts_negative_fields (m s f : Z) :
  MinInt64 <= m <= MaxInt64 -> MinInt64 <= s <= 59 -> MinInt64 <= f < 75 ->
  parseTimecode (fmt_d m ++ ":" ++ fmt_d s ++ ":" ++ fmt_d f)
  = inr {| Minutes := m; Seconds := s; Frames := f |}.
Proof.
  intros Hm Hs Hf.
  assert (Hs' : MinInt64 <= s <= MaxInt64) by (unfold MinInt64, MaxInt64 in *; lia).
  assert (Hf' : MinInt64 <= f <= MaxInt64) by (unfold MinInt64, MaxInt64 in *; lia).
  unfold parseTimecode.
  change (fmt_d m ++ ":" ++ fmt_d s ++ ":" ++ fmt_d f)%string
    with (fmt_d m ++ String ":" (fmt_d s ++ String ":" (fmt_d f)))%string.
  rewrite !Split_colon_app by (apply fmt_d_noColon; assumption).
  rewrite Split_colon_noColon by (apply fmt_d_noColon; assumption).
  rewrite !Atoi_fmt_d_int by assumption.
  destruct (Z.ltb_spec 59 s); [lia|]. unfold FramesPerSecond.
  destruct (Z.leb_spec 75 f); [lia|]. reflexivity.
Qed.

(** ** File names of the example program *)

Lemma allBytes_drop P k : forall s,
  allBytes P s = true -> allBytes P (drop_bytes k s) = true.
Proof.
  induction k as [|k IH]; intros s Hs; [destruct s; exact Hs|].
  destruct s as [|c r]; [reflexivity|]. simpl in Hs. apply andb_prop in Hs as [_ Hr].
  cbn [drop_bytes]. apply IH. exact Hr.
Qed.

Lemma allBytes_take P k : forall s,
  allBytes P s = true -> allBytes P (take_bytes k s) = true.
Proof.
  induction k as [|k IH]; intros s Hs; [destruct s; reflexivity|].
  destruct s as [|c r]; [reflexivity|]. simpl in Hs. apply andb_prop in Hs as [Hc Hr].
  cbn [take_bytes allBytes]. rewrite Hc, (IH _ Hr). reflexivity.
Qed.

Lemma len_drop k : forall s, len (drop_bytes k s) <= len s.
Proof.
  induction k as [|k IH]; intros s; [destruct s; cbn [drop_bytes]; lia|].
  destruct s as [|c r]; [cbn [drop_bytes]; lia|].
  cbn [drop_bytes]. rewrite len_String. specialize (IH r). lia.
Qed.

Lemma len_take k : forall s, len (take_bytes k s) <= len s.
Proof.
  induction k as [|k IH]; intros s.
  { pose proof (len_nonneg s). destruct s; cbn [take_bytes]; change (len "") with 0; lia. }
  destruct s as [|c r]; [cbn [take_bytes]; lia|].
  cbn [take_bytes]. rewrite !len_String. specialize (IH r). lia.
Qed.

(** [TrimSpace] returns a piece of its argument: what holds of every byte of
    the argument holds of the result, which is no longer. *)
Lemma TrimSpace_piece P s :
  (allBytes P s = true -> allBytes P (TrimSpace s) = true)
  /\ len (TrimSpace s) <= len s.
Proof.
  clear caseTable.
  assert (HL : forall fuel x,
            (allBytes P x = true -> allBytes P (TrimLeft_from fuel x) = true)
            /\ len (TrimLeft_from fuel x) <= len x).
  { induction fuel as [|k IH]; intros x; cbn [TrimLeft_from]; [split; [tauto|lia]|].
    destruct x as [|c r]; [split; [tauto|lia]|].
    destruct (DecodeRuneInString (String c r)) as [rn w].
    destruct (IsSpace rn); [|split; [tauto|lia]].
    destruct (IH (drop_bytes w (String c r))) as [I1 I2]. split.
    - intros Hx. apply I1, allBytes_drop, Hx.
    - pose proof (len_drop w (String c r)). lia. }
  assert (HR : forall fuel x,
            (allBytes P x = true -> allBytes P (TrimRight_from fuel x) = true)
            /\ len (TrimRight_from fuel x) <= len x).
  { induction fuel as [|k IH]; intros x; cbn [TrimRight_from]; [split; [tauto|lia]|].
    destruct x as [|c r]; [split; [tauto|lia]|].
    destruct (DecodeLastRuneInString (String c r)) as [rn w].
    destruct (IsSpace rn); [|split; [tauto|lia]].
    destruct (IH (take_bytes (String.length (String c r) - w) (String c r)))
      as [I1 I2]. split.
    - intros Hx. apply I1, allBytes_take, Hx.
    - pose proof (len_take (String.length (String c r) - w) (String c r)). lia. }
  unfold TrimSpace, TrimRightSpace, TrimLeftSpace.
  destruct (HL (String.length s) s) as [L1 L2].
  destruct (HR (String.length (TrimLeft_from (String.length s) s))
               (TrimLeft_from (String.length s) s)) as [R1 R2].
  split; [intros Hs; apply R1, L1, Hs|lia].
Qed.

Lemma len_map_bytes g s : len (map_bytes g s) = len s.
Proof.
  induction s as [|c r IH]; [reflexivity|].
  cbn [map_bytes]. rewrite !len_String, IH. reflexivity.
Qed.

(** The name [sanitizeFilename] returns holds none of the characters of the
    class, and is no longer than the name it was given. *)
Theorem sanitizeFilename_safe (name : string) :
  allBytes (fun b => negb (forbiddenByte b)) (sanitizeFilename name) = true
  /\ len (sanitizeFilename name) <= len name.
Proof.
  unfold sanitizeFilename.
  set (g := fun b : Z => if forbiddenByte b then 95 else b).
  destruct (TrimSpace_piece (fun b => negb (forbiddenByte b)) (map_bytes g name))
    as [H1 H2].
  split.
  - apply H1. clear. induction name as [|c r IH]; [reflexivity|].
    cbn [map_bytes allBytes]. rewrite IH, andb_true_r.
    pose proof (byte_range c) as Hr. unfold g.
    destruct (forbiddenByte (byte c)) eqn:E.
    + reflexivity.
    + rewrite chr_byte, E. reflexivity.
  - rewrite len_map_bytes in H2. exact H2.
Qed.

(** ** Indices of the track in scope *)

Lemma indices_at_update st t g idxs :
  (forall tr, Track_Indices (g tr) = Track_Indices tr ++ idxs) ->
  indices_at (with_heap (update_track t g (heap st)) st) t
  = (fun l => l ++ idxs) <$> indices_at st t.
Proof.
  intros Hg. unfold indices_at. cbn [with_heap heap update_track tracks].
  rewrite list_lookup_alter. destruct (decide (t = t)); [|congruence].
  destruct (tracks (heap st) !! t) as [tr|]; [|reflexivity].
  cbn. rewrite Hg. reflexivity.
Qed.

Lemma indices_at_update_sheet st t g :
  indices_at (with_heap (update_sheet (sheet st) g (heap st)) st) t
  = (fun l => l ++ []) <$> indices_at st t.
Proof.
  unfold indices_at. cbn [with_heap heap update_sheet tracks].
  destruct (tracks (heap st) !! t); [|reflexivity]. cbn. rewrite app_nil_r. reflexivity.
Qed.

Lemma indices_at_same st t :
  indices_at st t = (fun l => l ++ []) <$> indices_at st t.
Proof.
  unfold indices_at. destruct (tracks (heap st) !! t); [|reflexivity].
  cbn. rewrite app_nil_r. reflexivity.
Qed.

Ltac keep_indices :=
  intros [= <-]; split; [reflexivity|];
  first [ apply indices_at_update_sheet
        | apply indices_at_same
        | apply indices_at_update; intros tr; cbn; rewrite ?app_nil_r; reflexivity ].

(** With a track in scope, a command that opens neither a file nor a track
    keeps the track in scope and adds to its indices the index of the
    command, if it is an [INDEX], and nothing otherwise. *)
Lemma dispatch_track_indices st t command args st' :
  currentTrack st = Some t -> command <> "FILE" -> command <> "TRACK" ->
  dispatch st command args = inr st' ->
  currentTrack st' = Some t
  /\ indices_at st' t
     = (fun l => l ++ match index_of_command command args with
                      | Some idx => [idx]
                      | None => []
                      end) <$> indices_at st t.
Proof.
  intros Ht HnF HnT. unfold dispatch, index_of_command. rewrite Ht.
  destruct (String.eqb_spec command "REM") as [->|N1].
  { destruct args; intros [= <-]; (split; [exact Ht|]);
      [apply indices_at_same|apply indices_at_update_sheet]. }
  destruct (String.eqb_spec command "CATALOG") as [->|N2].
  { destruct args; [discriminate|]. intros [= <-]. split; [exact Ht|].
    apply indices_at_update_sheet. }
  destruct (String.eqb_spec command "CDTEXTFILE") as [->|N3].
  { destruct args; [discriminate|]. intros [= <-]. split; [exact Ht|].
    apply indices_at_update_sheet. }
  destruct (String.eqb_spec command "TITLE") as [->|N4].
  { destruct args; [discriminate|]. intros [= <-]. split; [exact Ht|].
    apply indices_at_update. intros tr. cbn. rewrite app_nil_r. reflexivity. }
  destruct (String.eqb_spec command "PERFORMER") as [->|N5].
  { destruct args; [discriminate|]. intros [= <-]. split; [exact Ht|].
    apply indices_at_update. intros tr. cbn. rewrite app_nil_r. reflexivity. }
  destruct (String.eqb_spec command "SONGWRITER") as [->|N6].
  { destruct args; [discriminate|]. intros [= <-]. split; [exact Ht|].
    apply indices_at_update. intros tr. cbn. rewrite app_nil_r. reflexivity. }
  destruct (String.eqb_spec command "FILE") as [->|N7]; [congruence|].
  destruct (String.eqb_spec command "TRACK") as [->|N8]; [congruence|].
  destruct (String.eqb_spec command "INDEX") as [->|N9].
  { destruct args as [|a0 [|a1 more]]; [discriminate..|].
    destruct (Atoi a0) as [?|num]; [discriminate|].
    destruct (parseTimecode a1) as [?|tc]; [discriminate|].
    intros [= <-]. split; [exact Ht|].
    apply indices_at_update. intros tr. reflexivity. }
  destruct (String.eqb_spec command "PREGAP") as [->|N10].
  { destruct args; [discriminate|]. destruct (parseTimecode s); [discriminate|].
    intros [= <-]. split; [exact Ht|].
    apply indices_at_update. intros tr. cbn. rewrite app_nil_r. reflexivity. }
  destruct (String.eqb_spec command "POSTGAP") as [->|N11].
  { destruct args; [discriminate|]. destruct (parseTimecode s); [discriminate|].
    intros [= <-]. split; [exact Ht|].
    apply indices_at_update. intros tr. cbn. rewrite app_nil_r. reflexivity. }
  destruct (String.eqb_spec command "FLAGS") as [->|N12].
  { intros [= <-]. split; [exact Ht|].
    apply indices_at_update. intros tr. cbn. rewrite app_nil_r. reflexivity. }
  destruct (String.eqb_spec command "ISRC") as [->|N13].
  { destruct args; [discriminate|]. intros [= <-]. split; [exact Ht|].
    apply indices_at_update. intros tr. cbn. rewrite app_nil_r. reflexivity. }
  intros [= <-]. split; [exact Ht|]. apply indices_at_same.
Qed.

Lemma parseLine_track_indices st t text st' :
  currentTrack st = Some t -> quiet text -> parseLine st text = inr st' ->
  currentTrack st' = Some t
  /\ indices_at st' t = (fun l => l ++ index_of_line text) <$> indices_at st t.
Proof.
  intros Ht Hq Hp. unfold quiet in Hq. unfold index_of_line.
  destruct (parseLine_inversion _ _ _ Hp) as [[Hc ->]|(c & a & Hc & Hd)];
    rewrite Hc in *.
  - split; [exact Ht|]. apply (indices_at_same (next_line st)).
  - destruct Hq as [HnF HnT].
    exact (dispatch_track_indices (next_line st) t c a st' Ht HnF HnT Hd).
Qed.

(** From a [TRACK] line to the next line that opens a track or a file,
    the track stays in scope and its indices grow by exactly the indices of
    the [INDEX] lines read, in the order of the input; no other command
    touches them. *)
Theorem indices_follow_input_order (lines : list string) :
  forall (st st' : ParseState) (t : ptr),
    currentTrack st = Some t -> Forall quiet lines ->
    parseLines st lines = inr st' ->
    currentTrack st' = Some t
    /\ indices_at st' t = (fun l => l ++ indices_of_lines lines) <$> indices_at st t.
Proof.
  induction lines as [|x lines IH]; intros st st' t Ht Hq Hp; cbn [parseLines] in Hp.
  - injection Hp as <-. split; [exact Ht|]. apply indices_at_same.
  - destruct (parseLine st x) as [?|st1] eqn:E; [discriminate|].
    inversion Hq as [|? ? Hqx Hql]; subst.
    destruct (parseLine_track_indices _ _ _ _ Ht Hqx E) as [Ht1 Hi1].
    destruct (IH _ _ _ Ht1 Hql Hp) as [Ht2 Hi2].
    split; [exact Ht2|]. rewrite Hi2, Hi1.
    unfold indices_of_lines. cbn [map concat].
    destruct (indices_at st t); [|reflexivity]. cbn. rewrite app_assoc. reflexivity.
Qed.

End Parser.

(** * Closed instances *)

(** C3, as stated, fails: the type arguments of [FILE] and [TRACK] are
    stored uppercased, not as tokenized. *)
Lemma type_arguments_counterexample :
  smartSplit "FILE a.wav wave" = inr ["FILE"; "a.wav"; "wave"]
  /\ smartSplit "TRACK 01 audio" = inr ["TRACK"; "01"; "audio"]
  /\ exists h sp f t,
       Parse plainTable ["FILE a.wav wave"; "TRACK 01 audio"] None = inr (h, sp)
       /\ files h !! 0%nat = Some f /\ File_Name f = "a.wav"
       /\ File_Type f = "WAVE" /\ File_Type f <> "wave"
       /\ tracks h !! 0%nat = Some t
       /\ Track_Type t = "AUDIO" /\ Track_Type t <> "audio".
Proof.
  split; [vm_compute; reflexivity|]. split; [vm_compute; reflexivity|].
  eexists _, _, _, _. split; [vm_compute; reflexivity|].
  split; [reflexivity|]. split; [reflexivity|]. split; [reflexivity|].
  split; [discriminate|]. split; [reflexivity|]. split; [reflexivity|discriminate].
Qed.

(** C1, as stated, fails: with tracks 1, 3, 2 in one file, track 2 is found
    by the scan and lies in the file of track 1, two minutes later, yet the
    duration of track 1 is zero, since the track right after it is not
    numbered 2. *)
Lemma duration_not_adjacent_counterexample :
  exists h sp s,
    Parse plainTable ["FILE a.wav WAVE";
           "TRACK 01 AUDIO"; "INDEX 01 00:00:00";
           "TRACK 03 AUDIO"; "INDEX 01 01:00:00";
           "TRACK 02 AUDIO"; "INDEX 01 02:00:00"] None = inr (h, sp)
    /\ sheets h !! sp = Some s
    /\ Track_Number <$> tracks h !! 0%nat = Some 1
    /\ Duration h 0%nat = Some 0
    /\ duration_as_claimed 1 (sheet_tracks h s) = 120000000000.
Proof.
  eexists _, _, _. split; [vm_compute; reflexivity|].
  split; [reflexivity|]. split; [reflexivity|].
  split; vm_compute; reflexivity.
Qed.

(** ** Instances of the theorems above *)

Lemma AsDuration_exact_nanoseconds_witness :
  0 <= 1440 /\ (1440 * 60 * 75 + 0 * 75 + 0) * 1000000000 <= MaxInt64
  /\ TotalFrames {| Minutes := 1440; Seconds := 0; Frames := 0 |} = 6480000
  /\ AsDuration {| Minutes := 1440; Seconds := 0; Frames := 0 |} = 86400000000000.
Proof.
  split; [lia|]. split; [unfold MaxInt64; lia|].
  destruct (AsDuration_exact_nanoseconds
              {| Minutes := 1440; Seconds := 0; Frames := 0 |}
              ltac:(simpl; lia) ltac:(simpl; lia) ltac:(simpl; lia)
              ltac:(unfold MaxInt64; simpl; lia)) as (_ & HF & HD & _).
  split; [exact HF|exact HD].
Defined.

Lemma roundtrip_canonical_witness :
  parseTimecode "04:30:15" = inr {| Minutes := 4; Seconds := 30; Frames := 15 |}
  /\ Timecode_String
       (NewTimecodeFromFrames
          (TotalFrames {| Minutes := 4; Seconds := 30; Frames := 15 |}))
     = "04:30:15".
Proof.
  split; [vm_compute; reflexivity|].
  destruct (roundtrip_canonical "04:30:15"
              {| Minutes := 4; Seconds := 30; Frames := 15 |}
              ltac:(vm_compute; reflexivity)
              ltac:(simpl; lia) ltac:(simpl; lia) ltac:(simpl; lia)
              ltac:(unfold MaxInt64; simpl; lia)) as (_ & _ & _ & H).
  apply H. vm_compute. reflexivity.
Defined.

Lemma parseTimecode_fields_witness :
  Split_colon "00:60:00" = ["00"; "60"; "00"]
  /\ Atoi "00" = inr 0 /\ Atoi "60" = inr 60 /\ 59 < 60
  /\ parseTimecode "00:60:00"
     = inl (errors_New "seconds value cannot exceed 59: 60").
Proof.
  split; [reflexivity|]. split; [reflexivity|]. split; [reflexivity|].
  split; [lia|].
  destruct parseTimecode_fields as (_ & H & _).
  destruct (H "00:60:00" "00" "60" "00" ltac:(vm_compute; reflexivity)) as [_ H2].
  destruct (H2 0 ltac:(vm_compute; reflexivity)) as [_ H3].
  destruct (H3 60 ltac:(vm_compute; reflexivity)) as [H4 _].
  apply H4. lia.
Defined.

Lemma open_quote_before_wide_rune_is_accepted_witness :
  isASCII ("TITLE " ++ dq ++ "My Album") = true
  /\ oddQuotes ("TITLE " ++ dq ++ "My Album") = true
  /\ smartSplit ("TITLE " ++ dq ++ "My Album")
     = inl (errors_New "mismatched quotes").
Proof.
  split; [vm_compute; reflexivity|]. split; [vm_compute; reflexivity|].
  apply (proj1 (open_quote_before_wide_rune_is_accepted plainTable));
    vm_compute; reflexivity.
Defined.

Lemma pending_indices_reach_next_track_witness :
  exists st st2 t,
    parseLines plainTable initialState ["FILE a.wav WAVE"] = inr st
    /\ currentFile st = Some 0%nat /\ currentTrack st = None
    /\ Forall (quiet plainTable) ["INDEX 00 00:00:00"; "REM x"; "INDEX 01 00:02:00"]
    /\ parseLines plainTable st
         (["INDEX 00 00:00:00"; "REM x"; "INDEX 01 00:02:00"] ++ ["TRACK 01 AUDIO"])
       = inr st2
    /\ pendingIndices st2 = [] /\ currentTrack st2 = Some t
    /\ Track_Indices <$> tracks (heap st2) !! t
       = Some [{| Index_Number := 0;
                  Index_Time := {| Minutes := 0; Seconds := 0; Frames := 0 |} |};
               {| Index_Number := 1;
                  Index_Time := {| Minutes := 0; Seconds := 2; Frames := 0 |} |}].
Proof.
  assert (Hq : Forall (quiet plainTable)
                 ["INDEX 00 00:00:00"; "REM x"; "INDEX 01 00:02:00"]).
  { repeat constructor; vm_compute; discriminate. }
  let r := eval vm_compute in (parseLines plainTable initialState ["FILE a.wav WAVE"]) in
  match r with
  | inr ?st =>
    destruct (pending_indices_reach_next_track plainTable ["FILE a.wav WAVE"] st
                ltac:(vm_compute; reflexivity)) as [_ H];
    destruct (H 0%nat ltac:(reflexivity) ltac:(reflexivity)) as [_ H2];
    let r2 := eval vm_compute in
                (parseLines plainTable st
                   ["INDEX 00 00:00:00"; "REM x"; "INDEX 01 00:02:00"]) in
    match r2 with
    | inr ?st1 =>
      destruct (H2 ["INDEX 00 00:00:00"; "REM x"; "INDEX 01 00:02:00"] st1
                  "TRACK 01 AUDIO" "01" "AUDIO" [] 1 Hq
                  ltac:(vm_compute; reflexivity) ltac:(vm_compute; reflexivity)
                  ltac:(vm_compute; reflexivity))
        as (st2 & t & Hrun & Hp & Hc & Ht & Hl & _);
      exists st, st2, t
    end
  end.
  split; [vm_compute; reflexivity|]. split; [reflexivity|]. split; [reflexivity|].
  split; [exact Hq|]. split; [exact Hrun|]. split; [exact Hp|]. split; [exact Hc|].
  rewrite Hl. vm_compute. reflexivity.
Defined.

Lemma file_discards_pending_indices_witness :
  exists st st1 st2 st3,
    parseLines plainTable initialState ["FILE a.wav WAVE"; "INDEX 01 00:05:00"] = inr st
    /\ pendingIndices st
       = [{| Index_Number := 1;
             Index_Time := {| Minutes := 0; Seconds := 5; Frames := 0 |} |}]
    /\ parseLine plainTable st "FILE b.wav WAVE" = inr st1
    /\ pendingIndices st1 = []
    /\ parseLines plainTable st1 ["INDEX 00 00:01:00"] = inr st2
    /\ parseLine plainTable st2 "TRACK 01 AUDIO" = inr st3
    /\ Track_Indices <$> tracks (heap st3) !! 0%nat
       = Some [{| Index_Number := 0;
                  Index_Time := {| Minutes := 0; Seconds := 1; Frames := 0 |} |}].
Proof.
  let r := eval vm_compute in
             (parseLines plainTable initialState
                ["FILE a.wav WAVE"; "INDEX 01 00:05:00"]) in
  match r with
  | inr ?st =>
    destruct (proj1 (file_discards_pending_indices plainTable) st
                "FILE b.wav WAVE" "b.wav" "WAVE" [] ltac:(vm_compute; reflexivity))
      as (st1 & Hl1 & Hp1 & _ & _ & Hnext);
    exists st, st1
  end.
  assert (Hq : Forall (quiet plainTable) ["INDEX 00 00:01:00"]).
  { repeat constructor; vm_compute; discriminate. }
  assert (Hst1 : exists st2, parseLines plainTable st1 ["INDEX 00 00:01:00"] = inr st2).
  { vm_compute in Hl1. injection Hl1 as <-. eexists. vm_compute. reflexivity. }
  destruct Hst1 as [st2 Hst2].
  destruct (Hnext ["INDEX 00 00:01:00"] st2 "TRACK 01 AUDIO" "01" "AUDIO" [] 1 Hq Hst2
              ltac:(vm_compute; reflexivity) ltac:(vm_compute; reflexivity))
    as (st3 & Hl3 & _ & Ht3).
  exists st2, st3.
  split; [vm_compute; reflexivity|]. split; [reflexivity|]. split; [exact Hl1|].
  split; [exact Hp1|]. split; [exact Hst2|]. split; [exact Hl3|].
  vm_compute in Ht3 |- *. rewrite Ht3. vm_compute. reflexivity.
Defined.

Lemma only_command_and_types_uppercased_witness :
  parseLines plainTable initialState [] = inr initialState
  /\ TrimSpace "  file a.wav wave" <> ""
  /\ smartSplit (TrimSpace "  file a.wav wave") = inr ["file"; "a.wav"; "wave"]
  /\ ToUpper plainTable "file" = "FILE"
  /\ exists st',
       parseLine plainTable initialState "  file a.wav wave" = inr st'
       /\ files (heap st') !! 0%nat
          = Some {| File_Name := "a.wav"; File_Type := "WAVE"; File_Tracks := [];
                    parentSheet := None |}.
Proof.
  split; [reflexivity|]. split; [vm_compute; discriminate|].
  split; [vm_compute; reflexivity|]. split; [vm_compute; reflexivity|].
  destruct (only_command_and_types_uppercased plainTable [] initialState
              "  file a.wav wave" "file" ["a.wav"; "wave"]
              ltac:(reflexivity) ltac:(vm_compute; discriminate)
              ltac:(vm_compute; reflexivity)) as (_ & HF & _).
  destruct (HF ltac:(vm_compute; reflexivity) "a.wav" "wave" [] ltac:(reflexivity))
    as (st' & Hl & _ & Hfile).
  exists st'. split; [exact Hl|]. vm_compute in Hfile |- *. exact Hfile.
Defined.

Lemma duration_of_parsed_sheet_witness :
  exists h sp s,
    Parse plainTable
      ["FILE a.wav WAVE"; "TRACK 01 AUDIO"; "INDEX 01 00:00:00";
       "TRACK 02 AUDIO"; "INDEX 01 03:00:00";
       "FILE b.wav WAVE"; "TRACK 03 AUDIO"; "INDEX 01 00:00:00"] None = inr (h, sp)
    /\ sheets h !! sp = Some s
    /\ (forall p t, tracks h !! p = Some t ->
          Duration h p = Some (duration_of (Track_Number t) (sheet_tracks h s)))
    /\ duration_of 1 (sheet_tracks h s) = 180000000000
    /\ duration_of 2 (sheet_tracks h s) = 0.
Proof.
  let r := eval vm_compute in
             (Parse plainTable
                ["FILE a.wav WAVE"; "TRACK 01 AUDIO"; "INDEX 01 00:00:00";
                 "TRACK 02 AUDIO"; "INDEX 01 03:00:00";
                 "FILE b.wav WAVE"; "TRACK 03 AUDIO"; "INDEX 01 00:00:00"] None) in
  match r with
  | inr (?h, ?sp) =>
    destruct (duration_of_parsed_sheet plainTable
                ["FILE a.wav WAVE"; "TRACK 01 AUDIO"; "INDEX 01 00:00:00";
                 "TRACK 02 AUDIO"; "INDEX 01 03:00:00";
                 "FILE b.wav WAVE"; "TRACK 03 AUDIO"; "INDEX 01 00:00:00"]
                h sp ltac:(vm_compute; reflexivity))
      as (s & Hs & _ & Hd);
    exists h, sp, s
  end.
  split; [vm_compute; reflexivity|]. split; [exact Hs|].
  split; [exact Hd|]. clear Hd.
  vm_compute in Hs. injection Hs as <-.
  split; vm_compute; reflexivity.
Defined.

Lemma Duration_without_back_references_witness :
  let at0 := {| Index_Number := 1;
                Index_Time := {| Minutes := 0; Seconds := 0; Frames := 0 |} |} in
  let at3 := {| Index_Number := 1;
                Index_Time := {| Minutes := 3; Seconds := 0; Frames := 0 |} |} in
  let file := {| File_Name := "a.wav"; File_Type := "WAVE"; File_Tracks := [0; 1]%nat;
                 parentSheet := None |} in
  let h := {| sheets := []; files := [file];
              tracks := [set_parentFile (Some 0%nat) (new_track_of 1 "AUDIO" [at0]);
                         set_parentFile (Some 0%nat) (new_track_of 2 "AUDIO" [at3]);
                         new_track_of 3 "AUDIO" [at0]] |} in
  tracks h !! 0%nat = Some (set_parentFile (Some 0%nat) (new_track_of 1 "AUDIO" [at0]))
  /\ Duration h 0%nat = Some 180000000000
  /\ tracks h !! 2%nat = Some (new_track_of 3 "AUDIO" [at0])
  /\ Duration h 2%nat = Some 0.
Proof.
  intros at0 at3 file h.
  split; [reflexivity|]. split.
  - destruct (Duration_without_back_references h 0%nat _ ltac:(reflexivity))
      as (_ & H & _).
    destruct (H 0%nat file ltac:(reflexivity) ltac:(reflexivity) ltac:(reflexivity))
      as (Hd & _).
    rewrite Hd. vm_compute. reflexivity.
  - split; [reflexivity|].
    destruct (Duration_without_back_references h 2%nat _ ltac:(reflexivity))
      as (H & _).
    apply H. reflexivity.
Defined.

(** ** Instances of the further properties *)

Lemma NewTimecodeFromFrames_canonical_witness :
  MinInt64 <= 20265 <= MaxInt64
  /\ canonical (NewTimecodeFromFrames 20265)
  /\ NewTimecodeFromFrames 20265 = {| Minutes := 4; Seconds := 30; Frames := 15 |}.
Proof.
  split; [unfold MinInt64, MaxInt64; lia|].
  split; [|vm_compute; reflexivity].
  exact (proj1 (NewTimecodeFromFrames_canonical 20265
                  ltac:(unfold MinInt64, MaxInt64; lia))).
Defined.

Lemma frame_count_round_trip_witness :
  0 <= 20265 <= MaxInt64
  /\ TotalFrames (NewTimecodeFromFrames 20265) = 20265
  /\ canonical {| Minutes := 4; Seconds := 30; Frames := 15 |}
  /\ NewTimecodeFromFrames (TotalFrames {| Minutes := 4; Seconds := 30; Frames := 15 |})
     = {| Minutes := 4; Seconds := 30; Frames := 15 |}.
Proof.
  assert (Hc : canonical {| Minutes := 4; Seconds := 30; Frames := 15 |}).
  { unfold canonical, FramesPerSecond. simpl. lia. }
  split; [unfold MaxInt64; lia|].
  split; [exact (proj2 frame_count_round_trip 20265 ltac:(unfold MaxInt64; lia))|].
  split; [exact Hc|].
  exact (proj2 (proj1 frame_count_round_trip
                  {| Minutes := 4; Seconds := 30; Frames := 15 |} Hc
                  ltac:(unfold frameCount, MaxInt64; simpl; lia))).
Defined.

Lemma timecode_order_witness :
  canonical {| Minutes := 0; Seconds := 59; Frames := 74 |}
  /\ canonical {| Minutes := 1; Seconds := 0; Frames := 0 |}
  /\ earlier {| Minutes := 0; Seconds := 59; Frames := 74 |}
             {| Minutes := 1; Seconds := 0; Frames := 0 |}
  /\ AsDuration {| Minutes := 0; Seconds := 59; Frames := 74 |}
     < AsDuration {| Minutes := 1; Seconds := 0; Frames := 0 |}.
Proof.
  assert (Ha : canonical {| Minutes := 0; Seconds := 59; Frames := 74 |}).
  { unfold canonical, FramesPerSecond. simpl. lia. }
  assert (Hb : canonical {| Minutes := 1; Seconds := 0; Frames := 0 |}).
  { unfold canonical, FramesPerSecond. simpl. lia. }
  assert (He : earlier {| Minutes := 0; Seconds := 59; Frames := 74 |}
                       {| Minutes := 1; Seconds := 0; Frames := 0 |}).
  { unfold earlier. simpl. lia. }
  split; [exact Ha|]. split; [exact Hb|]. split; [exact He|].
  apply (proj1 (proj2 (timecode_order _ _ Ha Hb
                         ltac:(unfold frameCount, MaxInt64; simpl; lia)
                         ltac:(unfold frameCount, MaxInt64; simpl; lia)))).
  exact He.
Defined.

Lemma Timecode_String_layout_witness :
  canonical {| Minutes := 4; Seconds := 30; Frames := 15 |} /\ 4 <= 99
  /\ Timecode_String {| Minutes := 4; Seconds := 30; Frames := 15 |} = "04:30:15"
  /\ len (Timecode_String {| Minutes := 4; Seconds := 30; Frames := 15 |}) = 8.
Proof.
  assert (Hc : canonical {| Minutes := 4; Seconds := 30; Frames := 15 |}).
  { unfold canonical, FramesPerSecond. simpl. lia. }
  split; [exact Hc|]. split; [lia|].
  destruct (Timecode_String_layout {| Minutes := 4; Seconds := 30; Frames := 15 |}
              Hc ltac:(simpl; lia)) as [H1 H2].
  split; [rewrite H1; vm_compute; reflexivity|exact H2].
Defined.

Lemma StartTime_first_index_one_witness :
  let i0 := {| Index_Number := 0;
               Index_Time := {| Minutes := 0; Seconds := 0; Frames := 0 |} |} in
  let i1 := {| Index_Number := 1;
               Index_Time := {| Minutes := 0; Seconds := 2; Frames := 0 |} |} in
  let i1' := {| Index_Number := 1;
                Index_Time := {| Minutes := 9; Seconds := 9; Frames := 9 |} |} in
  Forall (fun i => Index_Number i <> 1) [i0]
  /\ StartTime (new_track_of 1 "AUDIO" [i0; i1; i1'])
     = {| Minutes := 0; Seconds := 2; Frames := 0 |}
  /\ StartTime (new_track_of 1 "AUDIO" [i0]) = zeroTimecode.
Proof.
  intros i0 i1 i1'.
  assert (H0 : Forall (fun i => Index_Number i <> 1) [i0]).
  { repeat constructor. simpl. lia. }
  split; [exact H0|]. split.
  - exact (proj2 (StartTime_first_index_one (new_track_of 1 "AUDIO" [i0; i1; i1']))
             [i0] i1 [i1'] eq_refl H0 eq_refl).
  - exact (proj1 (StartTime_first_index_one (new_track_of 1 "AUDIO" [i0])) H0).
Defined.

Lemma Duration_never_negative_witness :
  let at5 := {| Index_Number := 1;
                Index_Time := {| Minutes := 5; Seconds := 0; Frames := 0 |} |} in
  let at3 := {| Index_Number := 1;
                Index_Time := {| Minutes := 3; Seconds := 0; Frames := 0 |} |} in
  let h := {| sheets := [];
              files := [{| File_Name := "a.wav"; File_Type := "WAVE";
                           File_Tracks := [0; 1]%nat; parentSheet := None |}];
              tracks := [set_parentFile (Some 0%nat) (new_track_of 1 "AUDIO" [at5]);
                         set_parentFile (Some 0%nat) (new_track_of 2 "AUDIO" [at3])] |} in
  Duration h 0%nat = Some 0 /\ 0 <= 0 <= 2 ^ 58.
Proof.
  intros at5 at3 h.
  assert (Hd : Duration h 0%nat = Some 0) by (vm_compute; reflexivity).
  split; [exact Hd|].
  exact (proj1 (Duration_never_negative h) 0%nat 0 Hd).
Defined.

Lemma Parse_result_well_formed_witness :
  exists h sp s,
    Parse plainTable
      ["FILE a.wav WAVE"; "TRACK 01 AUDIO"; "INDEX 01 00:00:00";
       "FILE b.wav WAVE"; "TRACK 02 AUDIO"; "INDEX 01 00:00:00"] None = inr (h, sp)
    /\ sheets h = [s] /\ Cuesheet_Files s = [0; 1]%nat
    /\ map File_Tracks (files h) = [[0%nat]; [1%nat]]
    /\ closed h.
Proof.
  let r := eval vm_compute in
             (Parse plainTable
                ["FILE a.wav WAVE"; "TRACK 01 AUDIO"; "INDEX 01 00:00:00";
                 "FILE b.wav WAVE"; "TRACK 02 AUDIO"; "INDEX 01 00:00:00"] None) in
  match r with
  | inr (?h, ?sp) =>
    destruct (Parse_result_well_formed plainTable
                ["FILE a.wav WAVE"; "TRACK 01 AUDIO"; "INDEX 01 00:00:00";
                 "FILE b.wav WAVE"; "TRACK 02 AUDIO"; "INDEX 01 00:00:00"]
                h sp ltac:(vm_compute; reflexivity))
      as (s & Hs & _ & Hf & _ & _ & _ & Hcl);
    exists h, sp, s
  end.
  split; [vm_compute; reflexivity|]. split; [exact Hs|].
  split; [rewrite Hf; reflexivity|]. split; [reflexivity|exact Hcl].
Defined.

Lemma smartSplit_tokens_clean_witness :
  smartSplit ("PERFORMER   " ++ dq ++ "Various Artists" ++ dq)
  = inr ["PERFORMER"; "Various Artists"]
  /\ Forall (fun tok => tok <> EmptyString /\ allBytes notQuote tok = true)
            ["PERFORMER"; "Various Artists"].
Proof.
  split; [vm_compute; reflexivity|].
  exact (smartSplit_tokens_clean
           ("PERFORMER   " ++ dq ++ "Various Artists" ++ dq)
           ["PERFORMER"; "Various Artists"] ltac:(vm_compute; reflexivity)).
Defined.

Lemma smartSplit_ascii_fails_iff_odd_quotes_witness :
  isASCII ("TITLE " ++ dq ++ "a b" ++ dq) = true
  /\ oddQuotes ("TITLE " ++ dq ++ "a b" ++ dq) = false
  /\ exists toks, smartSplit ("TITLE " ++ dq ++ "a b" ++ dq) = inr toks.
Proof.
  split; [vm_compute; reflexivity|]. split; [vm_compute; reflexivity|].
  apply (proj2 (smartSplit_ascii_fails_iff_odd_quotes
                  ("TITLE " ++ dq ++ "a b" ++ dq) ltac:(vm_compute; reflexivity))).
  vm_compute. reflexivity.
Defined.

Lemma quoted_argument_is_one_token_witness :
  isASCII "TITLE" = true /\ allBytes wordByte "TITLE" = true /\ "TITLE" <> ""
  /\ isASCII "My  Album" = true /\ allBytes notQuote "My  Album" = true
  /\ smartSplit ("TITLE" ++ " " ++ dq ++ "My  Album" ++ dq) = inr ["TITLE"; "My  Album"]
  /\ smartSplit ("TITLE" ++ " " ++ dq ++ "" ++ dq) = inr ["TITLE"].
Proof.
  split; [reflexivity|]. split; [vm_compute; reflexivity|]. split; [discriminate|].
  split; [reflexivity|]. split; [vm_compute; reflexivity|]. split.
  - exact (quoted_argument_is_one_token "TITLE" "My  Album"
             ltac:(reflexivity) ltac:(vm_compute; reflexivity) ltac:(discriminate)
             ltac:(reflexivity) ltac:(vm_compute; reflexivity)).
  - exact (quoted_argument_is_one_token "TITLE" ""
             ltac:(reflexivity) ltac:(vm_compute; reflexivity) ltac:(discriminate)
             ltac:(reflexivity) ltac:(reflexivity)).
Defined.

Lemma Parse_first_error_witness :
  exists st,
    parseLines plainTable initialState ["FILE a.wav WAVE"; "TRACK 01 AUDIO"] = inr st
    /\ parseLine plainTable st "INDEX 01 00:60:00"
       = inl (line_error_w 3 "invalid timecode for INDEX"
                (errors_New "seconds value cannot exceed 59: 60"))
    /\ Parse plainTable
         ["FILE a.wav WAVE"; "TRACK 01 AUDIO"; "INDEX 01 00:60:00"; "TRACK x y"] None
       = inl (line_error_w 3 "invalid timecode for INDEX"
                (errors_New "seconds value cannot exceed 59: 60")).
Proof.
  let r := eval vm_compute in
             (parseLines plainTable initialState ["FILE a.wav WAVE"; "TRACK 01 AUDIO"]) in
  match r with
  | inr ?st =>
    exists st;
    pose proof (proj2 (Parse_first_error plainTable
                         ["FILE a.wav WAVE"; "TRACK 01 AUDIO"] st "INDEX 01 00:60:00"
                         (line_error_w 3 "invalid timecode for INDEX"
                            (errors_New "seconds value cannot exceed 59: 60"))
                         ltac:(vm_compute; reflexivity) ltac:(vm_compute; reflexivity))
                  ["TRACK x y"] None) as H
  end.
  split; [vm_compute; reflexivity|]. split; [vm_compute; reflexivity|]. exact H.
Defined.

Lemma passed_over_line_leaves_no_trace_witness :
  passed_over plainTable "DISCID 12345"
  /\ outcome (Parse plainTable (["FILE a.wav WAVE"] ++ "DISCID 12345" :: ["TRACK 01 AUDIO"])
                None)
     = outcome (Parse plainTable (["FILE a.wav WAVE"] ++ ["TRACK 01 AUDIO"]) None).
Proof.
  assert (Hp : passed_over plainTable "DISCID 12345").
  { right. right. exists "DISCID", ["12345"]. split; [vm_compute; reflexivity|].
    left. unfold knownCommands. cbn [In]. intuition discriminate. }
  split; [exact Hp|].
  exact (passed_over_line_leaves_no_trace plainTable
           ["FILE a.wav WAVE"] ["TRACK 01 AUDIO"] "DISCID 12345" Hp).
Defined.

Lemma scope_is_checked_before_arguments_witness :
  exists st,
    parseLines plainTable initialState ["FILE a.wav WAVE"] = inr st
    /\ command_of plainTable "PREGAP" = Some ("PREGAP", [])
    /\ currentTrack st = None
    /\ parseLine plainTable st "PREGAP"
       = inl (line_error 2 "PREGAP command found outside of a TRACK context").
Proof.
  let r := eval vm_compute in (parseLines plainTable initialState ["FILE a.wav WAVE"]) in
  match r with
  | inr ?st =>
    exists st;
    pose proof (proj2 (scope_is_checked_before_arguments plainTable
                         ["FILE a.wav WAVE"] st "PREGAP" "PREGAP" []
                         ltac:(vm_compute; reflexivity) ltac:(vm_compute; reflexivity))
                  ltac:(cbn [In]; tauto) ltac:(reflexivity)) as H
  end.
  split; [vm_compute; reflexivity|]. split; [vm_compute; reflexivity|].
  split; [reflexivity|]. exact H.
Defined.

Lemma Parse_counts_witness :
  exists h sp,
    Parse plainTable
      ["FILE a.wav WAVE"; "TRACK 01 AUDIO"; "TRACK 02 AUDIO";
       "FILE b.wav WAVE"; "TRACK 03 AUDIO"] None = inr (h, sp)
    /\ count_command plainTable "FILE"
         ["FILE a.wav WAVE"; "TRACK 01 AUDIO"; "TRACK 02 AUDIO";
          "FILE b.wav WAVE"; "TRACK 03 AUDIO"] = 2%nat
    /\ length (files h) = 2%nat /\ length (tracks h) = 3%nat.
Proof.
  let r := eval vm_compute in
             (Parse plainTable
                ["FILE a.wav WAVE"; "TRACK 01 AUDIO"; "TRACK 02 AUDIO";
                 "FILE b.wav WAVE"; "TRACK 03 AUDIO"] None) in
  match r with
  | inr (?h, ?sp) =>
    destruct (Parse_counts plainTable
                ["FILE a.wav WAVE"; "TRACK 01 AUDIO"; "TRACK 02 AUDIO";
                 "FILE b.wav WAVE"; "TRACK 03 AUDIO"]
                h sp ltac:(vm_compute; reflexivity)) as (HF & HT & _);
    exists h, sp
  end.
  split; [vm_compute; reflexivity|]. split; [vm_compute; reflexivity|].
  split; [rewrite HF|rewrite HT]; vm_compute; reflexivity.
Defined.

Lemma parseTimecode_accepts_negative_fields_witness :
  MinInt64 <= -1 <= MaxInt64 /\ MinInt64 <= -2 <= 59 /\ MinInt64 <= -3 < 75
  /\ parseTimecode "-1:-2:-3" = inr {| Minutes := -1; Seconds := -2; Frames := -3 |}.
Proof.
  split; [unfold MinInt64, MaxInt64; lia|]. split; [unfold MinInt64; lia|].
  split; [unfold MinInt64; lia|].
  exact (parseTimecode_accepts_negative_fields (-1) (-2) (-3)
           ltac:(unfold MinInt64, MaxInt64; lia) ltac:(unfold MinInt64; lia)
           ltac:(unfold MinInt64; lia)).
Defined.

Lemma indices_follow_input_order_witness :
  exists st st',
    parseLines plainTable initialState
      ["FILE a.wav WAVE"; "INDEX 00 00:00:00"; "TRACK 01 AUDIO"] = inr st
    /\ currentTrack st = Some 0%nat
    /\ Forall (quiet plainTable)
         ["INDEX 01 00:02:00"; "TITLE One"; "index 02 01:00:00"; "FLAGS DCP"]
    /\ parseLines plainTable st
         ["INDEX 01 00:02:00"; "TITLE One"; "index 02 01:00:00"; "FLAGS DCP"] = inr st'
    /\ currentTrack st' = Some 0%nat
    /\ indices_at st' 0%nat
       = Some [{| Index_Number := 0;
                  Index_Time := {| Minutes := 0; Seconds := 0; Frames := 0 |} |};
               {| Index_Number := 1;
                  Index_Time := {| Minutes := 0; Seconds := 2; Frames := 0 |} |};
               {| Index_Number := 2;
                  Index_Time := {| Minutes := 1; Seconds := 0; Frames := 0 |} |}].
Proof.
  assert (Hq : Forall (quiet plainTable)
                 ["INDEX 01 00:02:00"; "TITLE One"; "index 02 01:00:00"; "FLAGS DCP"]).
  { repeat constructor; vm_compute; discriminate. }
  let r := eval vm_compute in
             (parseLines plainTable initialState
                ["FILE a.wav WAVE"; "INDEX 00 00:00:00"; "TRACK 01 AUDIO"]) in
  match r with
  | inr ?st =>
    let r1 := eval vm_compute in
                (parseLines plainTable st
                   ["INDEX 01 00:02:00"; "TITLE One"; "index 02 01:00:00"; "FLAGS DCP"]) in
    match r1 with
    | inr ?st1 =>
      destruct (indices_follow_input_order plainTable
                  ["INDEX 01 00:02:00"; "TITLE One"; "index 02 01:00:00"; "FLAGS DCP"]
                  st st1 0%nat ltac:(reflexivity) Hq ltac:(vm_compute; reflexivity))
        as [Hc Hi];
      exists st, st1
    end
  end.
  split; [vm_compute; reflexivity|]. split; [reflexivity|]. split; [exact Hq|].
  split; [vm_compute; reflexivity|]. split; [exact Hc|].
  rewrite Hi. vm_compute. reflexivity.
Defined.
